(** * pySync: one-way directory synchronisation ([sync.py])

    A shallow embedding of [sync] and of the part of the operating system it
    talks to ([os.walk], [os.path.exists], [os.makedirs], [shutil.copy2],
    [os.path.getmtime], [os.remove], [shutil.rmtree], the logger), followed
    by the properties of one pass and of repeated passes.

    The file system is one global name space: a finite map from absolute
    paths (lists of segments, the root being the empty list) to entries.
    Both roots handed to [sync] are paths in that one map, so roots that
    coincide or are nested are part of the model.

    The rest of the script is embedded as well: [parse_args] on the list of
    command-line arguments, the logger that [setup_logger] configures, and
    the endless loop of the main block with its [time.sleep]. *)

From Stdlib Require Import ZArith.
From stdpp Require Import gmap strings list fin_maps.

Local Open Scope Z_scope.

(** ** Data model *)

(** An entry is a regular file, with the modification time reported by
    [os.path.getmtime] and its bytes, or a directory.  There are no symbolic
    links, no permissions and no quota in the model: the only failures are
    the structural ones (missing path, wrong kind). *)
Inductive entry : Type :=
  | EFile (mtime : Z) (data : string)
  | EDir.

#[global] Instance entry_eq_dec : EqDecision entry.
Proof. solve_decision. Defined.

Definition is_dir (e : entry) : bool :=
  match e with EDir => true | EFile _ _ => false end.

(** Exceptions of the Python runtime that the modelled calls can raise. *)
Inductive exn : Type :=
  | FileNotFoundError (p : list string)
  | NotADirectoryError (p : list string)
  | IsADirectoryError (p : list string)
  | FileExistsError (p : list string)
  | SameFileError (p : list string)
  | PermissionError (p : list string).

(** Records handed to the logger.  The five INFO messages of [sync] carry the
    path relative to the root; the two DEBUG messages frame a pass (the
    duration printed by the second one is not modelled). *)
Inductive record : Type :=
  | Debug_syncing
  | Debug_completed
  | Created_directory (rel : list string)
  | Created_file (rel : list string)
  | Modified_file (rel : list string)
  | Removed_file (rel : list string)
  | Removed_directory (rel : list string).

#[global] Instance record_eq_dec : EqDecision record.
Proof. solve_decision. Defined.

(** INFO records are the change events; DEBUG records are not. *)
Definition is_event (r : record) : bool :=
  match r with Debug_syncing | Debug_completed => false | _ => true end.

Definition events (l : list record) : list record := base.filter (λ r, is_event r = true) l.

(** The world a pass runs in: the file system and what was logged so far. *)
Record world : Type := World {
  fs : gmap (list string) entry;
  log : list record
}.

(** A well-formed file system has a root directory, and every entry lives in
    a directory. *)
Definition wf (m : gmap (list string) entry) : Prop :=
  m !! [] = Some EDir ∧
  ∀ p n, is_Some (m !! (p ++ [n])) → m !! p = Some EDir.

(** ** Paths *)

(** [strip_prefix p k] is [Some q] exactly when [k = p ++ q]. *)
Fixpoint strip_prefix (p k : list string) : option (list string) :=
  match p, k with
  | [], _ => Some k
  | a :: p', b :: k' => if decide (a = b) then strip_prefix p' k' else None
  | _ :: _, [] => None
  end.

(** [os.path.relpath(path, start)].  [sync] only calls it on a path that the
    walk of [start] produced or that was joined onto [start], so the result
    never has to climb with [..]; outside that case the path is returned as
    it is. *)
Definition relpath (p start : list string) : list string :=
  default p (strip_prefix start p).

(** [os.path.join(a, rel)] on segment lists. *)
Definition join (a rel : list string) : list string := a ++ rel.

(** [os.path.split]: the parent and the last segment. *)
Definition parent (p : list string) : list string := removelast p.
Definition basename (p : list string) : list string :=
  match last p with Some n => [n] | None => [] end.

(** Neither root lies inside (or equals) the other. *)
Definition disjoint_roots (a b : list string) : Prop :=
  ¬ a `prefix_of` b ∧ ¬ b `prefix_of` a.

(** ** The result of running a piece of the program *)

Inductive outcome (A : Type) : Type :=
  | Done (a : A) (w : world)
  | Raised (e : exn) (w : world)
  | Cutoff (w : world).
Arguments Done {A} a w.
Arguments Raised {A} e w.
Arguments Cutoff {A} w.

(** State and exception monad.  [Raised] is an exception travelling up the
    call stack of the Python program; [Cutoff] only says that the recursion
    bound of the model was too small for the walk. *)
Definition M (A : Type) : Type := world → outcome A.

Definition ret {A} (a : A) : M A := λ w, Done a w.

Definition bind {A B} (c : M A) (k : A → M B) : M B :=
  λ w, match c w with
       | Done a w' => k a w'
       | Raised e w' => Raised e w'
       | Cutoff w' => Cutoff w'
       end.

Declare Scope prog_scope.
Delimit Scope prog_scope with prog.
Notation "x ← c1 ; c2" := (bind c1 (λ x, c2))
  (at level 20, c1 at level 100, c2 at level 200) : prog_scope.
Notation "c1 ;; c2" := (bind c1 (λ _, c2))
  (at level 100, c2 at level 200, right associativity) : prog_scope.
Local Open Scope prog_scope.

Definition raise {A} (e : exn) : M A := λ w, Raised e w.

(** The world a run leaves behind, however it ended. *)
Definition world_of {A} (o : outcome A) : world :=
  match o with
  | Done _ w => w
  | Raised _ w => w
  | Cutoff w => w
  end.

(** A Python [for x in l: body] over a list fixed before the loop starts. *)
Fixpoint for_each {A} (l : list A) (body : A → M unit) : M unit :=
  match l with
  | [] => ret tt
  | x :: l' => body x ;; for_each l' body
  end.

Definition when (b : bool) (c : M unit) : M unit := if b then c else ret tt.

(** ** The operating system *)

Definition logger (r : record) : M unit :=
  λ w, Done tt (World (fs w) (log w ++ [r])).

(** [os.path.exists]: true for files and directories alike. *)
Definition path_exists (p : list string) : M bool :=
  λ w, Done (bool_decide (is_Some (fs w !! p))) w.

(** What stands in the way of a system call that has to walk down from
    [above] through the segments [rest] to reach the last of them: the first
    directory on the way that is not one.  A regular file there is the
    error ENOTDIR ([NotADirectoryError]), nothing there is ENOENT
    ([FileNotFoundError]); [None] when every directory on the way exists. *)
Fixpoint obstacle (m : gmap (list string) entry) (above rest : list string)
  : option (list string → exn) :=
  match rest with
  | [] => None
  | n :: rest' =>
    match m !! above with
    | Some EDir => obstacle m (above ++ [n]) rest'
    | Some (EFile _ _) => Some NotADirectoryError
    | None => Some FileNotFoundError
    end
  end.

(** The exception of a system call that is to create [p] ([os.mkdir(p)],
    [open(p, 'wb')]) when the directory of [p] is missing. *)
Definition open_error (m : gmap (list string) entry) (p : list string)
  : exn :=
  match obstacle m [] p with
  | Some e => e p
  | None => FileNotFoundError p
  end.

(** [os.mkdir]. *)
Definition mkdir (p : list string) : M unit :=
  λ w, match fs w !! p with
       | Some _ => Raised (FileExistsError p) w
       | None =>
         match fs w !! parent p with
         | Some EDir => Done tt (World (<[p := EDir]> (fs w)) (log w))
         | Some (EFile _ _) => Raised (NotADirectoryError p) w
         | None => Raised (open_error (fs w) p) w
         end
       end.

(** [os.makedirs(name, exist_ok=True)], on the reversed path so that the
    recursion on the head of [os.path.split] is structural.  A missing head
    is created first (a [FileExistsError] from that recursive call is
    swallowed, any other exception travels on); then [mkdir name], whose
    failure is forgiven only when [name] is a directory by now. *)
Fixpoint makedirs_rev (rname : list string) : M unit :=
  match rname with
  | [] => ret tt
  | tail :: rhead =>
    let name := rev rname in
    let head := rev rhead in
    (λ w,
      let made_head : outcome unit :=
        match rhead with
        | [] => Done tt w
        | _ :: _ =>
          if bool_decide (is_Some (fs w !! head)) then Done tt w
          else match makedirs_rev rhead w with
               | Raised (FileExistsError _) w' => Done tt w'
               | o => o
               end
        end in
      match made_head with
      | Done _ w1 =>
        match mkdir name w1 with
        | Raised e w2 =>
          if bool_decide (fs w2 !! name = Some EDir) then Done tt w2
          else Raised e w2
        | o => o
        end
      | o => o
      end)
  end.

Definition makedirs (name : list string) : M unit := makedirs_rev (rev name).

(** [shutil.copy2(src, dst)]: a directory as [dst] means "into it, under the
    same base name"; the bytes and the modification time of the source file
    end up at the target.  When the directory of the target is missing, the
    error is the one of the first segment that stops the walk down to it:
    [NotADirectoryError] below a regular file, [FileNotFoundError]
    otherwise. *)
Definition copy2 (src_path dst : list string) : M unit :=
  λ w,
    let dst := if bool_decide (fs w !! dst = Some EDir)
               then join dst (basename src_path) else dst in
    if bool_decide (src_path = dst ∧ is_Some (fs w !! src_path))
    then Raised (SameFileError src_path) w
    else match fs w !! src_path with
         | None => Raised (FileNotFoundError src_path) w
         | Some EDir => Raised (IsADirectoryError src_path) w
         | Some (EFile m d) =>
           match fs w !! dst with
           | Some EDir => Raised (IsADirectoryError dst) w
           | Some (EFile _ _) =>
             Done tt (World (<[dst := EFile m d]> (fs w)) (log w))
           | None =>
             match fs w !! parent dst with
             | Some EDir => Done tt (World (<[dst := EFile m d]> (fs w)) (log w))
             | Some (EFile _ _) => Raised (NotADirectoryError dst) w
             | None => Raised (open_error (fs w) dst) w
             end
           end
         end.

(** [os.remove]. *)
Definition remove (p : list string) : M unit :=
  λ w, match fs w !! p with
       | Some (EFile _ _) => Done tt (World (delete p (fs w)) (log w))
       | Some EDir => Raised (IsADirectoryError p) w
       | None => Raised (FileNotFoundError p) w
       end.

(** [shutil.rmtree]: the directory and everything below it. *)
Definition rmtree (p : list string) : M unit :=
  λ w, match fs w !! p with
       | Some EDir =>
         match p with
         | [] => Raised (PermissionError p) w
         | _ :: _ =>
           Done tt (World (base.filter (λ kv, ¬ p `prefix_of` kv.1) (fs w)) (log w))
         end
       | Some (EFile _ _) => Raised (NotADirectoryError p) w
       | None => Raised (FileNotFoundError p) w
       end.

(** ** The command line ([parse_args], lines 24-81) *)

(** The five values [parse_args] returns. *)
Record settings : Type := Settings {
  source_path : string;
  destination_path : string;
  sync_interval : Z;
  log_file_path : string;
  debug : bool
}.

(** How [parse_args] ends: it returns its five values, or it prints some
    lines and calls [sys.exit]. *)
Inductive parse_result : Type :=
  | Parsed (s : settings)
  | Sys_exit (printed : list string) (status : Z).

(** Lines 26-37. *)
Definition usage : list string :=
  [ "Usage: py sync.py <source_path> <destination_path> [-i <sync_interval>] [-l <log_file_path>] [-d]";
    "One way synchronization between files from source to destination.";
    EmptyString;
    "Required arguments:";
    "  source_path        Source path directory";
    "  destination_path   Destination path directory";
    EmptyString;
    "Optional arguments:";
    "  -i                 Sync interval in seconds (default: 10)";
    "  -l                 Path to the log file (default: current_directory/sync_log.log)";
    "  -d                 Enables debug logging level" ].

Section CommandLine.

(** What [parse_args] takes from the platform.  [py_int] is Python's [int]
    on a string, [None] standing for the [ValueError] that the bare
    [except] of line 57 catches; [getcwd] is the value of [os.getcwd()];
    [path_join] is [os.path.join]. *)
Variable py_int : string → option Z.
Variable getcwd : string.
Variable path_join : string → string → string.

(** The loop of lines 50-79 on the arguments that are left, [sys.argv[i:]];
    [s] carries the values of [sync_interval], [log_file_path] and [debug]
    so far. *)
Fixpoint parse_options (args : list string) (s : settings) : parse_result :=
  match args with
  | [] => Parsed s
  | a :: rest =>
    if decide (a = "-i") then
      match rest with
      | v :: rest' =>
        match py_int v with
        | Some n =>
          parse_options rest'
            (Settings (source_path s) (destination_path s) n
                      (log_file_path s) (debug s))
        | None =>
          Sys_exit ["Error: Value for -i argument must be a number"] 1
        end
      | [] => Sys_exit ["Error: Missing value for -i argument"] 1
      end
    else if decide (a = "-l") then
      match rest with
      | v :: rest' =>
        parse_options rest'
          (Settings (source_path s) (destination_path s) (sync_interval s)
                    v (debug s))
      | [] => Sys_exit ["Error: Missing value for -l argument"] 1
      end
    else if decide (a = "-d") then
      parse_options rest
        (Settings (source_path s) (destination_path s) (sync_interval s)
                  (log_file_path s) true)
    else Sys_exit ["Error: Unknown argument " +:+ a] 1
  end.

(** [parse_args()], on [sys.argv]: the script name, then the arguments. *)
Definition parse_args (argv : list string) : parse_result :=
  match argv with
  | _ :: source :: destination :: options =>
    parse_options options
      (Settings source destination 10 (path_join getcwd "sync_log.log") false)
  | _ => Sys_exit usage 1
  end.

End CommandLine.

(** The options [parse_args] accepts after the two paths. *)
Inductive well_formed (py_int : string → option Z) : list string → Prop :=
  | wf_done : well_formed py_int []
  | wf_interval v rest :
      is_Some (py_int v) → well_formed py_int rest →
      well_formed py_int ("-i" :: v :: rest)
  | wf_log_file v rest :
      well_formed py_int rest → well_formed py_int ("-l" :: v :: rest)
  | wf_debug rest :
      well_formed py_int rest → well_formed py_int ("-d" :: rest).

(** ** The logger ([setup_logger], lines 84-99) *)

(** The two levels the program uses, with the numbers of the [logging]
    module. *)
Inductive level : Type := DEBUG | INFO.

Definition level_number (l : level) : Z :=
  match l with DEBUG => 10 | INFO => 20 end.

(** Where a handler writes: a file opened with a mode, or standard error. *)
Inductive stream : Type :=
  | File_stream (path : string) (mode : string)
  | Stderr.

(** The line a handler writes for a record: with the format string of line
    90 (time, level name, message), or the message alone, which is what a
    handler without formatter writes. *)
Inductive layout : Type := Stamped | Message_only.

Record handler : Type := Handler { target : stream; line_layout : layout }.

#[global] Instance stream_eq_dec : EqDecision stream.
Proof. solve_decision. Defined.
#[global] Instance layout_eq_dec : EqDecision layout.
Proof. solve_decision. Defined.
#[global] Instance handler_eq_dec : EqDecision handler.
Proof. solve_decision. Defined.

(** The root logger: its level and its handlers, in the order they were
    added. *)
Record root_logger : Type := Root_logger {
  threshold : level;
  handlers : list handler
}.

(** [logging.basicConfig] (the root logger has no handler yet) sets the
    level and adds a handler on the log file, opened with mode w, with the
    format string; lines 92-97 add a second handler on the same file,
    opened with the default mode a, and one on standard error, both
    without formatter. *)
Definition setup_logger (log_file_path : string) (debug : bool)
  : root_logger :=
  Root_logger (if debug then DEBUG else INFO)
    [ Handler (File_stream log_file_path "w") Stamped;
      Handler (File_stream log_file_path "a") Message_only;
      Handler Stderr Message_only ].

(** [logger.debug] for the two DEBUG records of [sync], [logger.info] for
    its change events. *)
Definition level_of (r : record) : level :=
  if is_event r then INFO else DEBUG.

(** One call of the logger: a record below the level of the root logger is
    dropped; any other is handed to every handler (the handlers have no
    level of their own). *)
Definition handle (lg : root_logger) (r : record) : list (handler * record) :=
  if bool_decide (level_number (threshold lg) ≤ level_number (level_of r))
  then (λ h, (h, r)) <$> handlers lg
  else [].

(** What the handler [h] writes for the calls [l], in order. *)
Definition written_by (lg : root_logger) (h : handler) (l : list record)
  : list record :=
  (base.filter (λ hr, hr.1 = h) (l ≫= handle lg)).*2.

Section Sync.

(** What the model leaves to the platform.  [readdir_order] is the order in
    which [os.scandir] hands out the entries of a directory: any
    rearrangement of them.  [dir_mtime] is the modification time of a
    directory, which depends on the wall clock at its last change; [sync]
    reads it only when a source file meets a destination directory of the
    same name. *)
Variable readdir_order :
  list string → list (string * entry) → list (string * entry).
Variable dir_mtime : list string → Z.

(** [os.path.getmtime]. *)
Definition getmtime (p : list string) : M Z :=
  λ w, match fs w !! p with
       | Some (EFile m _) => Done m w
       | Some EDir => Done (dir_mtime p) w
       | None => Raised (FileNotFoundError p) w
       end.

(** The entries directly inside [p]: name and entry. *)
Definition child_of (p : list string) (kv : list string * entry)
  : option (string * entry) :=
  match strip_prefix p kv.1 with
  | Some [n] => Some (n, kv.2)
  | _ => None
  end.

Definition listdir (m : gmap (list string) entry) (p : list string)
  : list (string * entry) :=
  readdir_order p (omap (child_of p) (map_to_list m)).

(** [os.scandir(top)]: fails unless [top] is a directory. *)
Definition scandir (m : gmap (list string) entry) (p : list string)
  : option (list (string * entry)) :=
  match m !! p with
  | Some EDir => Some (listdir m p)
  | _ => None
  end.

Definition dirs_of (l : list (string * entry)) : list string :=
  (base.filter (λ ne, is_dir ne.2 = true) l).*1.
Definition nondirs_of (l : list (string * entry)) : list string :=
  (base.filter (λ ne, is_dir ne.2 = false) l).*1.

(** [for root, dirs, files in os.walk(top): body], top-down, [onerror=None].
    The generator is lazy: a directory is listed when the walk reaches it,
    after the loop body has run for everything before it.  A directory that
    cannot be listed by then (it was removed, or [top] never was one) is
    skipped without a word.  [fuel] bounds the depth of the directories that
    are listed. *)
Fixpoint walk (fuel : nat)
    (body : list string → list string → list string → M unit)
    (top : list string) : M unit :=
  λ w, match scandir (fs w) top with
       | None => Done tt w
       | Some ents =>
         match fuel with
         | O => Cutoff w
         | S n =>
           (body top (dirs_of ents) (nondirs_of ents) ;;
            for_each (dirs_of ents) (λ d, walk n body (join top [d]))) w
         end
       end.

(** ** [sync] *)

(** Lines 113-120: a subdirectory [dir] of the walked source directory
    [root]. *)
Definition create_dir (src dest root : list string) (dir : string) : M unit :=
  let src_path := join root [dir] in
  let dest_path := join dest (relpath src_path src) in
  ex ← path_exists dest_path;
  when (negb ex)
    (makedirs dest_path ;;
     logger (Created_directory (relpath dest_path dest))).

(** Lines 123-133: a file [file] of the walked source directory [root]. *)
Definition copy_file (src dest root : list string) (file : string) : M unit :=
  let src_path := join root [file] in
  let dest_path := join dest (relpath src_path src) in
  ex ← path_exists dest_path;
  if negb ex then
    copy2 src_path dest_path ;;
    logger (Created_file (relpath src_path src))
  else
    ms ← getmtime src_path;
    md ← getmtime dest_path;
    when (bool_decide (md < ms))
      (copy2 src_path dest_path ;;
       logger (Modified_file (relpath src_path src))).

(** Lines 138-144: a file [file] of the walked destination directory. *)
Definition prune_file (src dest root : list string) (file : string) : M unit :=
  let dest_path := join root [file] in
  let src_path := join src (relpath dest_path dest) in
  ex ← path_exists src_path;
  when (negb ex)
    (remove dest_path ;;
     logger (Removed_file (relpath dest_path dest))).

(** Lines 147-154: a subdirectory [dir] of the walked destination
    directory. *)
Definition prune_dir (src dest root : list string) (dir : string) : M unit :=
  let dest_path := join root [dir] in
  let src_path := join src (relpath dest_path dest) in
  ex ← path_exists src_path;
  when (negb ex)
    (rmtree dest_path ;;
     logger (Removed_directory (relpath dest_path dest))).

(** Body of the first loop (lines 110-133): directories, then files. *)
Definition create_update (src dest root : list string)
    (dirs files : list string) : M unit :=
  for_each dirs (create_dir src dest root) ;;
  for_each files (copy_file src dest root).

(** Body of the second loop (lines 135-154): files, then directories. *)
Definition prune (src dest root : list string)
    (dirs files : list string) : M unit :=
  for_each files (prune_file src dest root) ;;
  for_each dirs (prune_dir src dest root).

Definition phase_a (fuel : nat) (src dest : list string) : M unit :=
  walk fuel (create_update src dest) src.

Definition phase_b (fuel : nat) (src dest : list string) : M unit :=
  walk fuel (prune src dest) dest.

(** [sync(src, dest)], lines 102-158. *)
Definition sync (fuel : nat) (src dest : list string) : M unit :=
  logger Debug_syncing ;;
  phase_a fuel src dest ;;
  phase_b fuel src dest ;;
  logger Debug_completed.

(** [passes] passes one after the other, with nothing in between: what the
    loop of lines 170-173 comes to when every [time.sleep] returns.  The
    loop itself, with its sleep and the exception that [time.sleep] can
    raise, is [run_loop] below. *)
Fixpoint main_loop (passes fuel : nat) (src dest : list string) : M unit :=
  match passes with
  | O => ret tt
  | S k => sync fuel src dest ;; main_loop k fuel src dest
  end.


(** ** The scheduler loop with its sleep (lines 170-173) *)

(** [time.sleep(secs)] on an integer returns, leaving the world as it is,
    when [secs] is not negative and not beyond [sleep_max], the longest
    sleep the clock of the platform can hold; otherwise it raises
    ([ValueError] for a negative length, [OverflowError] out of range).
    The result says whether it returns. *)
Definition time_sleep (sleep_max secs : Z) : bool :=
  bool_decide (0 ≤ secs ≤ sleep_max).

(** Why the program stopped: an exception out of [sync], or out of
    [time.sleep]. *)
Inductive halt : Type :=
  | Sync_raised (e : exn)
  | Sleep_raised.

(** The state of the program after some rounds of the loop: still running
    (the loop itself never ends), stopped by an exception, or beyond the
    recursion bound of the model. *)
Inductive run : Type :=
  | Still_running (w : world)
  | Halted (h : halt) (w : world)
  | Fuel_out (w : world).

(** [while True: sync(src, dest); time.sleep(interval)], observed after at
    most [passes] rounds. *)
Fixpoint run_loop (sleep_max : Z) (passes fuel : nat)
    (src dest : list string) (interval : Z) (w : world) : run :=
  match passes with
  | O => Still_running w
  | S k =>
    match sync fuel src dest w with
    | Done _ w1 =>
      if time_sleep sleep_max interval
      then run_loop sleep_max k fuel src dest interval w1
      else Halted Sleep_raised w1
    | Raised e w1 => Halted (Sync_raised e) w1
    | Cutoff w1 => Fuel_out w1
    end
  end.
(** ** What a pass is expected to do at one relative path *)

(** The entry at the destination after the first loop, from what the source
    ([s]) and the destination ([d]) hold at that relative path before it: a
    missing counterpart is created, a strictly older file is overwritten,
    everything else stays. *)
Definition merged (s d : option entry) : option entry :=
  match s, d with
  | Some (EFile ts _), Some (EFile td _) =>
    if bool_decide (td < ts) then s else d
  | Some e, None => Some e
  | _, _ => d
  end.

(** The record the first loop logs for the relative path [x]. *)
Definition created (x : list string) (s d : option entry) : list record :=
  match s, d with
  | Some (EFile ts _), Some (EFile td _) =>
    if bool_decide (td < ts) then [Modified_file x] else []
  | Some (EFile _ _), None => [Created_file x]
  | Some EDir, None => [Created_directory x]
  | _, _ => []
  end.

(** The record the second loop logs for the relative path [x] when it is
    the one removing that entry. *)
Definition removed (x : list string) (s d : option entry) : list record :=
  match d, s with
  | Some (EFile _ _), None => [Removed_file x]
  | Some EDir, None => [Removed_directory x]
  | _, _ => []
  end.

(** Source and destination agree on the kind of every entry they both
    have. *)
Definition consistent (m : gmap (list string) entry)
    (src dest : list string) : Prop :=
  ∀ x e e', m !! (src ++ x) = Some e → m !! (dest ++ x) = Some e' →
            is_dir e = is_dir e'.

(** The tree below [top] is shallow enough for a walk with [fuel]. *)
Definition fits (fuel : nat) (m : gmap (list string) entry)
    (top : list string) : Prop :=
  ∀ x, is_Some (m !! (top ++ x)) → (length x < fuel)%nat.

(** The relative path a record is about. *)
Definition record_path (r : record) : list string :=
  match r with
  | Debug_syncing | Debug_completed => []
  | Created_directory x | Created_file x | Modified_file x
  | Removed_file x | Removed_directory x => x
  end.

(** What the first walk does below the source directory [src ++ r], started
    with [fuel] in a world where that directory and its counterpart exist:
    it ends normally, every entry below the counterpart is the [merged] one,
    nothing else changes, and the records logged are the [created] ones. *)
Definition walk_a_spec (src dest : list string) (fuel : nat) : Prop :=
  ∀ r w,
    wf (fs w) →
    fs w !! (src ++ r) = Some EDir → fs w !! (dest ++ r) = Some EDir →
    (∀ y e e', fs w !! (src ++ r ++ y) = Some e →
               fs w !! (dest ++ r ++ y) = Some e' → is_dir e = is_dir e') →
    (∀ y, is_Some (fs w !! (src ++ r ++ y)) → (length y < fuel)%nat) →
    ∃ w', walk fuel (create_update src dest) (src ++ r) w = Done tt w' ∧
      wf (fs w') ∧
      (∀ y, y ≠ [] →
         fs w' !! (dest ++ r ++ y)
         = merged (fs w !! (src ++ r ++ y)) (fs w !! (dest ++ r ++ y))) ∧
      (∀ p, (∀ y, y ≠ [] → p ≠ dest ++ r ++ y) → fs w' !! p = fs w !! p) ∧
      ∃ evs, log w' = log w ++ evs ∧ NoDup evs ∧
        ∀ e, e ∈ evs ↔
             ∃ y, y ≠ [] ∧
                  e ∈ created (r ++ y) (fs w !! (src ++ r ++ y))
                              (fs w !! (dest ++ r ++ y)).

(** No entry of the source lies inside the destination.  It holds when the
    roots are disjoint, and also when there is no source at all. *)
Definition source_outside (m : gmap (list string) entry)
    (src dest : list string) : Prop :=
  ∀ x, is_Some (m !! (src ++ x)) → ¬ dest `prefix_of` src ++ x.

(** What the second walk does below the destination directory [dest ++ r]:
    it ends normally, an entry below it survives exactly when it has a
    counterpart in the source, nothing else changes, and one record is
    logged for every entry without counterpart found in a directory that is
    visited. *)
Definition walk_b_spec (src dest : list string) (fuel : nat) : Prop :=
  ∀ r w,
    wf (fs w) → source_outside (fs w) src dest →
    (1 ≤ fuel)%nat →
    (∀ y, is_Some (fs w !! (src ++ r ++ y)) → (length y < fuel)%nat) →
    ∃ w', walk fuel (prune src dest) (dest ++ r) w = Done tt w' ∧
      wf (fs w') ∧
      (∀ y, y ≠ [] →
         fs w' !! (dest ++ r ++ y)
         = if bool_decide (is_Some (fs w !! (src ++ r ++ y)))
           then fs w !! (dest ++ r ++ y) else None) ∧
      (∀ p, (∀ y, y ≠ [] → p ≠ dest ++ r ++ y) → fs w' !! p = fs w !! p) ∧
      ∃ evs, log w' = log w ++ evs ∧ NoDup evs ∧
        ∀ e, e ∈ evs ↔
             ∃ y n, (y = [] ∨ is_Some (fs w !! (src ++ r ++ y))) ∧
                    e ∈ removed (r ++ y ++ [n])
                                (fs w !! (src ++ r ++ y ++ [n]))
                                (fs w !! (dest ++ r ++ y ++ [n])).

(** The entry at the destination after a whole pass. *)
Definition synced (s d : option entry) : option entry :=
  match s with
  | Some _ => merged s d
  | None => None
  end.

(** [w'] differs from [w] only at paths satisfying [Q]. *)
Definition only_writes (Q : list string → Prop) (w w' : world) : Prop :=
  ∀ p, fs w' !! p ≠ fs w !! p → Q p.

(** A path is near the destination root when it is one of its ancestors
    (which [os.makedirs] may have to create) or lies inside it. *)
Definition near (dest p : list string) : Prop :=
  (∃ z, p `prefix_of` dest ++ z) ∨ dest `prefix_of` p.

(** [w'] has the log of [w] followed by change events only. *)
Definition only_logs_events (w w' : world) : Prop :=
  ∃ evs, log w' = log w ++ evs ∧ Forall (λ r, is_event r = true) evs.

(** Both at once: what a loop body of [sync] may do to the world. *)
Definition quiet (dest : list string) (w w' : world) : Prop :=
  only_writes (near dest) w w' ∧ only_logs_events w w'.

(** [a] lies strictly inside [b]. *)
Definition inside (a b : list string) : Prop := ∃ d, d ≠ [] ∧ a = b ++ d.

(** ** Executable checks of the side conditions *)

Definition wfb (m : gmap (list string) entry) : bool :=
  bool_decide (m !! [] = Some EDir) &&
  forallb (λ kv : list string * entry,
             match kv.1 with
             | [] => true
             | _ :: _ => bool_decide (m !! parent kv.1 = Some EDir)
             end) (map_to_list m).

Definition fitsb (fuel : nat) (m : gmap (list string) entry)
    (top : list string) : bool :=
  forallb (λ kv : list string * entry,
             match strip_prefix top kv.1 with
             | Some x => bool_decide (length x < fuel)%nat
             | None => true
             end) (map_to_list m).

Definition consistentb (m : gmap (list string) entry)
    (src dest : list string) : bool :=
  forallb (λ kv : list string * entry,
             match strip_prefix src kv.1 with
             | Some x =>
               match m !! (dest ++ x) with
               | Some e' => bool_decide (is_dir kv.2 = is_dir e')
               | None => true
               end
             | None => true
             end) (map_to_list m).

Definition emptyb (m : gmap (list string) entry) (top : list string) : bool :=
  forallb (λ kv : list string * entry,
             match strip_prefix top kv.1 with
             | Some [_] => false
             | _ => true
             end) (map_to_list m).

(** No ancestor of the path [p] (nor [p] itself) is a regular file. *)
Fixpoint prefixes (p : list string) : list (list string) :=
  [] :: match p with
        | [] => []
        | a :: p' => (cons a) <$> prefixes p'
        end.

Definition no_file_aboveb (m : gmap (list string) entry)
    (p : list string) : bool :=
  forallb (λ q, match m !! q with Some (EFile _ _) => false | _ => true end)
          (prefixes p).

(** A fuel that is enough for every walk in the file system [m]. *)
Definition deep_enough (m : gmap (list string) entry) : nat :=
  S (foldr Nat.max 0%nat (length <$> (map_to_list m).*1)).

(** Every entry of [m] is still there in [m'], with the same kind. *)
Definition kinds_kept (m m' : gmap (list string) entry) : Prop :=
  ∀ p e, m !! p = Some e → ∃ e', m' !! p = Some e' ∧ is_dir e' = is_dir e.

(** Every regular file below the destination root is the copy of a regular
    file of the source: at the same relative path, or, when the counterpart
    was a directory, inside it under the same name. *)
Definition copies_only (src dest : list string)
    (m : gmap (list string) entry) : Prop :=
  ∀ x t c, x ≠ [] → m !! (dest ++ x) = Some (EFile t c) →
    (∃ t' c', m !! (src ++ x) = Some (EFile t' c')) ∨
    (∃ q n t' c', x = q ++ [n; n] ∧
                  m !! (src ++ q ++ [n]) = Some (EFile t' c')).

(** [m'] is [m] with some missing paths turned into directories. *)
Definition dirs_added (m m' : gmap (list string) entry) : Prop :=
  ∀ p, m' !! p = m !! p ∨ (m !! p = None ∧ m' !! p = Some EDir).

(** With the destination root at [src ++ d], the relative paths [q] that
    spell [d] over and over: the walk of the source reaches them one after
    the other. *)
Definition on_chain (d q : list string) : Prop := q `prefix_of` d ++ q.

(** All of them from [q] to [d ++ q] are directories of the source. *)
Definition chain_ready (src d : list string)
    (m : gmap (list string) entry) (q : list string) : Prop :=
  ∀ q', q `prefix_of` q' → q' `prefix_of` d ++ q →
        m !! (src ++ q') = Some EDir.


(** What may happen to a path that is not strictly inside [dest]: its entry
    stays, or a missing ancestor of [dest] (or [dest] itself) becomes a
    directory. *)
Definition kept_outside (dest : list string)
    (m m' : gmap (list string) entry) : Prop :=
  ∀ p, ¬ inside p dest →
       m' !! p = m !! p ∨
       (m !! p = None ∧ m' !! p = Some EDir ∧ p `prefix_of` dest).

(** Nothing is left for a pass to do: every entry below the destination is
    already what a pass would make it. *)
Definition settled (src dest : list string)
    (m : gmap (list string) entry) : Prop :=
  ∀ y, y ≠ [] →
       m !! (dest ++ y) = synced (m !! (src ++ y)) (m !! (dest ++ y)).

(** Every path holds in [m'] what it held in [m], or nothing. *)
Definition only_removes (m m' : gmap (list string) entry) : Prop :=
  ∀ p, m' !! p = m !! p ∨ m' !! p = None.

(** ** The place of a failing operation in a pass *)




(** ** Example file systems *)

(** A platform that lists directories in the order of the map and reports
    time zero for every directory. *)
Definition readdir_id
  : list string → list (string * entry) → list (string * entry) := λ _ l, l.
Definition epoch : list string → Z := λ _, 0.

(** A world from a list of entries below the root, with an empty log. *)
Definition tree (l : list (list string * entry)) : world :=
  World (list_to_map (([], EDir) :: l)) [].

(** The scenario of the specification: [a/b.txt] and [a/c/] in the source,
    an empty destination. *)
Definition w_scenario : world :=
  tree [ (["s"], EDir); (["d"], EDir);
         (["s"; "a"], EDir); (["s"; "a"; "b.txt"], EFile 1 "hello");
         (["s"; "a"; "c"], EDir) ].

(** A destination that is partly out of date. *)
Definition w_stale : world :=
  tree [ (["s"], EDir); (["s"; "keep.txt"], EFile 5 "new");
         (["s"; "sub"], EDir); (["s"; "sub"; "f"], EFile 2 "f");
         (["d"], EDir); (["d"; "keep.txt"], EFile 3 "old");
         (["d"; "old.txt"], EFile 1 "x");
         (["d"; "gone"], EDir); (["d"; "gone"; "y"], EFile 1 "y");
         (["d"; "sub"], EDir) ].

(** No source root [s] at all. *)
Definition w_nosrc : world :=
  tree [ (["d"], EDir); (["d"; "x"], EFile 1 "x");
         (["d"; "sub"], EDir); (["d"; "sub"; "y"], EFile 1 "y") ].


(** An empty source, and no destination root [d]. *)
Definition w_noroot : world := tree [ (["s"], EDir) ].

(** A source with one subdirectory; neither [m] nor [m/d] exists. *)
Definition w_deep : world := tree [ (["s"], EDir); (["s"; "sub"], EDir) ].

(** The source root [d/s] lies inside the destination root [d]. *)
Definition w_nested : world :=
  tree [ (["d"], EDir); (["d"; "s"], EDir); (["d"; "s"; "x"], EFile 1 "x");
         (["d"; "s"; "t"], EDir); (["d"; "s"; "t"; "y"], EFile 1 "y") ].

(** A directory [d/x] where the source has the regular file [x]. *)
Definition w_kind : world :=
  tree [ (["s"], EDir); (["s"; "x"], EFile 0 "x");
         (["d"], EDir); (["d"; "x"], EDir); (["d"; "x"; "y"], EFile 1 "y") ].


(** The source path [s] is a regular file. *)
Definition w_srcfile : world :=
  tree [ (["s"], EFile 1 "x"); (["d"], EDir); (["d"; "old"], EFile 0 "o");
         (["d"; "sub"], EDir); (["d"; "sub"; "y"], EFile 0 "y") ].

(** The destination path [d] is a regular file. *)
Definition w_destfile : world :=
  tree [ (["s"], EDir); (["s"; "a"], EFile 1 "a"); (["d"], EFile 0 "f") ].

(** A source with one file and no subdirectory, and no destination root
    [d]. *)
Definition w_flat : world :=
  tree [ (["s"], EDir); (["s"; "f"], EFile 1 "x") ].

(** A platform on which every directory was last changed before time
    zero. *)
Definition long_ago : list string → Z := λ _, -1.

(** A reader of plain decimal numerals with an optional minus sign, standing
    in the examples for Python's [int], which reads these the same way. *)
Fixpoint digits (acc : Z) (s : string) : option Z :=
  match s with
  | EmptyString => Some acc
  | String c s' =>
    let n := Z.of_nat (Ascii.nat_of_ascii c) - 48 in
    if bool_decide (0 ≤ n ≤ 9) then digits (10 * acc + n) s' else None
  end.

Definition decimal (s : string) : option Z :=
  match s with
  | EmptyString => None
  | String c s' =>
    if bool_decide (Ascii.nat_of_ascii c = 45%nat) then
      match s' with
      | EmptyString => None
      | _ => Z.opp <$> digits 0 s'
      end
    else digits 0 s
  end.

(** [os.path.join] of two relative segments on a platform whose separator
    is the slash. *)
Definition slash_join (a b : string) : string := a +:+ "/" +:+ b.

(** Command lines: the script name, the two paths, then options. *)
Definition argv_plain : list string := ["sync.py"; "s"; "d"].
Definition argv_full : list string :=
  ["sync.py"; "s"; "d"; "-i"; "30"; "-l"; "my.log"; "-d"].

(** A platform that lists directories the other way round. *)
Definition readdir_rev
  : list string → list (string * entry) → list (string * entry) :=
  λ _ l, rev l.

(** A source with one file; the destination root [f/d] is missing and lies
    below the regular file [f]. *)
Definition w_under_file : world :=
  tree [ (["s"], EDir); (["s"; "a"], EFile 1 "a"); (["f"], EFile 0 "f") ].
(** ** Properties *)

Hypothesis readdir_perm : ∀ p l, readdir_order p l ≡ₚ l.

(** *** Paths *)

Lemma strip_prefix_app p q : strip_prefix p (p ++ q) = Some q.
Proof. induction p as [|a p IH]; simpl; [done|]. by rewrite decide_True. Qed.

Lemma strip_prefix_Some p k q : strip_prefix p k = Some q ↔ k = p ++ q.
Proof.
  split; [|intros ->; apply strip_prefix_app].
  revert k. induction p as [|a p IH]; intros k; simpl.
  - by intros [= ->].
  - destruct k as [|b k]; [done|]. case_decide; [|done].
    subst. intros H. by rewrite (IH _ H).
Qed.

Lemma strip_prefix_None p k : strip_prefix p k = None ↔ ¬ p `prefix_of` k.
Proof.
  split.
  - intros H [q ->]. by rewrite strip_prefix_app in H.
  - intros H. destruct (strip_prefix p k) as [q|] eqn:E; [|done].
    apply strip_prefix_Some in E. destruct H. by exists q.
Qed.

Lemma relpath_join p q : relpath (join p q) p = q.
Proof. unfold relpath, join. by rewrite strip_prefix_app. Qed.

Lemma disjoint_roots_sym a b : disjoint_roots a b → disjoint_roots b a.
Proof. by intros [??]. Qed.

Lemma disjoint_roots_not_below a b x y :
  disjoint_roots a b → ¬ (b ++ y) `prefix_of` (a ++ x).
Proof.
  intros [Hab Hba] H.
  assert (Hb : b `prefix_of` a ++ x)
    by (etrans; [apply prefix_app_r; reflexivity | exact H]).
  assert (Ha : a `prefix_of` a ++ x) by (apply prefix_app_r; reflexivity).
  destruct (prefix_weak_total _ _ _ Ha Hb); auto.
Qed.

Lemma disjoint_roots_neq a b x y : disjoint_roots a b → a ++ x ≠ b ++ y.
Proof.
  intros Hd E. apply (disjoint_roots_not_below a b x y Hd).
  rewrite E. reflexivity.
Qed.

(** *** Well-formed file systems *)

Lemma wf_ancestor m p q :
  wf m → is_Some (m !! (p ++ q)) → q ≠ [] → m !! p = Some EDir.
Proof.
  intros [_ Hwf]. induction q as [|n q IH] using rev_ind; [done|].
  intros Hs _. rewrite app_assoc in Hs. apply Hwf in Hs.
  destruct q as [|a q]; [by rewrite app_nil_r in Hs|].
  apply IH; [by rewrite Hs|done].
Qed.

Lemma wf_below_None m p q :
  wf m → m !! p ≠ Some EDir → q ≠ [] → m !! (p ++ q) = None.
Proof.
  intros Hwf Hp Hq. destruct (m !! (p ++ q)) eqn:E; [|done].
  destruct Hp. eapply wf_ancestor; eauto.
Qed.

Lemma wf_exists_prefix m p q : wf m → is_Some (m !! (p ++ q)) → is_Some (m !! p).
Proof.
  intros Hwf Hs. destruct q as [|n q]; [by rewrite app_nil_r in Hs|].
  erewrite wf_ancestor; eauto.
Qed.

(** *** Directory listings *)

Lemma child_of_Some p kv n e :
  child_of p kv = Some (n, e) ↔ kv = (p ++ [n], e).
Proof.
  unfold child_of. destruct kv as [k e']; simpl. split.
  - destruct (strip_prefix p k) as [[|n' [|??]]|] eqn:E; try done.
    intros [= -> ->]. apply strip_prefix_Some in E. by subst.
  - intros [= -> ->]. by rewrite strip_prefix_app.
Qed.

Lemma elem_of_listdir m p n e :
  (n, e) ∈ listdir m p ↔ m !! (p ++ [n]) = Some e.
Proof.
  unfold listdir. rewrite readdir_perm, list_elem_of_omap. split.
  - intros [kv [Hin Hc]]. apply child_of_Some in Hc. subst.
    by apply elem_of_map_to_list in Hin.
  - intros H. exists (p ++ [n], e). split.
    + by apply elem_of_map_to_list.
    + by apply child_of_Some.
Qed.

Lemma NoDup_listdir_names m p : NoDup (listdir m p).*1.
Proof.
  unfold listdir. rewrite readdir_perm.
  assert (H : ∀ l : list (list string * entry), NoDup l.*1 →
             NoDup (omap (child_of p) l).*1).
  { induction l as [|[k e] l IH]; simpl; [constructor|].
    intros Hnd%NoDup_cons. destruct Hnd as [Hk Hnd].
    destruct (child_of p (k, e)) as [[n e']|] eqn:E; [|by apply IH].
    simpl. apply NoDup_cons. split; [|by apply IH].
    apply child_of_Some in E. injection E as -> ->.
    intros Hin. apply list_elem_of_fmap in Hin as [[n' e''] [Hn Hin]].
    simpl in Hn. subst n'. apply list_elem_of_omap in Hin as [kv [Hin Hc]].
    apply child_of_Some in Hc. subst kv. apply Hk.
    apply list_elem_of_fmap. by exists (p ++ [n], e''). }
  apply H, NoDup_fst_map_to_list.
Qed.

Lemma elem_of_dirs_of m p n :
  n ∈ dirs_of (listdir m p) ↔ m !! (p ++ [n]) = Some EDir.
Proof.
  unfold dirs_of. rewrite list_elem_of_fmap. split.
  - intros [[n' e] [-> Hin]]. apply list_elem_of_filter in Hin as [Hd Hin].
    apply elem_of_listdir in Hin. simpl in *. by destruct e.
  - intros H. exists (n, EDir). split; [done|].
    apply list_elem_of_filter. split; [done|]. by apply elem_of_listdir.
Qed.

Lemma elem_of_nondirs_of m p n :
  n ∈ nondirs_of (listdir m p) ↔ ∃ t c, m !! (p ++ [n]) = Some (EFile t c).
Proof.
  unfold nondirs_of. rewrite list_elem_of_fmap. split.
  - intros [[n' e] [-> Hin]]. apply list_elem_of_filter in Hin as [Hd Hin].
    apply elem_of_listdir in Hin. simpl in *. destruct e; [eauto|done].
  - intros (t & c & H). exists (n, EFile t c). split; [done|].
    apply list_elem_of_filter. split; [done|]. by apply elem_of_listdir.
Qed.

Lemma NoDup_fst_filter {A B} (P : A * B → Prop) `{∀ x, Decision (P x)}
    (l : list (A * B)) :
  NoDup l.*1 → NoDup (base.filter P l).*1.
Proof.
  induction l as [|[a b] l IH]; simpl; [done|].
  intros [Ha Hnd]%NoDup_cons. rewrite filter_cons.
  destruct (decide (P (a, b))); [|by apply IH].
  simpl. apply NoDup_cons. split; [|by apply IH].
  intros Hin. apply Ha. apply list_elem_of_fmap in Hin as [[a' b'] [-> Hin]].
  apply list_elem_of_filter in Hin as [_ Hin].
  apply list_elem_of_fmap. by exists (a', b').
Qed.

Lemma NoDup_dirs_of m p : NoDup (dirs_of (listdir m p)).
Proof. apply NoDup_fst_filter, NoDup_listdir_names. Qed.

Lemma NoDup_nondirs_of m p : NoDup (nondirs_of (listdir m p)).
Proof. apply NoDup_fst_filter, NoDup_listdir_names. Qed.

(** *** The operating system calls on well-formed file systems *)

Lemma wf_insert m q n e :
  wf m → m !! q = Some EDir →
  (e = EDir ∨ m !! (q ++ [n]) ≠ Some EDir) →
  wf (<[q ++ [n] := e]> m).
Proof.
  intros Hwf Hq He. pose proof Hwf as [Hroot Hpar]. split.
  - rewrite lookup_insert_ne; [done|]. by destruct q.
  - intros p n' Hs. destruct (decide (q ++ [n] = p ++ [n'])) as [E|E].
    + apply app_inj_tail in E as [-> ->].
      rewrite lookup_insert_ne; [done|].
      intros E. apply (f_equal length) in E. rewrite length_app in E.
      simpl in E. lia.
    + rewrite lookup_insert_ne in Hs by done.
      destruct (decide (q ++ [n] = p)) as [<-|E'].
      * rewrite lookup_insert_eq. destruct He as [->|He]; [done|].
        destruct He. eapply (wf_ancestor m (q ++ [n]) [n']); eauto.
      * rewrite lookup_insert_ne by done. by apply (Hpar p n').
Qed.

Lemma wf_delete_file m p t c :
  wf m → m !! p = Some (EFile t c) → wf (delete p m).
Proof.
  intros Hwf Hp. pose proof Hwf as [Hroot Hpar]. split.
  - rewrite lookup_delete_ne; [done|]. intros ->. congruence.
  - intros q n Hs. destruct (decide (p = q ++ [n])) as [->|E].
    + rewrite lookup_delete_eq in Hs. by destruct Hs.
    + rewrite lookup_delete_ne in Hs by done.
      rewrite lookup_delete_ne; [by apply (Hpar q n)|].
      intros ->. apply Hpar in Hs. congruence.
Qed.

Lemma lookup_rmtree (m : gmap (list string) entry) p k :
  base.filter (λ kv : list string * entry, ¬ p `prefix_of` kv.1) m !! k
  = if decide (p `prefix_of` k) then None else m !! k.
Proof.
  rewrite map_lookup_filter. destruct (m !! k) as [e|] eqn:E; simpl.
  - case_decide.
    + rewrite option_guard_False; [done|]. simpl. by intros Hn.
    + by rewrite option_guard_True.
  - by case_decide.
Qed.

Lemma wf_rmtree m p :
  wf m → p ≠ [] →
  wf (base.filter (λ kv : list string * entry, ¬ p `prefix_of` kv.1) m).
Proof.
  intros [Hroot Hpar] Hp. split.
  - rewrite lookup_rmtree. rewrite decide_False; [done|].
    intros [k E]. by destruct p.
  - intros q n. rewrite !lookup_rmtree.
    destruct (decide (p `prefix_of` q ++ [n])) as [|Hn].
    { intros Hs. by destruct Hs. }
    intros Hs. rewrite decide_False; [by apply (Hpar q n)|].
    intros Hq. apply Hn. by apply prefix_app_r.
Qed.

Lemma parent_snoc q n : parent (q ++ [n]) = q.
Proof. apply removelast_last. Qed.

Lemma basename_snoc q n : basename (q ++ [n]) = [n].
Proof. unfold basename. by rewrite last_snoc. Qed.

Lemma makedirs_new q n w :
  fs w !! q = Some EDir → fs w !! (q ++ [n]) = None →
  makedirs (q ++ [n]) w
  = Done tt (World (<[q ++ [n] := EDir]> (fs w)) (log w)).
Proof.
  intros Hq Hn. unfold makedirs. rewrite rev_unit. simpl.
  rewrite rev_involutive.
  destruct (rev q) as [|a rq] eqn:Erev.
  - unfold mkdir. by rewrite Hn, parent_snoc, Hq.
  - rewrite bool_decide_true by (rewrite Hq; eauto).
    unfold mkdir. by rewrite Hn, parent_snoc, Hq.
Qed.

Lemma copy2_new s t n q c w :
  fs w !! s = Some (EFile t c) →
  fs w !! q = Some EDir → fs w !! (q ++ [n]) = None →
  copy2 s (q ++ [n]) w
  = Done tt (World (<[q ++ [n] := EFile t c]> (fs w)) (log w)).
Proof.
  intros Hs Hq Hn. unfold copy2. rewrite Hn.
  rewrite (bool_decide_false (None = Some EDir)) by done.
  rewrite bool_decide_false by (intros [-> _]; congruence).
  by rewrite Hs, Hn, parent_snoc, Hq.
Qed.

Lemma copy2_over s d t c t' c' w :
  fs w !! s = Some (EFile t c) → fs w !! d = Some (EFile t' c') → s ≠ d →
  copy2 s d w = Done tt (World (<[d := EFile t c]> (fs w)) (log w)).
Proof.
  intros Hs Hd Hne. unfold copy2. rewrite Hd.
  rewrite (bool_decide_false (Some _ = Some EDir)) by done.
  rewrite bool_decide_false by (by intros [? _]).
  by rewrite Hs, Hd.
Qed.

Lemma prefix_snoc_inv (p l : list string) x :
  p `prefix_of` l ++ [x] → p `prefix_of` l ∨ p = l ++ [x].
Proof.
  intros [k E]. destruct k as [|y k _] using rev_ind.
  - right. by rewrite app_nil_r in E.
  - left. rewrite app_assoc in E. apply app_inj_tail in E as [-> _].
    by exists k.
Qed.

(** *** Running programs *)

Lemma bind_Done {A B} (c : M A) (k : A → M B) w a w1 :
  c w = Done a w1 → (bind c k) w = k a w1.
Proof. unfold bind. by intros ->. Qed.


Lemma world_eta w : World (fs w) (log w) = w.
Proof. by destruct w. Qed.

(** Normal form of paths: right-nested appends. *)
Ltac norm := repeat (rewrite <- ?app_assoc; simpl).
Ltac norm_in H :=
  repeat (setoid_rewrite <- app_assoc in H); simpl in H.

Section PhaseA.

Variables src dest : list string.
Hypothesis Hdisj : disjoint_roots src dest.

Lemma src_dest_neq x y : src ++ x ≠ dest ++ y.
Proof. by apply disjoint_roots_neq. Qed.

Lemma merged_dir d :
  d ≠ None → (∀ t c, d ≠ Some (EFile t c)) → merged (Some EDir) d = d.
Proof. destruct d as [[]|]; simpl; congruence. Qed.

(** One directory of the source (lines 113-120). *)
Lemma create_dir_ok r d w :
  fs w !! (src ++ r ++ [d]) = Some EDir →
  fs w !! (dest ++ r) = Some EDir →
  (∀ t c, fs w !! (dest ++ r ++ [d]) ≠ Some (EFile t c)) →
  ∃ w', create_dir src dest (src ++ r) d w = Done tt w' ∧
        fs w' = <[dest ++ r ++ [d] := EDir]> (fs w) ∧
        log w' = log w ++ created (r ++ [d]) (fs w !! (src ++ r ++ [d]))
                                  (fs w !! (dest ++ r ++ [d])).
Proof.
  intros Hs Hr Hk. unfold create_dir.
  replace (join (src ++ r) [d]) with (join src (r ++ [d]))
    by (unfold join; by rewrite app_assoc).
  rewrite !relpath_join. unfold join, bind, path_exists, when.
  rewrite Hs. norm.
  destruct (fs w !! (dest ++ r ++ [d])) as [e|] eqn:Ed; simpl.
  - destruct e as [t c|]; [by destruct (Hk t c)|].
    exists w. rewrite app_nil_r. split_and!; [done| |done].
    by rewrite insert_id.
  - rewrite (app_assoc dest r [d]), makedirs_new
      by (by rewrite <- ?app_assoc).
    unfold logger. simpl. rewrite <- app_assoc. eauto.
Qed.

(** One file of the source (lines 123-133). *)
Lemma copy_file_ok r f t c w e :
  fs w !! (src ++ r ++ [f]) = Some (EFile t c) →
  fs w !! (dest ++ r) = Some EDir →
  fs w !! (dest ++ r ++ [f]) ≠ Some EDir →
  merged (fs w !! (src ++ r ++ [f])) (fs w !! (dest ++ r ++ [f])) = Some e →
  ∃ w', copy_file src dest (src ++ r) f w = Done tt w' ∧
        fs w' = <[dest ++ r ++ [f] := e]> (fs w) ∧
        log w' = log w ++ created (r ++ [f]) (fs w !! (src ++ r ++ [f]))
                                  (fs w !! (dest ++ r ++ [f])).
Proof.
  intros Hs Hr Hk Hm. unfold copy_file.
  replace (join (src ++ r) [f]) with (join src (r ++ [f]))
    by (unfold join; by rewrite app_assoc).
  rewrite !relpath_join. unfold join, bind, path_exists, when.
  rewrite Hs in *. norm.
  destruct (fs w !! (dest ++ r ++ [f])) as [e'|] eqn:Ed; simpl in *.
  - destruct e' as [t' c'|]; [|done].
    unfold getmtime. rewrite Hs, Ed.
    destruct (bool_decide (t' < t)) eqn:Elt; simpl; injection Hm as <-.
    + rewrite (copy2_over _ _ t c t' c') by eauto using src_dest_neq.
      unfold logger. simpl. eauto.
    + exists w. rewrite app_nil_r. split_and!; [done| |done].
      by rewrite insert_id.
  - injection Hm as <-.
    rewrite (app_assoc dest r [f]).
    rewrite (copy2_new _ t f (dest ++ r) c) by (by rewrite <- ?app_assoc).
    unfold logger. simpl. rewrite <- app_assoc. eauto.
Qed.

Lemma merged_keeps_dir s d e :
  merged s d = Some e → e = EDir ∨ d ≠ Some EDir.
Proof.
  destruct s as [[ts cs|]|], d as [[td cd|]|]; simpl; try destruct (bool_decide _);
    intros [= <-]; auto.
Qed.

Lemma created_path x s d e : e ∈ created x s d → record_path e = x.
Proof.
  destruct s as [[ts cs|]|], d as [[td cd|]|]; simpl;
    try destruct (bool_decide _);
    rewrite ?list_elem_of_singleton, ?elem_of_nil; by intros; subst.
Qed.

Lemma NoDup_created x s d : NoDup (created x s d).
Proof.
  destruct s as [[ts cs|]|], d as [[td cd|]|]; simpl; try destruct (bool_decide _);
    try apply NoDup_singleton; apply NoDup_nil_2.
Qed.

(** Records about different relative paths never coincide. *)
Lemma NoDup_bind_paths {A} (f : A → list record) (g : A → list string)
    (l : list A) :
  NoDup l → (∀ a b, a ∈ l → b ∈ l → g a = g b → a = b) →
  (∀ a, a ∈ l → NoDup (f a)) →
  (∀ a e, a ∈ l → e ∈ f a → record_path e = g a) →
  NoDup (l ≫= f).
Proof.
  induction l as [|a l IH]; intros Hnd Hinj Hf Hg; simpl; [constructor|].
  apply NoDup_cons in Hnd as [Ha Hnd]. apply NoDup_app. split_and!.
  - apply Hf. left.
  - intros e He Hin. apply list_elem_of_bind in Hin as (b & Hb & Hbl).
    assert (a = b); [|by subst].
    apply Hinj; [left|by right|].
    rewrite <- (Hg a e), <- (Hg b e); auto; [by right|left].
  - apply IH; auto.
    + intros ????. apply Hinj; by right.
    + intros ??. apply Hf. by right.
    + intros ???. apply Hg. by right.
Qed.

Lemma NoDup_created_children r (s d : string → option entry) l :
  NoDup l → NoDup (l ≫= λ n, created (r ++ [n]) (s n) (d n)).
Proof.
  intros Hnd. apply (NoDup_bind_paths _ (λ n, r ++ [n])); auto.
  - intros a b _ _ E. apply app_inv_head in E. by injection E.
  - intros. apply NoDup_created.
  - intros a e _ He. by apply created_path in He.
Qed.

(** A loop of the first body over the names [l] found in the source
    directory at [r]; [w0] is the world the body started in. *)
Lemma for_each_children r (step : string → M unit) w0 l :
  (∀ n w, n ∈ l →
     wf (fs w) → fs w !! (dest ++ r) = Some EDir →
     fs w !! (src ++ r ++ [n]) = fs w0 !! (src ++ r ++ [n]) →
     fs w !! (dest ++ r ++ [n]) = fs w0 !! (dest ++ r ++ [n]) →
     ∃ w' e,
       merged (fs w0 !! (src ++ r ++ [n])) (fs w0 !! (dest ++ r ++ [n]))
         = Some e ∧
       step n w = Done tt w' ∧
       fs w' = <[dest ++ r ++ [n] := e]> (fs w) ∧
       log w' = log w ++ created (r ++ [n]) (fs w0 !! (src ++ r ++ [n]))
                                 (fs w0 !! (dest ++ r ++ [n]))) →
  NoDup l →
  ∀ w, wf (fs w) → fs w !! (dest ++ r) = Some EDir →
    (∀ n, n ∈ l →
       fs w !! (src ++ r ++ [n]) = fs w0 !! (src ++ r ++ [n]) ∧
       fs w !! (dest ++ r ++ [n]) = fs w0 !! (dest ++ r ++ [n])) →
    ∃ w', for_each l step w = Done tt w' ∧ wf (fs w') ∧
      (∀ n, n ∈ l →
         fs w' !! (dest ++ r ++ [n])
         = merged (fs w0 !! (src ++ r ++ [n])) (fs w0 !! (dest ++ r ++ [n]))) ∧
      (∀ p, (∀ n, n ∈ l → p ≠ dest ++ r ++ [n]) → fs w' !! p = fs w !! p) ∧
      log w' = log w ++
        (l ≫= λ n, created (r ++ [n]) (fs w0 !! (src ++ r ++ [n]))
                           (fs w0 !! (dest ++ r ++ [n]))).
Proof.
  intros Hstep. induction l as [|a l IH]; intros Hnd w Hwf Hr Hsame.
  - exists w. simpl. rewrite app_nil_r. split_and!; try done.
    intros n Hn. by apply elem_of_nil in Hn.
  - apply NoDup_cons in Hnd as [Ha Hnd].
    destruct (Hsame a) as [Hsa Hda]; [left|].
    destruct (Hstep a w) as (w1 & e & Hm & Hrun & Hfs & Hlog); auto; [left|].
    assert (Hne : ∀ n, n ∈ l → dest ++ r ++ [a] ≠ dest ++ r ++ [n]).
    { intros n Hn E. apply app_inv_head, app_inv_head in E.
      injection E as ->. done. }
    assert (Hwf1 : wf (fs w1)).
    { rewrite Hfs, (app_assoc dest r [a]). apply wf_insert; auto.
      rewrite <- app_assoc, Hda. by apply merged_keeps_dir in Hm. }
    destruct IH with (w := w1) as (w2 & Hrun2 & Hwf2 & Hin2 & Hout2 & Hlog2);
      [ | done | done | | | ].
    { intros n w' Hn. apply Hstep. by right. }
    { rewrite Hfs, lookup_insert_ne; [done|].
      intros E. rewrite <- (app_nil_r (dest ++ r)), <- app_assoc in E.
      by apply app_inv_head, app_inv_head in E. }
    { intros n Hn. rewrite Hfs.
      rewrite !lookup_insert_ne; auto using not_eq_sym, src_dest_neq.
      apply Hsame. by right. }
    exists w2. simpl. rewrite (bind_Done _ _ _ _ _ Hrun). split_and!; auto.
    + intros n [->|Hn]%elem_of_cons; [|by apply Hin2].
      rewrite Hout2 by auto. by rewrite Hfs, lookup_insert_eq.
    + intros p Hp. rewrite Hout2 by (intros n Hn; apply Hp; by right).
      rewrite Hfs, lookup_insert_ne; [done|]. apply not_eq_sym, Hp. left.
    + by rewrite Hlog2, Hlog, <- app_assoc.
Qed.

(** The body of the first walk at the source directory [r]. *)
Lemma create_update_ok r w :
  wf (fs w) →
  fs w !! (src ++ r) = Some EDir → fs w !! (dest ++ r) = Some EDir →
  (∀ n e e', fs w !! (src ++ r ++ [n]) = Some e →
             fs w !! (dest ++ r ++ [n]) = Some e' → is_dir e = is_dir e') →
  ∃ w', create_update src dest (src ++ r)
          (dirs_of (listdir (fs w) (src ++ r)))
          (nondirs_of (listdir (fs w) (src ++ r))) w = Done tt w' ∧
    wf (fs w') ∧
    (∀ n, fs w' !! (dest ++ r ++ [n])
          = merged (fs w !! (src ++ r ++ [n])) (fs w !! (dest ++ r ++ [n]))) ∧
    (∀ p, (∀ n, p ≠ dest ++ r ++ [n]) → fs w' !! p = fs w !! p) ∧
    ∃ evs, log w' = log w ++ evs ∧ NoDup evs ∧
      ∀ e, e ∈ evs ↔
           ∃ n, e ∈ created (r ++ [n]) (fs w !! (src ++ r ++ [n]))
                            (fs w !! (dest ++ r ++ [n])).
Proof.
  intros Hwf Hs Hd Hcons. unfold create_update.
  set (ds := dirs_of (listdir (fs w) (src ++ r))).
  set (fl := nondirs_of (listdir (fs w) (src ++ r))).
  assert (Hds : ∀ n, n ∈ ds ↔ fs w !! (src ++ r ++ [n]) = Some EDir).
  { intros n. unfold ds. rewrite elem_of_dirs_of. by rewrite <- app_assoc. }
  assert (Hfl : ∀ n, n ∈ fl ↔ ∃ t c, fs w !! (src ++ r ++ [n]) = Some (EFile t c)).
  { intros n. unfold fl. rewrite elem_of_nondirs_of. by rewrite <- app_assoc. }
  destruct (for_each_children r (create_dir src dest (src ++ r)) w ds)
    with (w := w) as (w1 & Hrun1 & Hwf1 & Hin1 & Hout1 & Hlog1);
    [ | by apply NoDup_dirs_of | done | done | by auto | ].
  { intros n w' Hn Hwf' Hr' Hsn Hdn. apply Hds in Hn.
    destruct (create_dir_ok r n w') as (w'' & Hrun & Hfs & Hlog).
    - by rewrite Hsn.
    - done.
    - intros t c E. rewrite Hdn in E. by specialize (Hcons n _ _ Hn E).
    - exists w'', EDir. rewrite Hsn, Hdn in Hlog. split_and!; auto.
      rewrite Hn. destruct (fs w !! (dest ++ r ++ [n])) as [[t c|]|] eqn:E;
        simpl; auto. by specialize (Hcons n _ _ Hn E). }
  destruct (for_each_children r (copy_file src dest (src ++ r)) w fl)
    with (w := w1) as (w2 & Hrun2 & Hwf2 & Hin2 & Hout2 & Hlog2);
    [ | by apply NoDup_nondirs_of | done | | | ].
  { intros n w' Hn Hwf' Hr' Hsn Hdn. apply Hfl in Hn as (t & c & Hn).
    assert (Hnd : fs w !! (dest ++ r ++ [n]) ≠ Some EDir).
    { intros E. by specialize (Hcons n _ _ Hn E). }
    assert (Hm : ∃ e, merged (fs w !! (src ++ r ++ [n]))
                             (fs w !! (dest ++ r ++ [n])) = Some e).
    { rewrite Hn. destruct (fs w !! (dest ++ r ++ [n])) as [[t' c'|]|];
        simpl; try destruct (bool_decide _); eauto. }
    destruct Hm as [e Hm].
    destruct (copy_file_ok r n t c w' e) as (w'' & Hrun & Hfs & Hlog).
    - by rewrite Hsn.
    - done.
    - by rewrite Hdn.
    - by rewrite Hsn, Hdn.
    - exists w'', e. rewrite Hsn, Hdn in Hlog. auto. }
  { rewrite Hout1; [done|]. intros n _ E.
    rewrite <- (app_nil_r (dest ++ r)), <- app_assoc in E.
    by apply app_inv_head, app_inv_head in E. }
  { intros n Hn. apply Hfl in Hn as (t & c & Hn).
    rewrite !Hout1; auto using src_dest_neq.
    intros n' Hn' E. apply app_inv_head, app_inv_head in E.
    injection E as ->. apply Hds in Hn'. congruence. }
  exists w2. rewrite (bind_Done _ _ _ _ _ Hrun1). split_and!; auto.
  - intros n.
    destruct (fs w !! (src ++ r ++ [n])) as [[t c|]|] eqn:En.
    + rewrite Hin2, En; [done|]. apply Hfl. eauto.
    + rewrite Hout2, Hin1, En; [done|by apply Hds|].
      intros n' Hn' E. apply app_inv_head, app_inv_head in E.
      injection E as ->. apply Hfl in Hn' as (?&?&?). congruence.
    + rewrite Hout2, Hout1; [done| |].
      * intros n' Hn' E. apply app_inv_head, app_inv_head in E.
        injection E as ->. apply Hds in Hn'. congruence.
      * intros n' Hn' E. apply app_inv_head, app_inv_head in E.
        injection E as ->. apply Hfl in Hn' as (?&?&?). congruence.
  - intros p Hp. rewrite Hout2, Hout1; auto.
  - eexists. split; [by rewrite Hlog2, Hlog1, <- app_assoc|]. split.
    + apply NoDup_app. split_and!.
      * apply (NoDup_created_children r (λ n, fs w !! (src ++ r ++ [n]))
                 (λ n, fs w !! (dest ++ r ++ [n]))), NoDup_dirs_of.
      * intros e He1 He2.
        apply list_elem_of_bind in He1 as (a & Ha & Hads).
        apply list_elem_of_bind in He2 as (b & Hb & Hbfl).
        apply created_path in Ha, Hb. rewrite Ha in Hb.
        apply app_inv_head in Hb. injection Hb as ->.
        apply Hds in Hads. apply Hfl in Hbfl as (?&?&?). congruence.
      * apply (NoDup_created_children r (λ n, fs w !! (src ++ r ++ [n]))
                 (λ n, fs w !! (dest ++ r ++ [n]))), NoDup_nondirs_of.
    + intros e. rewrite elem_of_app, !list_elem_of_bind. split.
      * intros [(n & He & _)|(n & He & _)]; eauto.
      * intros (n & He).
        destruct (fs w !! (src ++ r ++ [n])) as [[t c|]|] eqn:En.
        -- right. exists n. split; [by rewrite En|]. apply Hfl. eauto.
        -- left. exists n. split; [by rewrite En|]. by apply Hds.
        -- simpl in He. by apply elem_of_nil in He.
Qed.

(** The descent of the first walk into the subdirectories [l] of the
    source directory at [r]. *)
Lemma for_each_subdirs n r l :
  walk_a_spec src dest n → NoDup l →
  ∀ w, wf (fs w) →
    (∀ d, d ∈ l →
       fs w !! (src ++ r ++ [d]) = Some EDir ∧
       fs w !! (dest ++ r ++ [d]) = Some EDir ∧
       (∀ y e e', fs w !! (src ++ r ++ d :: y) = Some e →
                  fs w !! (dest ++ r ++ d :: y) = Some e' →
                  is_dir e = is_dir e') ∧
       (∀ y, is_Some (fs w !! (src ++ r ++ d :: y)) → (length y < n)%nat)) →
    ∃ w', for_each l (λ d, walk n (create_update src dest)
                             (join (src ++ r) [d])) w = Done tt w' ∧
      wf (fs w') ∧
      (∀ d y, d ∈ l → y ≠ [] →
         fs w' !! (dest ++ r ++ d :: y)
         = merged (fs w !! (src ++ r ++ d :: y))
                  (fs w !! (dest ++ r ++ d :: y))) ∧
      (∀ p, (∀ d y, d ∈ l → y ≠ [] → p ≠ dest ++ r ++ d :: y) →
            fs w' !! p = fs w !! p) ∧
      ∃ evs, log w' = log w ++ evs ∧ NoDup evs ∧
        ∀ e, e ∈ evs ↔
             ∃ d y, d ∈ l ∧ y ≠ [] ∧
                    e ∈ created (r ++ d :: y) (fs w !! (src ++ r ++ d :: y))
                                (fs w !! (dest ++ r ++ d :: y)).
Proof.
  intros IHn. induction l as [|a l IH]; intros Hnd w Hwf Hpre.
  - exists w. simpl. split_and!; try done.
    + intros d y Hd. by apply elem_of_nil in Hd.
    + exists []. rewrite app_nil_r. split_and!; [done|constructor|].
      intros e. rewrite elem_of_nil. split; [done|].
      intros (d & y & Hd & _). by apply elem_of_nil in Hd.
  - apply NoDup_cons in Hnd as [Ha Hnd].
    destruct (Hpre a) as (Hsa & Hda & Hca & Hfa); [left|].
    destruct (IHn (r ++ [a]) w) as (w1 & Hrun & Hwf1 & Hin1 & Hout1 & evs1
                                    & Hlog1 & Hnd1 & Hev1).
    { done. } { by norm. } { by norm. }
    { intros y e e'. norm. apply Hca. } { intros y. norm. apply Hfa. }
    norm_in Hin1. norm_in Hout1. norm_in Hev1.
    assert (Hsrc1 : ∀ x, fs w1 !! (src ++ x) = fs w !! (src ++ x)).
    { intros x. apply Hout1. intros y _. apply src_dest_neq. }
    assert (Hoth1 : ∀ d y, d ≠ a →
              fs w1 !! (dest ++ r ++ d :: y) = fs w !! (dest ++ r ++ d :: y)).
    { intros d y Hne. apply Hout1. intros y' _ E.
      apply app_inv_head, app_inv_head in E. by injection E. }
    destruct IH with (w := w1)
      as (w2 & Hrun2 & Hwf2 & Hin2 & Hout2 & evs2 & Hlog2 & Hnd2 & Hev2);
      [done|done| |].
    { intros d Hd. assert (d ≠ a) by (by intros ->).
      destruct (Hpre d) as (Hsd & Hdd & Hcd & Hfd); [by right|].
      replace (dest ++ r ++ [d]) with (dest ++ r ++ d :: []) by done.
      rewrite !Hsrc1, Hoth1 by done. split_and!; auto.
      - intros y e e'. rewrite Hsrc1, Hoth1 by done. apply Hcd.
      - intros y. rewrite Hsrc1. apply Hfd. }
    exists w2. simpl. unfold join in *. norm_in Hrun.
    rewrite <- app_assoc. rewrite (bind_Done _ _ _ _ _ Hrun).
    split_and!; auto.
    + intros d y [->|Hd]%elem_of_cons Hy.
      * rewrite Hout2, Hin1; [done|done|].
        intros d' y' Hd' _ E. apply app_inv_head, app_inv_head in E.
        injection E as -> _. done.
      * assert (d ≠ a) by (by intros ->).
        rewrite Hin2, Hsrc1, Hoth1; auto.
    + intros p Hp. rewrite Hout2, Hout1; [done| |].
      * intros y Hy. apply Hp; [left|done].
      * intros d y Hd Hy. apply Hp; [by right|done].
    + exists (evs1 ++ evs2). split; [by rewrite Hlog2, Hlog1, <- app_assoc|].
      split.
      * apply NoDup_app. split_and!; [done| |done].
        intros e He1 He2. apply Hev1 in He1 as (y1 & _ & He1).
        apply Hev2 in He2 as (d & y2 & Hd & _ & He2).
        apply created_path in He1, He2. rewrite He1 in He2.
        apply app_inv_head in He2. injection He2 as -> _. done.
      * intros e. rewrite elem_of_app, Hev1, Hev2. split.
        -- intros [(y & Hy & He)|(d & y & Hd & Hy & He)].
           ++ exists a, y. split_and!; [left|done|done].
           ++ assert (d ≠ a) by (by intros ->).
              exists d, y. rewrite Hsrc1, Hoth1 in He by done.
              split_and!; [by right|done|done].
        -- intros (d & y & [->|Hd]%elem_of_cons & Hy & He).
           ++ left. eauto.
           ++ assert (d ≠ a) by (by intros ->).
              right. exists d, y. rewrite Hsrc1, Hoth1 by done. auto.
Qed.

(** The first walk, by induction on the depth of the source tree. *)
Lemma walk_create_update fuel : walk_a_spec src dest fuel.
Proof.
  induction fuel as [|n IHn]; intros r w Hwf Hs Hdst Hcons Hfit.
  { specialize (Hfit []). rewrite !app_nil_r, Hs in Hfit.
    assert (0 < 0)%nat by (apply Hfit; eauto). lia. }
  simpl. unfold scandir. rewrite Hs.
  destruct (create_update_ok r w)
    as (w1 & Hrun1 & Hwf1 & Hin1 & Hout1 & evs1 & Hlog1 & Hnd1 & Hev1);
    [done|done|done|by intros n' e e'; apply (Hcons [n'])|].
  set (ds := dirs_of (listdir (fs w) (src ++ r))) in *.
  assert (Hds : ∀ d, d ∈ ds ↔ fs w !! (src ++ r ++ [d]) = Some EDir).
  { intros d. unfold ds. rewrite elem_of_dirs_of. by rewrite <- app_assoc. }
  assert (Hsrc1 : ∀ x, fs w1 !! (src ++ x) = fs w !! (src ++ x)).
  { intros x. apply Hout1. intros y. apply src_dest_neq. }
  assert (Hdeep1 : ∀ d y, y ≠ [] →
            fs w1 !! (dest ++ r ++ d :: y) = fs w !! (dest ++ r ++ d :: y)).
  { intros d y Hy. apply Hout1. intros n' E.
    apply app_inv_head, app_inv_head in E. injection E as _ ->. done. }
  destruct (for_each_subdirs n r ds IHn) with (w := w1)
    as (w2 & Hrun2 & Hwf2 & Hin2 & Hout2 & evs2 & Hlog2 & Hnd2 & Hev2);
    [by apply NoDup_dirs_of|done| |].
  { intros d Hd. apply Hds in Hd.
    assert (Hdd : fs w1 !! (dest ++ r ++ [d]) = Some EDir).
    { rewrite Hin1, Hd.
      destruct (fs w !! (dest ++ r ++ [d])) as [[t c|]|] eqn:E; try done.
      by specialize (Hcons [d] _ _ Hd E). }
    rewrite Hsrc1. split_and!; auto.
    - intros y e e'. rewrite Hsrc1. destruct y as [|n' y].
      + rewrite Hd, Hdd. by intros [= <-] [= <-].
      + rewrite Hdeep1 by done. apply (Hcons (d :: n' :: y)).
    - intros y Hy. rewrite Hsrc1 in Hy. apply (Hfit (d :: y)) in Hy.
      simpl in Hy. lia. }
  exists w2. unfold bind. rewrite Hrun1. fold ds. rewrite Hrun2.
  split_and!; auto.
  - intros [|d [|n' y]] Hy; [done| |].
    + rewrite Hout2, Hin1; [done|].
      intros d' y' _ Hy' E. apply app_inv_head, app_inv_head in E.
      injection E as _ <-. done.
    + destruct (decide (d ∈ ds)) as [Hd|Hd].
      * rewrite Hin2, Hsrc1, Hdeep1; auto.
      * rewrite Hout2, Hdeep1; [|done|].
        -- pose proof (wf_below_None (fs w) (src ++ r ++ [d]) (n' :: y))
             as Hb. norm_in Hb. rewrite Hb; [done|done| |done].
           by rewrite <- Hds.
        -- intros d' y' Hd' _ E. apply app_inv_head, app_inv_head in E.
           injection E as -> _. done.
  - intros p Hp. rewrite Hout2, Hout1; [done| |].
    + intros n' E. by apply (Hp [n']).
    + intros d y _ _ E. by apply (Hp (d :: y)).
  - exists (evs1 ++ evs2). split; [by rewrite Hlog2, Hlog1, <- app_assoc|].
    split.
    + apply NoDup_app. split_and!; [done| |done].
      intros e He1 He2. apply Hev1 in He1 as (n' & He1).
      apply Hev2 in He2 as (d & y & _ & Hy & He2).
      apply created_path in He1, He2. rewrite He1 in He2.
      apply app_inv_head in He2. injection He2 as _ <-. done.
    + intros e. rewrite elem_of_app, Hev1, Hev2. split.
      * intros [(n' & He)|(d & y & Hd & Hy & He)].
        -- by exists [n'].
        -- exists (d :: y). rewrite Hsrc1, Hdeep1 in He by done. done.
      * intros ([|d [|n' y]] & Hy & He); [done| |].
        -- left. by exists d.
        -- right. exists d, (n' :: y). rewrite Hsrc1, Hdeep1 by done.
           split_and!; [|done|done].
           apply Hds. apply (wf_ancestor _ _ (n' :: y)); [done| |done].
           norm. destruct (fs w !! (src ++ r ++ d :: n' :: y)); [eauto|].
           simpl in He. by apply elem_of_nil in He.
Qed.

End PhaseA.
Section PhaseB.

Variables src dest : list string.

Lemma removed_path x s d e : e ∈ removed x s d → record_path e = x.
Proof.
  destruct s as [[ts cs|]|], d as [[td cd|]|]; simpl;
    rewrite ?list_elem_of_singleton, ?elem_of_nil; by intros; subst.
Qed.

Lemma NoDup_removed x s d : NoDup (removed x s d).
Proof.
  destruct s as [[ts cs|]|], d as [[td cd|]|]; simpl;
    try apply NoDup_singleton; apply NoDup_nil_2.
Qed.

Lemma NoDup_removed_children r (s d : string → option entry) l :
  NoDup l → NoDup (l ≫= λ n, removed (r ++ [n]) (s n) (d n)).
Proof.
  intros Hnd. apply (NoDup_bind_paths _ (λ n, r ++ [n])); auto.
  - intros a b _ _ E. apply app_inv_head in E. by injection E.
  - intros. apply NoDup_removed.
  - intros a e _ He. by apply removed_path in He.
Qed.

Lemma bind_ext_in {A B} (f g : A → list B) (l : list A) :
  (∀ x, x ∈ l → f x = g x) → l ≫= f = l ≫= g.
Proof.
  induction l as [|a l IH]; intros H; [done|].
  rewrite !bind_cons, H, IH; [done| |left].
  intros x Hx. apply H. by right.
Qed.

Lemma below_dec (a r k : list string) :
  (∃ y, y ≠ [] ∧ k = a ++ r ++ y) ∨ (∀ y, y ≠ [] → k ≠ a ++ r ++ y).
Proof.
  destruct (strip_prefix (a ++ r) k) as [[|n y]|] eqn:E.
  - apply strip_prefix_Some in E. right. intros y Hy E'.
    rewrite E', app_nil_r, app_assoc in E.
    apply (f_equal length) in E. rewrite length_app in E.
    destruct y; [done|simpl in E; lia].
  - apply strip_prefix_Some in E. left. exists (n :: y).
    by rewrite app_assoc.
  - apply strip_prefix_None in E. right. intros y _ ->. apply E.
    exists y. by rewrite app_assoc.
Qed.

(** Pruning only removes entries inside the destination, so the source is
    read the same way before and after. *)
Lemma source_same (r : list string) (m m' : gmap (list string) entry) :
  source_outside m src dest →
  (∀ y, y ≠ [] → m' !! (dest ++ r ++ y) = m !! (dest ++ r ++ y)
                 ∨ m' !! (dest ++ r ++ y) = None) →
  (∀ p, (∀ y, y ≠ [] → p ≠ dest ++ r ++ y) → m' !! p = m !! p) →
  ∀ x, m' !! (src ++ x) = m !! (src ++ x).
Proof.
  intros Hout Hin Hfr x.
  destruct (m !! (src ++ x)) as [e|] eqn:E.
  - rewrite Hfr; [done|]. intros y _ E'. apply (Hout x); [by rewrite E|].
    rewrite E'. by apply prefix_app_r.
  - destruct (below_dec dest r (src ++ x)) as [(y & Hy & E')|Hn].
    + rewrite E' in *. destruct (Hin y Hy) as [->| ->]; done.
    + by rewrite Hfr.
Qed.

Lemma source_outside_same (m m' : gmap (list string) entry) :
  source_outside m src dest →
  (∀ x, m' !! (src ++ x) = m !! (src ++ x)) →
  source_outside m' src dest.
Proof. intros Hout Hs x. rewrite Hs. apply Hout. Qed.

(** One file of the destination (lines 138-144). *)
Lemma prune_file_ok r f t c w :
  wf (fs w) → fs w !! (dest ++ r ++ [f]) = Some (EFile t c) →
  ∃ w', prune_file src dest (dest ++ r) f w = Done tt w' ∧ wf (fs w') ∧
    (∀ y, fs w' !! (dest ++ r ++ f :: y)
          = if bool_decide (is_Some (fs w !! (src ++ r ++ [f])))
            then fs w !! (dest ++ r ++ f :: y) else None) ∧
    (∀ p, (∀ y, p ≠ dest ++ r ++ f :: y) → fs w' !! p = fs w !! p) ∧
    log w' = log w ++ removed (r ++ [f]) (fs w !! (src ++ r ++ [f]))
                              (fs w !! (dest ++ r ++ [f])).
Proof.
  intros Hwf Hf. unfold prune_file.
  replace (join (dest ++ r) [f]) with (join dest (r ++ [f]))
    by (unfold join; by rewrite app_assoc).
  rewrite !relpath_join. unfold join, bind, path_exists, when.
  rewrite Hf. norm.
  destruct (fs w !! (src ++ r ++ [f])) as [e|] eqn:Es; simpl.
  - exists w. rewrite app_nil_r. by split_and!.
  -     unfold remove. rewrite Hf. unfold logger. simpl.
    eexists. split; [done|]. simpl. split_and!; try done.
    + by eapply wf_delete_file.
    + intros [|n y].
      * by rewrite lookup_delete_eq.
      * rewrite lookup_delete_ne.
        -- pose proof (wf_below_None (fs w) (dest ++ r ++ [f]) (n :: y)) as Hb.
           norm_in Hb. apply Hb; [done|congruence|done].
        -- intros E. apply app_inv_head, app_inv_head in E. done.
    + intros p Hp. rewrite lookup_delete_ne; [done|].
      apply not_eq_sym, (Hp []).
Qed.

(** One subdirectory of the destination (lines 147-154). *)
Lemma prune_dir_ok r d w :
  wf (fs w) → fs w !! (dest ++ r ++ [d]) = Some EDir →
  ∃ w', prune_dir src dest (dest ++ r) d w = Done tt w' ∧ wf (fs w') ∧
    (∀ y, fs w' !! (dest ++ r ++ d :: y)
          = if bool_decide (is_Some (fs w !! (src ++ r ++ [d])))
            then fs w !! (dest ++ r ++ d :: y) else None) ∧
    (∀ p, (∀ y, p ≠ dest ++ r ++ d :: y) → fs w' !! p = fs w !! p) ∧
    log w' = log w ++ removed (r ++ [d]) (fs w !! (src ++ r ++ [d]))
                              (fs w !! (dest ++ r ++ [d])).
Proof.
  intros Hwf Hf. unfold prune_dir.
  replace (join (dest ++ r) [d]) with (join dest (r ++ [d]))
    by (unfold join; by rewrite app_assoc).
  rewrite !relpath_join. unfold join, bind, path_exists, when.
  rewrite Hf. norm.
  destruct (fs w !! (src ++ r ++ [d])) as [e|] eqn:Es; simpl.
  - exists w. rewrite app_nil_r. by split_and!.
  -     unfold rmtree. rewrite Hf.
    destruct (dest ++ r ++ [d]) as [|a k] eqn:Ek.
    { apply (f_equal length) in Ek. rewrite !length_app in Ek.
      simpl in Ek. lia. }
    rewrite <- Ek. unfold logger. simpl.
    eexists. split; [done|]. simpl. split_and!; try done.
    + apply wf_rmtree; [done|]. by rewrite Ek.
    + intros y. rewrite lookup_rmtree, decide_True; [done|].
      exists y. by norm.
    + intros p Hp. rewrite lookup_rmtree, decide_False; [done|].
      intros [y ->]. apply (Hp y). by norm.
Qed.

(** A loop of the second body over the names [l] found in the destination
    directory at [r]; [K] is what the listing said about their kind. *)
Lemma for_each_entries r (step : string → M unit)
    (K : option entry → Prop) l :
  (∀ n w, n ∈ l → wf (fs w) → K (fs w !! (dest ++ r ++ [n])) →
     ∃ w', step n w = Done tt w' ∧ wf (fs w') ∧
       (∀ y, fs w' !! (dest ++ r ++ n :: y)
             = if bool_decide (is_Some (fs w !! (src ++ r ++ [n])))
               then fs w !! (dest ++ r ++ n :: y) else None) ∧
       (∀ p, (∀ y, p ≠ dest ++ r ++ n :: y) → fs w' !! p = fs w !! p) ∧
       log w' = log w ++ removed (r ++ [n]) (fs w !! (src ++ r ++ [n]))
                                 (fs w !! (dest ++ r ++ [n]))) →
  NoDup l →
  ∀ w, wf (fs w) → source_outside (fs w) src dest →
    (∀ n, n ∈ l → K (fs w !! (dest ++ r ++ [n]))) →
    ∃ w', for_each l step w = Done tt w' ∧ wf (fs w') ∧
      (∀ n y, n ∈ l →
         fs w' !! (dest ++ r ++ n :: y)
         = if bool_decide (is_Some (fs w !! (src ++ r ++ [n])))
           then fs w !! (dest ++ r ++ n :: y) else None) ∧
      (∀ p, (∀ n y, n ∈ l → p ≠ dest ++ r ++ n :: y) →
            fs w' !! p = fs w !! p) ∧
      log w' = log w ++
        (l ≫= λ n, removed (r ++ [n]) (fs w !! (src ++ r ++ [n]))
                           (fs w !! (dest ++ r ++ [n]))).
Proof.
  intros Hstep. induction l as [|a l IH]; intros Hnd w Hwf Hout HK.
  - exists w. simpl. rewrite app_nil_r. split_and!; try done.
    intros n y Hn. by apply elem_of_nil in Hn.
  - apply NoDup_cons in Hnd as [Ha Hnd].
    destruct (Hstep a w) as (w1 & Hrun & Hwf1 & Hin1 & Hout1 & Hlog1);
      [left|done|apply HK; left|].
    assert (Hoth1 : ∀ n y, n ≠ a →
              fs w1 !! (dest ++ r ++ n :: y) = fs w !! (dest ++ r ++ n :: y)).
    { intros n y Hne. apply Hout1. intros y' E.
      apply app_inv_head, app_inv_head in E. by injection E. }
    assert (Hsrc1 : ∀ x, fs w1 !! (src ++ x) = fs w !! (src ++ x)).
    { apply (source_same r); [done| |].
      - intros [|n y] Hy; [done|]. destruct (decide (n = a)) as [->|Hne].
        + rewrite Hin1. destruct (bool_decide _); auto.
        + left. by apply Hoth1.
      - intros p Hp. apply Hout1. intros y. by apply Hp. }
    destruct IH with (w := w1)
      as (w2 & Hrun2 & Hwf2 & Hin2 & Hout2 & Hlog2);
      [ |done|done|by eapply source_outside_same| |].
    { intros n w' Hn. apply Hstep. by right. }
    { intros n Hn. assert (n ≠ a) by (by intros ->).
      replace (dest ++ r ++ [n]) with (dest ++ r ++ n :: []) by done.
      rewrite Hoth1 by done. apply HK. by right. }
    exists w2. simpl. rewrite (bind_Done _ _ _ _ _ Hrun). split_and!; auto.
    + intros n y [->|Hn]%elem_of_cons.
      * rewrite Hout2, Hin1; [done|].
        intros n' y' Hn' E. apply app_inv_head, app_inv_head in E.
        injection E as -> _. done.
      * assert (n ≠ a) by (by intros ->).
        rewrite Hin2, Hsrc1, Hoth1; auto.
    + intros p Hp. rewrite Hout2, Hout1; [done| |].
      * intros y. apply Hp. left.
      * intros n y Hn. apply Hp. by right.
    + rewrite Hlog2, Hlog1, <- app_assoc. f_equal. f_equal.
      apply bind_ext_in. intros n Hn. assert (n ≠ a) by (by intros ->).
      replace (dest ++ r ++ [n]) with (dest ++ r ++ n :: []) by done.
      by rewrite Hsrc1, Hoth1.
Qed.

(** The body of the second walk at the destination directory [r]. *)
Lemma prune_ok r w :
  wf (fs w) → source_outside (fs w) src dest →
  ∃ w', prune src dest (dest ++ r)
          (dirs_of (listdir (fs w) (dest ++ r)))
          (nondirs_of (listdir (fs w) (dest ++ r))) w = Done tt w' ∧
    wf (fs w') ∧
    (∀ n y, fs w' !! (dest ++ r ++ n :: y)
            = if bool_decide (is_Some (fs w !! (src ++ r ++ [n])))
              then fs w !! (dest ++ r ++ n :: y) else None) ∧
    (∀ p, (∀ n y, p ≠ dest ++ r ++ n :: y) → fs w' !! p = fs w !! p) ∧
    ∃ evs, log w' = log w ++ evs ∧ NoDup evs ∧
      ∀ e, e ∈ evs ↔
           ∃ n, e ∈ removed (r ++ [n]) (fs w !! (src ++ r ++ [n]))
                            (fs w !! (dest ++ r ++ [n])).
Proof.
  intros Hwf Hout. unfold prune.
  set (ds := dirs_of (listdir (fs w) (dest ++ r))).
  set (fl := nondirs_of (listdir (fs w) (dest ++ r))).
  assert (Hds : ∀ n, n ∈ ds ↔ fs w !! (dest ++ r ++ [n]) = Some EDir).
  { intros n. unfold ds. rewrite elem_of_dirs_of. by rewrite <- app_assoc. }
  assert (Hfl : ∀ n, n ∈ fl ↔ ∃ t c, fs w !! (dest ++ r ++ [n]) = Some (EFile t c)).
  { intros n. unfold fl. rewrite elem_of_nondirs_of. by rewrite <- app_assoc. }
  destruct (for_each_entries r (prune_file src dest (dest ++ r))
              (λ o, ∃ t c, o = Some (EFile t c)) fl)
    with (w := w) as (w1 & Hrun1 & Hwf1 & Hin1 & Hout1 & Hlog1);
    [ |by apply NoDup_nondirs_of|done|done|by intros n Hn; apply Hfl| ].
  { intros n w' _ Hwf' (t & c & Hk). by apply (prune_file_ok r n t c). }
  assert (Hsrc1 : ∀ x, fs w1 !! (src ++ x) = fs w !! (src ++ x)).
  { apply (source_same r); [done| |].
    - intros [|n y] Hy; [done|]. destruct (decide (n ∈ fl)) as [Hn|Hn].
      + rewrite Hin1 by done. destruct (bool_decide _); auto.
      + left. apply Hout1. intros n' y' Hn' E.
        apply app_inv_head, app_inv_head in E. injection E as -> _. done.
    - intros p Hp. apply Hout1. intros n y _. by apply Hp. }
  destruct (for_each_entries r (prune_dir src dest (dest ++ r))
              (λ o, o = Some EDir) ds)
    with (w := w1) as (w2 & Hrun2 & Hwf2 & Hin2 & Hout2 & Hlog2);
    [ |by apply NoDup_dirs_of|done|by eapply source_outside_same| | ].
  { intros n w' _ Hwf' Hk. by apply prune_dir_ok. }
  { intros n Hn. replace (dest ++ r ++ [n]) with (dest ++ r ++ n :: []) by done.
    rewrite Hout1; [by apply Hds|].
    intros n' y' Hn' E. apply app_inv_head, app_inv_head in E.
    injection E as -> _. apply Hds in Hn. apply Hfl in Hn' as (?&?&?).
    congruence. }
  assert (Hex : ∀ n, n ∉ fl → n ∉ ds → ∀ y, fs w !! (dest ++ r ++ n :: y) = None).
  { intros n Hn1 Hn2 y.
    assert (Hn : fs w !! (dest ++ r ++ [n]) = None).
    { destruct (fs w !! (dest ++ r ++ [n])) as [[t c|]|] eqn:E; [| |done].
      - destruct Hn1. apply Hfl. eauto.
      - destruct Hn2. by apply Hds. }
    destruct y as [|n' y]; [done|].
    pose proof (wf_below_None (fs w) (dest ++ r ++ [n]) (n' :: y)) as Hb.
    norm_in Hb. apply Hb; [done|congruence|done]. }
  exists w2. rewrite (bind_Done _ _ _ _ _ Hrun1). split_and!; auto.
  - intros n y. destruct (decide (n ∈ ds)) as [Hd|Hd].
    + rewrite Hin2, Hsrc1 by done. rewrite Hout1; [done|].
      intros n' y' Hn' E. apply app_inv_head, app_inv_head in E.
      injection E as -> _. apply Hds in Hd. apply Hfl in Hn' as (?&?&?).
      congruence.
    + rewrite Hout2.
      2:{ intros n' y' Hn' E. apply app_inv_head, app_inv_head in E.
          injection E as -> _. done. }
      destruct (decide (n ∈ fl)) as [Hf|Hf]; [by rewrite Hin1|].
      rewrite Hout1.
      2:{ intros n' y' Hn' E. apply app_inv_head, app_inv_head in E.
          injection E as -> _. done. }
      rewrite Hex by done. by destruct (bool_decide _).
  - intros p Hp. rewrite Hout2, Hout1; auto.
  - eexists. split; [by rewrite Hlog2, Hlog1, <- app_assoc|]. split.
    + apply NoDup_app. split_and!.
      * apply (NoDup_removed_children r (λ n, fs w !! (src ++ r ++ [n]))
                 (λ n, fs w !! (dest ++ r ++ [n]))), NoDup_nondirs_of.
      * intros e He1 He2.
        apply list_elem_of_bind in He1 as (a & Ha & Hafl).
        apply list_elem_of_bind in He2 as (b & Hb & Hbds).
        apply removed_path in Ha, Hb. rewrite Ha in Hb.
        apply app_inv_head in Hb. injection Hb as ->.
        apply Hds in Hbds. apply Hfl in Hafl as (?&?&?). congruence.
      * apply (NoDup_removed_children r (λ n, fs w1 !! (src ++ r ++ [n]))
                 (λ n, fs w1 !! (dest ++ r ++ [n]))), NoDup_dirs_of.
    + intros e. rewrite elem_of_app, !list_elem_of_bind. split.
      * intros [(n & He & _)|(n & He & Hn)]; [eauto|].
        exists n. rewrite Hsrc1 in He.
        replace (dest ++ r ++ [n]) with (dest ++ r ++ n :: []) in * by done.
        rewrite Hout1 in He; [done|].
        intros n' y' Hn' E. apply app_inv_head, app_inv_head in E.
        injection E as -> _. apply Hds in Hn. apply Hfl in Hn' as (?&?&?).
        congruence.
      * intros (n & He).
        destruct (fs w !! (dest ++ r ++ [n])) as [[t c|]|] eqn:En.
        -- left. exists n. rewrite En. split; [done|]. apply Hfl. eauto.
        -- right. exists n. split; [|by apply Hds]. rewrite Hsrc1.
           replace (dest ++ r ++ [n]) with (dest ++ r ++ n :: []) in * by done.
           rewrite Hout1; [by rewrite En|].
           intros n' y' Hn' E. apply app_inv_head, app_inv_head in E.
           injection E as -> _. apply Hfl in Hn' as (?&?&?). congruence.
        -- destruct (fs w !! (src ++ r ++ [n])) as [[]|];
             by apply elem_of_nil in He.
Qed.

Lemma walk_not_dir fuel body top w :
  fs w !! top ≠ Some EDir → walk fuel body top w = Done tt w.
Proof.
  intros H. destruct fuel; simpl; unfold scandir;
    by destruct (fs w !! top) as [[]|].
Qed.

(** The descent of the second walk into the subdirectories [l] that were
    listed in the destination directory at [r]: those pruned by the body are
    gone and skipped, the others are walked. *)
Lemma for_each_pruned_subdirs n r l :
  walk_b_spec src dest n → NoDup l →
  ∀ w, wf (fs w) → source_outside (fs w) src dest →
    (∀ d, d ∈ l →
       (is_Some (fs w !! (src ++ r ++ [d])) →
          (1 ≤ n)%nat ∧
          ∀ y, is_Some (fs w !! (src ++ r ++ d :: y)) → (length y < n)%nat) ∧
       (fs w !! (src ++ r ++ [d]) = None →
          fs w !! (dest ++ r ++ [d]) = None)) →
    ∃ w', for_each l (λ d, walk n (prune src dest)
                             (join (dest ++ r) [d])) w = Done tt w' ∧
      wf (fs w') ∧
      (∀ d y, d ∈ l → y ≠ [] →
         fs w' !! (dest ++ r ++ d :: y)
         = if bool_decide (is_Some (fs w !! (src ++ r ++ d :: y)))
           then fs w !! (dest ++ r ++ d :: y) else None) ∧
      (∀ p, (∀ d y, d ∈ l → y ≠ [] → p ≠ dest ++ r ++ d :: y) →
            fs w' !! p = fs w !! p) ∧
      ∃ evs, log w' = log w ++ evs ∧ NoDup evs ∧
        ∀ e, e ∈ evs ↔
             ∃ d y n', d ∈ l ∧ is_Some (fs w !! (src ++ r ++ d :: y)) ∧
                       e ∈ removed (r ++ d :: y ++ [n'])
                                   (fs w !! (src ++ r ++ d :: y ++ [n']))
                                   (fs w !! (dest ++ r ++ d :: y ++ [n'])).
Proof.
  intros IHn. induction l as [|a l IH]; intros Hnd w Hwf Hout Hpre.
  - exists w. simpl. split_and!; try done.
    + intros d y Hd. by apply elem_of_nil in Hd.
    + exists []. rewrite app_nil_r. split_and!; [done|constructor|].
      intros e. rewrite elem_of_nil. split; [done|].
      intros (d & y & n' & Hd & _). by apply elem_of_nil in Hd.
  - apply NoDup_cons in Hnd as [Ha Hnd].
    destruct (Hpre a) as [Hkept Hgone]; [left|].
    assert (Hone : ∃ w1,
      walk n (prune src dest) (join (dest ++ r) [a]) w = Done tt w1 ∧
      wf (fs w1) ∧
      (∀ y, y ≠ [] →
         fs w1 !! (dest ++ r ++ a :: y)
         = if bool_decide (is_Some (fs w !! (src ++ r ++ a :: y)))
           then fs w !! (dest ++ r ++ a :: y) else None) ∧
      (∀ p, (∀ y, y ≠ [] → p ≠ dest ++ r ++ a :: y) →
            fs w1 !! p = fs w !! p) ∧
      ∃ evs, log w1 = log w ++ evs ∧ NoDup evs ∧
        ∀ e, e ∈ evs ↔
             ∃ y n', is_Some (fs w !! (src ++ r ++ a :: y)) ∧
                     e ∈ removed (r ++ a :: y ++ [n'])
                                 (fs w !! (src ++ r ++ a :: y ++ [n']))
                                 (fs w !! (dest ++ r ++ a :: y ++ [n']))).
    { destruct (fs w !! (src ++ r ++ [a])) as [ea|] eqn:Ea.
      - destruct Hkept as [Hn Hfit]; [eauto|].
        destruct (IHn (r ++ [a]) w)
          as (w1 & Hrun & Hwf1 & Hin1 & Hout1 & evs1 & Hlog1 & Hnd1 & Hev1);
          [done|done|done|by intros y; norm; apply Hfit|].
        norm_in Hout1. norm_in Hev1.
        unfold join. norm. norm_in Hrun.
        exists w1. split_and!; auto.
        { intros y Hy. specialize (Hin1 y Hy).
          by rewrite <- !app_assoc in Hin1. }
        exists evs1. split_and!; auto.
        intros e. rewrite Hev1. split.
        + intros (y & n' & [->|Hy] & He); [|by exists y, n'].
          exists [], n'. split; [|done]. rewrite Ea. eauto.
        + intros (y & n' & Hy & He). exists y, n'. auto.
      - specialize (Hgone eq_refl).
        assert (Hsb : ∀ y, fs w !! (src ++ r ++ a :: y) = None).
        { intros [|n' y]; [done|].
          pose proof (wf_below_None (fs w) (src ++ r ++ [a]) (n' :: y)) as Hb.
          norm_in Hb. apply Hb; [done|congruence|done]. }
        assert (Hdb : ∀ y, fs w !! (dest ++ r ++ a :: y) = None).
        { intros [|n' y]; [done|].
          pose proof (wf_below_None (fs w) (dest ++ r ++ [a]) (n' :: y)) as Hb.
          norm_in Hb. apply Hb; [done|congruence|done]. }
        exists w. split_and!; auto.
        + apply walk_not_dir. unfold join. norm. congruence.
        + intros y _. rewrite Hdb. by destruct (bool_decide _).
        + exists []. rewrite app_nil_r. split_and!; [done|constructor|].
          intros e. rewrite elem_of_nil. split; [done|].
          intros (y & n' & [? Hy] & _). rewrite Hsb in Hy. done. }
    destruct Hone as (w1 & Hrun & Hwf1 & Hin1 & Hout1 & evs1 & Hlog1
                      & Hnd1 & Hev1).
    assert (Hoth1 : ∀ d y, d ≠ a →
              fs w1 !! (dest ++ r ++ d :: y) = fs w !! (dest ++ r ++ d :: y)).
    { intros d y Hne. apply Hout1. intros y' _ E.
      apply app_inv_head, app_inv_head in E. by injection E. }
    assert (Hsrc1 : ∀ x, fs w1 !! (src ++ x) = fs w !! (src ++ x)).
    { apply (source_same r); [done| |].
      - intros [|d [|n' y]] Hy; [done| |].
        + left. apply Hout1. intros y' Hy' E.
          apply app_inv_head, app_inv_head in E. injection E as _ <-. done.
        + destruct (decide (d = a)) as [->|Hne].
          * rewrite Hin1 by done. destruct (bool_decide _); auto.
          * left. by apply Hoth1.
      - intros p Hp. apply Hout1. intros y Hy. by apply Hp. }
    destruct IH with (w := w1)
      as (w2 & Hrun2 & Hwf2 & Hin2 & Hout2 & evs2 & Hlog2 & Hnd2 & Hev2);
      [done|done|by eapply source_outside_same| |].
    { intros d Hd. assert (d ≠ a) by (by intros ->).
      destruct (Hpre d) as [Hk Hg]; [by right|].
      replace (dest ++ r ++ [d]) with (dest ++ r ++ d :: []) by done.
      rewrite !Hsrc1, Hoth1 by done. split; [|done].
      intros Hs. destruct (Hk Hs) as [? Hf]. split; [done|].
      intros y. rewrite Hsrc1. apply Hf. }
    exists w2. simpl. rewrite (bind_Done _ _ _ _ _ Hrun).
    split_and!; auto.
    + intros d y [->|Hd]%elem_of_cons Hy.
      * rewrite Hout2, Hin1; [done|done|].
        intros d' y' Hd' _ E. apply app_inv_head, app_inv_head in E.
        injection E as -> _. done.
      * assert (d ≠ a) by (by intros ->).
        rewrite Hin2, Hsrc1, Hoth1; auto.
    + intros p Hp. rewrite Hout2, Hout1; [done| |].
      * intros y Hy. apply Hp; [left|done].
      * intros d y Hd Hy. apply Hp; [by right|done].
    + exists (evs1 ++ evs2). split; [by rewrite Hlog2, Hlog1, <- app_assoc|].
      split.
      * apply NoDup_app. split_and!; [done| |done].
        intros e He1 He2. apply Hev1 in He1 as (y1 & n1 & _ & He1).
        apply Hev2 in He2 as (d & y2 & n2 & Hd & _ & He2).
        apply removed_path in He1, He2. rewrite He1 in He2.
        apply app_inv_head in He2. injection He2 as -> _. done.
      * intros e. rewrite elem_of_app, Hev1, Hev2. split.
        -- intros [(y & n' & Hy & He)|(d & y & n' & Hd & Hy & He)].
           ++ exists a, y, n'. split_and!; [left|done|done].
           ++ assert (d ≠ a) by (by intros ->).
              exists d, y, n'. rewrite !Hsrc1, Hoth1 in He by done.
              rewrite Hsrc1 in Hy. split_and!; [by right|done|done].
        -- intros (d & y & n' & [->|Hd]%elem_of_cons & Hy & He).
           ++ left. eauto.
           ++ assert (d ≠ a) by (by intros ->).
              right. exists d, y, n'. rewrite !Hsrc1, Hoth1 by done. auto.
Qed.

(** The second walk, by induction on the depth of the source tree. *)
Lemma walk_prune fuel : walk_b_spec src dest fuel.
Proof.
  induction fuel as [|n IHn]; intros r w Hwf Hout Hone Hfit; [lia|].
  destruct (decide (fs w !! (dest ++ r) = Some EDir)) as [Hd|Hd].
  2:{ assert (Hdb : ∀ y, y ≠ [] → fs w !! (dest ++ r ++ y) = None).
      { intros y Hy. rewrite app_assoc. by apply wf_below_None. }
      exists w. split_and!; auto.
      - by apply walk_not_dir.
      - intros y Hy. rewrite Hdb by done. by destruct (bool_decide _).
      - exists []. rewrite app_nil_r. split_and!; [done|constructor|].
        intros e. rewrite elem_of_nil. split; [done|].
        intros (y & n' & _ & He). rewrite Hdb in He.
        + destruct (fs w !! (src ++ r ++ y ++ [n'])) as [[]|];
            by apply elem_of_nil in He.
        + by destruct y. }
  simpl. unfold scandir. rewrite Hd.
  destruct (prune_ok r w)
    as (w1 & Hrun1 & Hwf1 & Hin1 & Hout1 & evs1 & Hlog1 & Hnd1 & Hev1);
    [done|done|].
  set (ds := dirs_of (listdir (fs w) (dest ++ r))) in *.
  assert (Hds : ∀ d, d ∈ ds ↔ fs w !! (dest ++ r ++ [d]) = Some EDir).
  { intros d. unfold ds. rewrite elem_of_dirs_of. by rewrite <- app_assoc. }
  assert (Hsrc1 : ∀ x, fs w1 !! (src ++ x) = fs w !! (src ++ x)).
  { apply (source_same r); [done| |].
    - intros [|d y] Hy; [done|]. rewrite Hin1. destruct (bool_decide _); auto.
    - intros p Hp. apply Hout1. intros d y. by apply Hp. }
  assert (Hup : ∀ d y, is_Some (fs w !! (src ++ r ++ d :: y)) →
                       is_Some (fs w !! (src ++ r ++ [d]))).
  { intros d y Hs.
    pose proof (wf_exists_prefix (fs w) (src ++ r ++ [d]) y) as Hb.
    norm_in Hb. by apply Hb. }
  destruct (for_each_pruned_subdirs n r ds IHn) with (w := w1)
    as (w2 & Hrun2 & Hwf2 & Hin2 & Hout2 & evs2 & Hlog2 & Hnd2 & Hev2);
    [by apply NoDup_dirs_of|done|by eapply source_outside_same| |].
  { intros d Hdd. rewrite !Hsrc1. split.
    - intros Hs. split.
      + apply (Hfit [d]) in Hs. simpl in Hs. lia.
      + intros y Hy. rewrite Hsrc1 in Hy. apply (Hfit (d :: y)) in Hy.
        simpl in Hy. lia.
    - intros Hs. replace (dest ++ r ++ [d]) with (dest ++ r ++ d :: []) by done.
      rewrite Hin1, Hs. rewrite bool_decide_false; [done|]. by intros [??]. }
  exists w2. unfold bind. rewrite Hrun1. fold ds. rewrite Hrun2.
  split_and!; auto.
  - intros [|d [|n' y]] Hy; [done| |].
    + rewrite Hout2, Hin1; [done|].
      intros d' y' _ Hy' E. apply app_inv_head, app_inv_head in E.
      injection E as _ <-. done.
    + destruct (decide (d ∈ ds)) as [Hdd|Hdd].
      * rewrite Hin2, Hsrc1, Hin1 by done.
        destruct (bool_decide (is_Some (fs w !! (src ++ r ++ d :: n' :: y))))
          eqn:Ek; [|done].
        apply bool_decide_eq_true in Ek. apply Hup in Ek.
        by rewrite bool_decide_true.
      * rewrite Hout2, Hin1.
        2:{ intros d' y' Hd' _ E. apply app_inv_head, app_inv_head in E.
            injection E as -> _. done. }
        pose proof (wf_below_None (fs w) (dest ++ r ++ [d]) (n' :: y)) as Hb.
        norm_in Hb. rewrite Hb; [|done| |done].
        -- by repeat destruct (bool_decide _).
        -- by rewrite <- Hds.
  - intros p Hp. rewrite Hout2, Hout1; [done| |].
    + intros n' y E. by apply (Hp (n' :: y)).
    + intros d y _ _ E. by apply (Hp (d :: y)).
  - exists (evs1 ++ evs2). split; [by rewrite Hlog2, Hlog1, <- app_assoc|].
    split.
    + apply NoDup_app. split_and!; [done| |done].
      intros e He1 He2. apply Hev1 in He1 as (n1 & He1).
      apply Hev2 in He2 as (d & y & n2 & _ & _ & He2).
      apply removed_path in He1, He2. rewrite He1 in He2.
      apply app_inv_head in He2. injection He2 as _ E.
      by destruct y.
    + assert (Hkeep : ∀ d y, is_Some (fs w !! (src ++ r ++ d :: y)) →
                fs w1 !! (dest ++ r ++ d :: y) = fs w !! (dest ++ r ++ d :: y)).
      { intros d y Hs. rewrite Hin1, bool_decide_true; [done|].
        by apply (Hup d y). }
      intros e. rewrite elem_of_app, Hev1, Hev2. split.
      * intros [(n' & He)|(d & y & n' & Hdd & Hy & He)].
        -- exists [], n'. auto.
        -- exists (d :: y), n'. rewrite Hsrc1 in Hy.
           rewrite Hsrc1 in He. split; [by right|]. simpl.
           rewrite Hin1 in He. rewrite bool_decide_true in He; [done|].
           by apply (Hup d y).
      * intros ([|d y] & n' & Hy & He).
        -- left. by exists n'.
        -- destruct Hy as [|Hy]; [done|]. simpl in He.
           right. exists d, y, n'. rewrite !Hsrc1.
           rewrite Hin1, bool_decide_true by (by apply (Hup d y)).
           split_and!; [|done|done].
           apply Hds. apply (wf_ancestor _ _ (y ++ [n'])); [done| |].
           ++ norm. destruct (fs w !! (dest ++ r ++ d :: y ++ [n'])); [eauto|].
              destruct (fs w !! (src ++ r ++ d :: y ++ [n'])) as [[]|];
                by apply elem_of_nil in He.
           ++ by destruct y.
Qed.

End PhaseB.
(** *** One pass *)

Section Pass.

Variables src dest : list string.

Lemma disjoint_source_outside m :
  disjoint_roots src dest → source_outside m src dest.
Proof.
  intros Hd x _ Hp. apply (disjoint_roots_not_below src dest x [] Hd).
  by rewrite app_nil_r.
Qed.

(** The first loop of [sync], started on two existing directories. *)
Lemma phase_a_ok fuel w :
  disjoint_roots src dest → wf (fs w) →
  fs w !! src = Some EDir → fs w !! dest = Some EDir →
  consistent (fs w) src dest → fits fuel (fs w) src →
  ∃ w', phase_a fuel src dest w = Done tt w' ∧ wf (fs w') ∧
    (∀ y, y ≠ [] →
       fs w' !! (dest ++ y)
       = merged (fs w !! (src ++ y)) (fs w !! (dest ++ y))) ∧
    (∀ p, (∀ y, y ≠ [] → p ≠ dest ++ y) → fs w' !! p = fs w !! p) ∧
    ∃ evs, log w' = log w ++ evs ∧ NoDup evs ∧
      ∀ e, e ∈ evs ↔
           ∃ y, y ≠ [] ∧
                e ∈ created y (fs w !! (src ++ y)) (fs w !! (dest ++ y)).
Proof.
  intros Hdisj Hwf Hs Hd Hcons Hfit.
  destruct (walk_create_update src dest Hdisj fuel [] w)
    as (w' & Hrun & Hwf' & Hin & Hout & evs & Hlog & Hnd & Hev);
    rewrite ?app_nil_r; auto.
  rewrite app_nil_r in Hrun. exists w'. split_and!; [exact Hrun|done..|].
  exists evs. split_and!; [done..|]. exact Hev.
Qed.

(** The second loop of [sync]. *)
Lemma phase_b_ok fuel w :
  wf (fs w) → source_outside (fs w) src dest →
  (1 ≤ fuel)%nat → fits fuel (fs w) src →
  ∃ w', phase_b fuel src dest w = Done tt w' ∧ wf (fs w') ∧
    (∀ y, y ≠ [] →
       fs w' !! (dest ++ y)
       = if bool_decide (is_Some (fs w !! (src ++ y)))
         then fs w !! (dest ++ y) else None) ∧
    (∀ p, (∀ y, y ≠ [] → p ≠ dest ++ y) → fs w' !! p = fs w !! p) ∧
    ∃ evs, log w' = log w ++ evs ∧ NoDup evs ∧
      ∀ e, e ∈ evs ↔
           ∃ y n, (y = [] ∨ is_Some (fs w !! (src ++ y))) ∧
                  e ∈ removed (y ++ [n]) (fs w !! (src ++ y ++ [n]))
                              (fs w !! (dest ++ y ++ [n])).
Proof.
  intros Hwf Hout Hone Hfit.
  destruct (walk_prune src dest fuel [] w)
    as (w' & Hrun & Hwf' & Hin & Hfr & evs & Hlog & Hnd & Hev); auto.
  rewrite app_nil_r in Hrun. exists w'. split_and!; [exact Hrun|done..|].
  exists evs. split_and!; [done..|]. exact Hev.
Qed.

Lemma disjoint_source_same (m m' : gmap (list string) entry) :
  disjoint_roots src dest →
  (∀ p, (∀ y, y ≠ [] → p ≠ dest ++ y) → m' !! p = m !! p) →
  ∀ x, m' !! (src ++ x) = m !! (src ++ x).
Proof. intros Hd Hfr x. apply Hfr. intros y _. by apply disjoint_roots_neq. Qed.

Lemma removed_merged x s d :
  removed x s (merged s d) = removed x s d.
Proof.
  destruct s as [[]|], d as [[]|]; simpl; try destruct (bool_decide _); done.
Qed.

(** A whole pass on two existing directories whose entries agree in kind:
    it ends normally; the destination holds the [synced] entries and
    nothing else has changed; the log grows by the two DEBUG records, the
    records of the first loop and those of the second. *)
Lemma sync_ok fuel w :
  disjoint_roots src dest → wf (fs w) →
  fs w !! src = Some EDir → fs w !! dest = Some EDir →
  consistent (fs w) src dest → fits fuel (fs w) src →
  ∃ w' evsA evsB,
    sync fuel src dest w = Done tt w' ∧ wf (fs w') ∧
    (∀ y, y ≠ [] →
       fs w' !! (dest ++ y)
       = synced (fs w !! (src ++ y)) (fs w !! (dest ++ y))) ∧
    (∀ p, (∀ y, y ≠ [] → p ≠ dest ++ y) → fs w' !! p = fs w !! p) ∧
    log w' = log w ++ [Debug_syncing] ++ evsA ++ evsB ++ [Debug_completed] ∧
    NoDup evsA ∧ NoDup evsB ∧
    (∀ e, e ∈ evsA ↔
          ∃ y, y ≠ [] ∧
               e ∈ created y (fs w !! (src ++ y)) (fs w !! (dest ++ y))) ∧
    (∀ e, e ∈ evsB ↔
          ∃ y n, (y = [] ∨ is_Some (fs w !! (src ++ y))) ∧
                 e ∈ removed (y ++ [n]) (fs w !! (src ++ y ++ [n]))
                             (fs w !! (dest ++ y ++ [n]))).
Proof.
  intros Hdisj Hwf Hs Hd Hcons Hfit.
  set (w0 := World (fs w) (log w ++ [Debug_syncing])).
  destruct (phase_a_ok fuel w0)
    as (wa & Hruna & Hwfa & Hina & Hfra & evsA & Hloga & Hnda & Heva);
    [done..|].
  simpl in *.
  pose proof (disjoint_source_same _ _ Hdisj Hfra) as Hsrca.
  destruct (phase_b_ok fuel wa)
    as (wb & Hrunb & Hwfb & Hinb & Hfrb & evsB & Hlogb & Hndb & Hevb).
  { done. }
  { by apply disjoint_source_outside. }
  { specialize (Hfit []). rewrite app_nil_r, Hs in Hfit.
    assert (length (@nil string) < fuel)%nat by (apply Hfit; eauto).
    simpl in *. lia. }
  { intros x. rewrite Hsrca. apply Hfit. }
  exists (World (fs wb) (log wb ++ [Debug_completed])), evsA, evsB.
  split_and!; try done.
  - unfold sync, bind, logger. fold w0. by rewrite Hruna, Hrunb.
  - intros y Hy. simpl. rewrite Hinb, Hsrca, Hina by done. unfold synced.
    destruct (fs w !! (src ++ y)) as [e|] eqn:E.
    + by rewrite bool_decide_true by eauto.
    + rewrite bool_decide_false; [done|]. by intros [??].
  - intros p Hp. simpl. by rewrite Hfrb, Hfra.
  - simpl. rewrite Hlogb, Hloga. by rewrite <- !app_assoc.
  - intros e. rewrite Hevb. split.
    + intros (y & n & Hy & He). exists y, n. rewrite !Hsrca in *.
      rewrite Hina, removed_merged in He by (by destruct y). done.
    + intros (y & n & Hy & He). exists y, n. rewrite !Hsrca.
      rewrite Hina, removed_merged by (by destruct y). done.
Qed.

End Pass.
(** *** Fuel *)

Lemma walk_unfold fuel body top w :
  walk fuel body top w
  = match scandir (fs w) top with
    | None => Done tt w
    | Some ents =>
      match fuel with
      | O => Cutoff w
      | S n =>
        (body top (dirs_of ents) (nondirs_of ents) ;;
         for_each (dirs_of ents) (λ d, walk n body (join top [d]))) w
      end
    end.
Proof. by destruct fuel. Qed.

Lemma for_each_mono {A} (f g : A → M unit) l :
  (∀ x w w', f x w = Done tt w' → g x w = Done tt w') →
  ∀ w w', for_each l f w = Done tt w' → for_each l g w = Done tt w'.
Proof.
  intros Hfg. induction l as [|x l IH]; intros w w'; simpl; [done|].
  unfold bind. destruct (f x w) as [[] w1|e w1|w1] eqn:E; try done.
  rewrite (Hfg _ _ _ E). apply IH.
Qed.

(** More fuel does not change the result of a walk that ended normally. *)
Lemma walk_fuel_S body n :
  ∀ top w w', walk n body top w = Done tt w' →
              walk (S n) body top w = Done tt w'.
Proof.
  induction n as [|n IH]; intros top w w'; rewrite !walk_unfold;
    destruct (scandir (fs w) top) as [ents|]; try done.
  unfold bind.
  destruct (body top (dirs_of ents) (nondirs_of ents) w) as [[] w1|e w1|w1];
    try done.
  apply for_each_mono. intros d w2 w3. apply IH.
Qed.

Lemma walk_fuel_mono body n k top w w' :
  walk n body top w = Done tt w' → walk (n + k) body top w = Done tt w'.
Proof.
  intros H. induction k as [|k IH].
  - by rewrite Nat.add_0_r.
  - rewrite Nat.add_succ_r. by apply walk_fuel_S.
Qed.

Lemma sync_fuel_mono n k src dest w w' :
  sync n src dest w = Done tt w' → sync (n + k) src dest w = Done tt w'.
Proof.
  unfold sync, bind, logger, phase_a, phase_b.
  destruct (walk n (create_update src dest) src _) as [[] wa|e wa|wa] eqn:Ea;
    try done.
  rewrite (walk_fuel_mono _ _ k _ _ _ Ea).
  destruct (walk n (prune src dest) dest wa) as [[] wb|e wb|wb] eqn:Eb;
    try done.
  by rewrite (walk_fuel_mono _ _ k _ _ _ Eb).
Qed.

Lemma fits_mono n n' m top : (n ≤ n')%nat → fits n m top → fits n' m top.
Proof. intros Hn Hf x Hx. specialize (Hf x Hx). lia. Qed.

Lemma foldr_max_ge (l : list nat) x :
  x ∈ l → (x ≤ foldr Nat.max 0%nat l)%nat.
Proof.
  induction l as [|y l IH]; [by intros ?%elem_of_nil|].
  intros [->|Hx]%elem_of_cons; simpl; [lia|]. specialize (IH Hx). lia.
Qed.

Lemma fits_deep_enough m top : fits (deep_enough m) m top.
Proof.
  intros x [e He]. unfold deep_enough.
  assert (Hl : (length (top ++ x) ≤
                foldr Nat.max 0%nat (length <$> (map_to_list m).*1))%nat).
  { apply foldr_max_ge. apply list_elem_of_fmap. exists (top ++ x).
    split; [done|]. apply list_elem_of_fmap. exists (top ++ x, e).
    split; [done|]. by apply elem_of_map_to_list. }
  rewrite length_app in Hl. lia.
Qed.

(** *** A destination inside the source *)

Lemma kinds_kept_refl m : kinds_kept m m.
Proof. intros p e H. eauto. Qed.

Lemma kinds_kept_trans m1 m2 m3 :
  kinds_kept m1 m2 → kinds_kept m2 m3 → kinds_kept m1 m3.
Proof.
  intros H12 H23 p e H. destruct (H12 p e H) as (e2 & H2 & E2).
  destruct (H23 p e2 H2) as (e3 & H3 & E3). exists e3. split; congruence.
Qed.

Lemma dirs_added_refl m : dirs_added m m.
Proof. intros p. by left. Qed.

Lemma dirs_added_trans m1 m2 m3 :
  dirs_added m1 m2 → dirs_added m2 m3 → dirs_added m1 m3.
Proof.
  intros H12 H23 p. destruct (H12 p) as [E|[E1 E2]], (H23 p) as [E'|[E1' E2']].
  - left. congruence.
  - right. split; congruence.
  - right. split; congruence.
  - congruence.
Qed.

Lemma dirs_added_kept m m' : dirs_added m m' → kinds_kept m m'.
Proof.
  intros H p e He. destruct (H p) as [E|[E _]]; [|congruence].
  exists e. split; congruence.
Qed.

Lemma mkdir_dirs_added p w : dirs_added (fs w) (fs (world_of (mkdir p w))).
Proof.
  unfold mkdir. destruct (fs w !! p) eqn:E; [apply dirs_added_refl|].
  destruct (fs w !! parent p) as [[]|]; try apply dirs_added_refl.
  simpl. intros k. destruct (decide (p = k)) as [<-|Hne].
  - right. by rewrite lookup_insert_eq.
  - left. by rewrite lookup_insert_ne.
Qed.

Lemma makedirs_rev_dirs_added rname w :
  dirs_added (fs w) (fs (world_of (makedirs_rev rname w))).
Proof.
  revert w. induction rname as [|tail rhead IH]; intros w; simpl;
    [apply dirs_added_refl|].
  set (o := match rhead with
            | [] => Done () w
            | _ :: _ =>
              if bool_decide (is_Some (fs w !! rev rhead)) then Done () w
              else match makedirs_rev rhead w with
                   | Raised (FileExistsError _) w' => Done () w'
                   | o => o
                   end
            end).
  assert (Ho : dirs_added (fs w) (fs (world_of o))).
  { unfold o. destruct rhead as [|a rh]; [apply dirs_added_refl|].
    destruct (bool_decide _); [apply dirs_added_refl|].
    specialize (IH w). by destruct (makedirs_rev (a :: rh) w) as [|[]|]. }
  destruct o as [[] w1|e w1|w1]; simpl in *; try done.
  pose proof (mkdir_dirs_added (rev rhead ++ [tail]) w1) as Hm.
  eapply dirs_added_trans; [exact Ho|].
  destruct (mkdir (rev rhead ++ [tail]) w1) as [[] w2|e w2|w2]; simpl in *;
    try done.
  by destruct (bool_decide _).
Qed.

Lemma create_dir_dirs_added src dest root dir w :
  dirs_added (fs w) (fs (world_of (create_dir src dest root dir w))).
Proof.
  unfold create_dir, bind, path_exists, when.
  destruct (negb _); simpl; [|apply dirs_added_refl].
  set (dp := join dest _).
  pose proof (makedirs_rev_dirs_added (rev dp) w) as H.
  fold (makedirs dp) in H.
  by destruct (makedirs dp w) as [[] w1|e w1|w1].
Qed.

Lemma makedirs_rev_Done rname w w' :
  rname ≠ [] → makedirs_rev rname w = Done tt w' →
  fs w' !! rev rname = Some EDir.
Proof.
  destruct rname as [|tail rhead]; [done|]. intros _. simpl.
  set (o := match rhead with
            | [] => Done () w
            | _ :: _ =>
              if bool_decide (is_Some (fs w !! rev rhead)) then Done () w
              else match makedirs_rev rhead w with
                   | Raised (FileExistsError _) w' => Done () w'
                   | o => o
                   end
            end).
  destruct o as [[] w1|e w1|w1]; try done.
  unfold mkdir. destruct (fs w1 !! (rev rhead ++ [tail])) eqn:E1.
  - case_bool_decide as Hd; [|done]. by intros [= <-].
  - destruct (fs w1 !! parent (rev rhead ++ [tail])) as [[]|].
    + case_bool_decide as Hd; [|done]. by intros [= <-].
    + intros [= <-]. simpl. by rewrite lookup_insert_eq.
    + case_bool_decide as Hd; [|done]. by intros [= <-].
Qed.

(** A directory step that ends normally leaves something at its
    destination path. *)
Lemma create_dir_Done src dest q a w w' :
  create_dir src dest (src ++ q) a w = Done tt w' →
  is_Some (fs w' !! (dest ++ q ++ [a])).
Proof.
  unfold create_dir.
  replace (join (src ++ q) [a]) with (join src (q ++ [a]))
    by (unfold join; by rewrite app_assoc).
  rewrite !relpath_join. unfold join, bind, path_exists, when. norm.
  case_bool_decide as Hex; simpl.
  - by intros [= <-].
  - destruct (makedirs (dest ++ q ++ [a]) w) as [[] w1|e w1|w1] eqn:E;
      try done.
    unfold logger. intros [= <-]. simpl.
    unfold makedirs in E. apply makedirs_rev_Done in E.
    + rewrite rev_involutive in E. eauto.
    + intros Hr. apply (f_equal length) in Hr.
      rewrite length_rev, !length_app in Hr. simpl in Hr. lia.
Qed.

Lemma for_each_app_Done {A} (f : A → M unit) l1 a l2 w w' :
  for_each (l1 ++ a :: l2) f w = Done tt w' →
  ∃ wa wb, for_each l1 f w = Done tt wa ∧ f a wa = Done tt wb ∧
           for_each l2 f wb = Done tt w'.
Proof.
  revert w. induction l1 as [|x l1 IH]; intros w; simpl; unfold bind.
  - destruct (f a w) as [[] wb|e wb|wb] eqn:E; try done. eauto.
  - destruct (f x w) as [[] w1|e w1|w1]; try done.
    intros H. by apply IH in H.
Qed.

Lemma copy2_kept sp dp w :
  kinds_kept (fs w) (fs (world_of (copy2 sp dp w))).
Proof.
  unfold copy2.
  set (dst := if bool_decide (fs w !! dp = Some EDir)
              then join dp (basename sp) else dp).
  assert (Hins : ∀ t c, fs w !! dst ≠ Some EDir →
                        kinds_kept (fs w) (<[dst := EFile t c]> (fs w))).
  { intros t c Hnd p e He. destruct (decide (dst = p)) as [<-|Hp].
    - rewrite lookup_insert_eq. eexists. split; [done|].
      destruct e; [done|congruence].
    - rewrite lookup_insert_ne by done. eauto. }
  clearbody dst. destruct (bool_decide _); [apply kinds_kept_refl|].
  destruct (fs w !! sp) as [[t c|]|]; try apply kinds_kept_refl.
  destruct (fs w !! dst) as [[t' c'|]|] eqn:Ed; simpl;
    try apply kinds_kept_refl.
  - apply Hins. congruence.
  - destruct (fs w !! parent dst) as [[]|]; simpl; try apply kinds_kept_refl.
    apply Hins. congruence.
Qed.

Lemma copy_file_kept src dest root f w :
  kinds_kept (fs w) (fs (world_of (copy_file src dest root f w))).
Proof.
  assert (Hcopy : ∀ sp dp r,
    kinds_kept (fs w)
      (fs (world_of (match copy2 sp dp w with
                     | Done _ w' => logger r w'
                     | Raised e w' => Raised e w'
                     | Cutoff w' => Cutoff w'
                     end)))).
  { intros sp dp r. pose proof (copy2_kept sp dp w) as H.
    by destruct (copy2 _ _ w) as [[] w1|e w1|w1]. }
  unfold copy_file, bind, path_exists, getmtime, when.
  destruct (negb _); simpl; [by apply Hcopy|].
  destruct (fs w !! _) as [[t c|]|]; simpl; try apply kinds_kept_refl;
    destruct (fs w !! _) as [[t' c'|]|]; simpl; try apply kinds_kept_refl;
    destruct (bool_decide _); simpl; try apply kinds_kept_refl;
    by apply Hcopy.
Qed.

Section CopiesOnly.

Variables src dest : list string.

Lemma copies_only_kept m m' :
  copies_only src dest m → kinds_kept m m' →
  (∀ x t c, x ≠ [] → m' !! (dest ++ x) = Some (EFile t c) →
     (∃ t0 c0, m !! (dest ++ x) = Some (EFile t0 c0)) ∨
     (∃ t' c', m' !! (src ++ x) = Some (EFile t' c')) ∨
     (∃ q n t' c', x = q ++ [n; n] ∧
                   m' !! (src ++ q ++ [n]) = Some (EFile t' c'))) →
  copies_only src dest m'.
Proof.
  intros Hinv Hk Hnew x t c Hx He.
  assert (Hfile : ∀ p t0 c0, m !! p = Some (EFile t0 c0) →
                             ∃ t' c', m' !! p = Some (EFile t' c')).
  { intros p t0 c0 Hp. destruct (Hk p _ Hp) as ([t' c'|] & Hp' & Hd);
      [eauto|done]. }
  destruct (Hnew x t c Hx He) as [(t0 & c0 & H0)|[H|H]]; [|by left|by right].
  destruct (Hinv x t0 c0 Hx H0) as [(t' & c' & H)|(q & n & t' & c' & -> & H)].
  - left. eauto.
  - right. destruct (Hfile _ _ _ H) as (t'' & c'' & H'). eauto 10.
Qed.

Lemma create_dir_copies root dir w :
  copies_only src dest (fs w) →
  copies_only src dest (fs (world_of (create_dir src dest root dir w))) ∧
  kinds_kept (fs w) (fs (world_of (create_dir src dest root dir w))).
Proof.
  intros Hinv. pose proof (create_dir_dirs_added src dest root dir w) as Hadd.
  split; [|by apply dirs_added_kept].
  eapply copies_only_kept; [exact Hinv|by apply dirs_added_kept|].
  intros x t c Hx He. left. destruct (Hadd (dest ++ x)) as [E|[_ E]].
  - rewrite <- E. eauto.
  - congruence.
Qed.

Lemma copy2_copies q f w :
  copies_only src dest (fs w) →
  copies_only src dest
    (fs (world_of (copy2 (src ++ q ++ [f]) (dest ++ q ++ [f]) w))) ∧
  kinds_kept (fs w)
    (fs (world_of (copy2 (src ++ q ++ [f]) (dest ++ q ++ [f]) w))).
Proof.
  intros Hinv. unfold copy2.
  set (sp := src ++ q ++ [f]). set (dp := dest ++ q ++ [f]).
  set (dst := if bool_decide (fs w !! dp = Some EDir)
              then join dp (basename sp) else dp).
  assert (Hsame : copies_only src dest (fs w) ∧ kinds_kept (fs w) (fs w))
    by (split; [done|apply kinds_kept_refl]).
  assert (Hdst : ∃ x, dst = dest ++ x ∧ x ≠ [] ∧
                      (x = q ++ [f] ∨ x = q ++ [f; f])).
  { unfold dst. case_bool_decide.
    - exists (q ++ [f; f]). unfold join, dp, sp.
      rewrite (app_assoc src q [f]), basename_snoc. norm.
      split_and!; [done|by destruct q|by right].
    - exists (q ++ [f]). split_and!; [done|by destruct q|by left]. }
  case_bool_decide as Hsf; [done|].
  destruct (fs w !! sp) as [[t c|]|] eqn:Es; try done.
  assert (Hins : fs w !! dst ≠ Some EDir →
            copies_only src dest (<[dst := EFile t c]> (fs w)) ∧
            kinds_kept (fs w) (<[dst := EFile t c]> (fs w))).
  { intros Hnd.
    assert (Hne : sp ≠ dst).
    { intros E. apply Hsf. split; [done|]. eauto. }
    assert (Hk : kinds_kept (fs w) (<[dst := EFile t c]> (fs w))).
    { intros p e He. destruct (decide (dst = p)) as [<-|Hp].
      - rewrite lookup_insert_eq. eexists. split; [done|].
        destruct e; [done|congruence].
      - rewrite lookup_insert_ne by done. eauto. }
    split; [|done]. eapply copies_only_kept; [exact Hinv|exact Hk|].
    intros x t0 c0 Hx He.
    destruct (decide (dst = dest ++ x)) as [E|E].
    - right. destruct Hdst as (x' & Ex & _ & [->| ->]);
        rewrite Ex in E; apply app_inv_head in E; subst x.
      + left. fold sp. rewrite lookup_insert_ne by done. eauto.
      + right. exists q, f, t, c. split; [done|].
        fold sp. by rewrite lookup_insert_ne.
    - left. rewrite lookup_insert_ne in He by done. eauto. }
  destruct (fs w !! dst) as [[t' c'|]|] eqn:Ed; simpl; try done.
  - apply Hins. congruence.
  - destruct (fs w !! parent dst) as [[]|]; simpl; try done.
    apply Hins. congruence.
Qed.

Lemma copy_file_copies q f w :
  copies_only src dest (fs w) →
  copies_only src dest
    (fs (world_of (copy_file src dest (src ++ q) f w))) ∧
  kinds_kept (fs w) (fs (world_of (copy_file src dest (src ++ q) f w))).
Proof.
  intros Hinv.
  assert (Hsame : copies_only src dest (fs w) ∧ kinds_kept (fs w) (fs w))
    by (split; [done|apply kinds_kept_refl]).
  assert (Hcopy : ∀ r,
    copies_only src dest
      (fs (world_of (match copy2 (src ++ q ++ [f]) (dest ++ q ++ [f]) w with
                     | Done _ w' => logger r w'
                     | Raised e w' => Raised e w'
                     | Cutoff w' => Cutoff w'
                     end))) ∧
    kinds_kept (fs w)
      (fs (world_of (match copy2 (src ++ q ++ [f]) (dest ++ q ++ [f]) w with
                     | Done _ w' => logger r w'
                     | Raised e w' => Raised e w'
                     | Cutoff w' => Cutoff w'
                     end)))).
  { intros r. pose proof (copy2_copies q f w Hinv) as H.
    by destruct (copy2 _ _ w) as [[] w1|e w1|w1]. }
  unfold copy_file.
  replace (join (src ++ q) [f]) with (join src (q ++ [f]))
    by (unfold join; by rewrite app_assoc).
  rewrite !relpath_join. unfold join, bind, path_exists, getmtime, when. norm.
  destruct (negb _); simpl; [by apply Hcopy|].
  destruct (fs w !! (src ++ q ++ [f])) as [[t c|]|]; simpl; try done;
    destruct (fs w !! (dest ++ q ++ [f])) as [[t' c'|]|]; simpl; try done;
    destruct (bool_decide _); simpl; try done; by apply Hcopy.
Qed.

End CopiesOnly.

(** *** What holds however a run ends *)

Lemma bind_world {A B} (I : world → Prop) (c : M A) (k : A → M B) w :
  I (world_of (c w)) →
  (∀ a w1, c w = Done a w1 → I (world_of (k a w1))) →
  I (world_of (bind c k w)).
Proof.
  unfold bind. intros Hc Hk. destruct (c w) as [a w1|e w1|w1]; auto.
Qed.

Lemma for_each_world {A} (I : world → Prop) (l : list A) body :
  (∀ x w, I w → I (world_of (body x w))) →
  ∀ w, I w → I (world_of (for_each l body w)).
Proof.
  intros Hb. induction l as [|x l IH]; intros w Hw; [done|].
  simpl. apply bind_world; [by apply Hb|].
  intros [] w1 E. apply IH. specialize (Hb x w Hw). by rewrite E in Hb.
Qed.

Lemma walk_world (I : world → Prop) body top0 :
  (∀ top dirs files w, top0 `prefix_of` top → I w →
     I (world_of (body top dirs files w))) →
  ∀ fuel top w, top0 `prefix_of` top → I w →
    I (world_of (walk fuel body top w)).
Proof.
  intros Hb. induction fuel as [|n IH]; intros top w Htop Hw; simpl;
    destruct (scandir (fs w) top) as [ents|]; try done.
  apply bind_world; [by apply Hb|].
  intros [] w1 E. apply for_each_world.
  - intros d w2 Hw2. apply IH; [|done]. unfold join. by apply prefix_app_r.
  - specialize (Hb top (dirs_of ents) (nondirs_of ents) w Htop Hw).
    by rewrite E in Hb.
Qed.

(** Where the operating system calls write. *)

Lemma logger_fs r w : fs (world_of (logger r w)) = fs w.
Proof. done. Qed.

Lemma makedirs_rev_writes rname w p :
  fs (world_of (makedirs_rev rname w)) !! p ≠ fs w !! p →
  p `prefix_of` rev rname.
Proof.
  revert w. induction rname as [|tail rhead IH]; intros w; simpl; [done|].
  set (o := match rhead with
            | [] => Done () w
            | _ :: _ =>
              if bool_decide (is_Some (fs w !! rev rhead)) then Done () w
              else match makedirs_rev rhead w with
                   | Raised (FileExistsError _) w' => Done () w'
                   | o => o
                   end
            end).
  assert (Ho : fs (world_of o) !! p ≠ fs w !! p → p `prefix_of` rev rhead).
  { unfold o. destruct rhead as [|a rh]; [done|].
    destruct (bool_decide _); [done|].
    intros H. apply IH with (w := w).
    by destruct (makedirs_rev (a :: rh) w) as [|[]|]. }
  intros H.
  destruct (decide (fs (world_of o) !! p = fs w !! p)) as [E|E].
  2:{ apply prefix_app_r. by apply Ho. }
  rewrite <- E in H. clear E Ho.
  destruct o as [[] w1|e w1|w1]; simpl in H; try done.
  unfold mkdir in H.
  destruct (fs w1 !! (rev rhead ++ [tail])) eqn:E1; simpl in H.
  { by destruct (bool_decide _). }
  destruct (fs w1 !! parent (rev rhead ++ [tail])) as [[]|]; simpl in H;
    try (by destruct (bool_decide _)).
  destruct (decide (rev rhead ++ [tail] = p)) as [<-|Hne]; [done|].
  by rewrite lookup_insert_ne in H.
Qed.

Lemma makedirs_writes name w p :
  fs (world_of (makedirs name w)) !! p ≠ fs w !! p → p `prefix_of` name.
Proof.
  intros H. apply makedirs_rev_writes in H. by rewrite rev_involutive in H.
Qed.

Lemma makedirs_rev_log rname w : log (world_of (makedirs_rev rname w)) = log w.
Proof.
  revert w. induction rname as [|tail rhead IH]; intros w; simpl; [done|].
  set (o := match rhead with
            | [] => Done () w
            | _ :: _ =>
              if bool_decide (is_Some (fs w !! rev rhead)) then Done () w
              else match makedirs_rev rhead w with
                   | Raised (FileExistsError _) w' => Done () w'
                   | o => o
                   end
            end).
  assert (Ho : log (world_of o) = log w).
  { unfold o. destruct rhead as [|a rh]; [done|].
    destruct (bool_decide _); [done|].
    rewrite <- (IH w). by destruct (makedirs_rev (a :: rh) w) as [|[]|]. }
  rewrite <- Ho. clear Ho.
  destruct o as [[] w1|e w1|w1]; simpl; try done.
  unfold mkdir.
  destruct (fs w1 !! (rev rhead ++ [tail])); simpl.
  { by destruct (bool_decide _). }
  destruct (fs w1 !! parent (rev rhead ++ [tail])) as [[]|]; simpl; try done;
    by destruct (bool_decide _).
Qed.

Lemma copy2_writes s d w p :
  fs (world_of (copy2 s d w)) !! p ≠ fs w !! p → d `prefix_of` p.
Proof.
  unfold copy2.
  set (d' := if bool_decide (fs w !! d = Some EDir)
             then join d (basename s) else d).
  assert (Hd' : d `prefix_of` d').
  { unfold d'. destruct (bool_decide _); [|done]. by apply prefix_app_r. }
  destruct (bool_decide (s = d' ∧ _)); [done|].
  destruct (fs w !! s) as [[t c|]|]; try done.
  destruct (fs w !! d') as [[t' c'|]|]; simpl; try done.
  - intros H. destruct (decide (d' = p)) as [<-|Hne]; [done|].
    by rewrite lookup_insert_ne in H.
  - destruct (fs w !! parent d') as [[]|]; simpl; try done.
    intros H. destruct (decide (d' = p)) as [<-|Hne]; [done|].
    by rewrite lookup_insert_ne in H.
Qed.

Lemma copy2_log s d w : log (world_of (copy2 s d w)) = log w.
Proof.
  unfold copy2.
  destruct (bool_decide (s = _ ∧ _)); [done|].
  destruct (fs w !! s) as [[t c|]|]; try done.
  destruct (fs w !! _) as [[t' c'|]|]; simpl; try done.
  by destruct (fs w !! parent _) as [[]|].
Qed.

Lemma remove_writes d w p :
  fs (world_of (remove d w)) !! p ≠ fs w !! p → d `prefix_of` p.
Proof.
  unfold remove. destruct (fs w !! d) as [[t c|]|]; simpl; try done.
  intros H. destruct (decide (d = p)) as [<-|Hne]; [done|].
  by rewrite lookup_delete_ne in H.
Qed.

Lemma remove_log d w : log (world_of (remove d w)) = log w.
Proof. unfold remove. by destruct (fs w !! d) as [[t c|]|]. Qed.

Lemma rmtree_writes d w p :
  fs (world_of (rmtree d w)) !! p ≠ fs w !! p → d `prefix_of` p.
Proof.
  unfold rmtree. destruct (fs w !! d) as [[t c|]|]; simpl; try done.
  destruct d as [|a d]; [done|]. simpl. rewrite lookup_rmtree.
  by case_decide.
Qed.

Lemma rmtree_log d w : log (world_of (rmtree d w)) = log w.
Proof.
  unfold rmtree. destruct (fs w !! d) as [[t c|]|]; try done. by destruct d.
Qed.

Lemma only_writes_refl Q w : only_writes Q w w.
Proof. by intros p. Qed.

Lemma only_writes_trans Q w1 w2 w3 :
  only_writes Q w1 w2 → only_writes Q w2 w3 → only_writes Q w1 w3.
Proof.
  intros H12 H23 p Hp.
  destruct (decide (fs w2 !! p = fs w1 !! p)) as [E|E]; [|by apply H12].
  apply H23. by rewrite E.
Qed.

Lemma only_writes_weaken (Q Q' : list string → Prop) w w' :
  (∀ p, Q p → Q' p) → only_writes Q w w' → only_writes Q' w w'.
Proof. intros HQ H p Hp. by apply HQ, H. Qed.

Lemma only_logs_events_refl w : only_logs_events w w.
Proof. exists []. by rewrite app_nil_r. Qed.

Lemma only_logs_events_trans w1 w2 w3 :
  only_logs_events w1 w2 → only_logs_events w2 w3 → only_logs_events w1 w3.
Proof.
  intros (e1 & E1 & F1) (e2 & E2 & F2). exists (e1 ++ e2).
  split; [by rewrite E2, E1, app_assoc|]. by apply Forall_app.
Qed.

Lemma only_logs_events_same w w' : log w' = log w → only_logs_events w w'.
Proof. intros E. exists []. by rewrite app_nil_r. Qed.

Lemma only_logs_events_logger r w :
  is_event r = true → only_logs_events w (world_of (logger r w)).
Proof. intros Hr. exists [r]. split; [done|]. by constructor. Qed.

Section Footprint.

Variables src dest : list string.

(** The four loop bodies of [sync] write near the destination only, and
    log change events only. *)
Lemma create_dir_footprint root dir w :
  only_writes (near dest) w (world_of (create_dir src dest root dir w)) ∧
  only_logs_events w (world_of (create_dir src dest root dir w)).
Proof.
  unfold create_dir, bind, path_exists, when.
  destruct (negb _); simpl;
    [|split; [apply only_writes_refl|apply only_logs_events_refl]].
  set (dp := join dest _).
  pose proof (makedirs_writes dp w) as Hw.
  pose proof (makedirs_rev_log (rev dp) w) as Hl. fold (makedirs dp) in Hl.
  assert (Hnear : ∀ p, fs (world_of (makedirs dp w)) !! p ≠ fs w !! p →
                       near dest p).
  { intros p Hp. left. eexists. by apply Hw. }
  destruct (makedirs dp w) as [[] w1|e w1|w1]; simpl in *;
    (split; [done|]); try (by apply only_logs_events_same).
  exists [Created_directory (relpath dp dest)]. rewrite Hl.
  split; [done|]. by constructor.
Qed.

Lemma copy_file_footprint root file w :
  only_writes (near dest) w (world_of (copy_file src dest root file w)) ∧
  only_logs_events w (world_of (copy_file src dest root file w)).
Proof.
  set (sp := join root [file]). set (dp := join dest (relpath sp src)).
  assert (Hcopy : ∀ r, is_event r = true →
    only_writes (near dest) w
      (world_of (match copy2 sp dp w with
                 | Done _ w' => logger r w'
                 | Raised e w' => Raised e w'
                 | Cutoff w' => Cutoff w'
                 end)) ∧
    only_logs_events w
      (world_of (match copy2 sp dp w with
                 | Done _ w' => logger r w'
                 | Raised e w' => Raised e w'
                 | Cutoff w' => Cutoff w'
                 end))).
  { intros r Hr.
    pose proof (copy2_writes sp dp w) as Hw.
    pose proof (copy2_log sp dp w) as Hl.
    assert (Hnear : ∀ p, fs (world_of (copy2 sp dp w)) !! p ≠ fs w !! p →
                         near dest p).
    { intros p Hp. right. etrans; [|by apply Hw].
      unfold dp, join. by apply prefix_app_r. }
    destruct (copy2 sp dp w) as [[] w1|e w1|w1]; simpl in *;
      (split; [done|]); try (by apply only_logs_events_same).
    exists [r]. rewrite Hl. split; [done|]. by constructor. }
  assert (Hrefl : only_writes (near dest) w w ∧ only_logs_events w w)
    by (split; [apply only_writes_refl|apply only_logs_events_refl]).
  unfold copy_file, bind, path_exists, getmtime, when. fold sp. fold dp.
  destruct (negb _); simpl; [by apply Hcopy|].
  destruct (fs w !! sp) as [[t c|]|]; simpl; try done;
    destruct (fs w !! dp) as [[t' c'|]|]; simpl; try done;
    destruct (bool_decide _); simpl; try done; by apply Hcopy.
Qed.

Lemma prune_file_footprint root file w :
  dest `prefix_of` root →
  only_writes (near dest) w (world_of (prune_file src dest root file w)) ∧
  only_logs_events w (world_of (prune_file src dest root file w)).
Proof.
  intros Hroot. unfold prune_file, bind, path_exists, when.
  destruct (negb _); simpl;
    [|split; [apply only_writes_refl|apply only_logs_events_refl]].
  set (dp := join root [file]).
  pose proof (remove_writes dp w) as Hw.
  pose proof (remove_log dp w) as Hl.
  assert (Hnear : ∀ p, fs (world_of (remove dp w)) !! p ≠ fs w !! p →
                       near dest p).
  { intros p Hp. right. etrans; [|by apply Hw].
    unfold dp, join. by apply prefix_app_r. }
  destruct (remove dp w) as [[] w1|e w1|w1]; simpl in *;
    (split; [done|]); try (by apply only_logs_events_same).
  exists [Removed_file (relpath dp dest)]. rewrite Hl.
  split; [done|]. by constructor.
Qed.

Lemma prune_dir_footprint root dir w :
  dest `prefix_of` root →
  only_writes (near dest) w (world_of (prune_dir src dest root dir w)) ∧
  only_logs_events w (world_of (prune_dir src dest root dir w)).
Proof.
  intros Hroot. unfold prune_dir, bind, path_exists, when.
  destruct (negb _); simpl;
    [|split; [apply only_writes_refl|apply only_logs_events_refl]].
  set (dp := join root [dir]).
  pose proof (rmtree_writes dp w) as Hw.
  pose proof (rmtree_log dp w) as Hl.
  assert (Hnear : ∀ p, fs (world_of (rmtree dp w)) !! p ≠ fs w !! p →
                       near dest p).
  { intros p Hp. right. etrans; [|by apply Hw].
    unfold dp, join. by apply prefix_app_r. }
  destruct (rmtree dp w) as [[] w1|e w1|w1]; simpl in *;
    (split; [done|]); try (by apply only_logs_events_same).
  exists [Removed_directory (relpath dp dest)]. rewrite Hl.
  split; [done|]. by constructor.
Qed.

End Footprint.

Section FootprintOfPass.

Variables src dest : list string.

Lemma quiet_refl w : quiet dest w w.
Proof. split; [apply only_writes_refl|apply only_logs_events_refl]. Qed.

Lemma quiet_trans w1 w2 w3 :
  quiet dest w1 w2 → quiet dest w2 w3 → quiet dest w1 w3.
Proof.
  intros [??] [??].
  split; [by eapply only_writes_trans|by eapply only_logs_events_trans].
Qed.

Lemma for_each_quiet {A} (l : list A) body w :
  (∀ x w1, quiet dest w1 (world_of (body x w1))) →
  quiet dest w (world_of (for_each l body w)).
Proof.
  intros Hb. apply (for_each_world (quiet dest w)); [|apply quiet_refl].
  intros x w1 H1. eapply quiet_trans; [exact H1|apply Hb].
Qed.

Lemma phase_a_footprint fuel w :
  quiet dest w (world_of (phase_a fuel src dest w)).
Proof.
  unfold phase_a.
  apply (walk_world (quiet dest w) _ src); [|done|apply quiet_refl].
  intros top dirs files w1 _ H1. eapply quiet_trans; [exact H1|].
  unfold create_update. apply (bind_world (quiet dest w1)).
  - apply for_each_quiet. intros. apply create_dir_footprint.
  - intros [] w2 E.
    assert (H2 : quiet dest w1 w2).
    { pose proof (for_each_quiet dirs (create_dir src dest top) w1) as H.
      rewrite E in H. apply H. intros. apply create_dir_footprint. }
    eapply quiet_trans; [exact H2|].
    apply for_each_quiet. intros. apply copy_file_footprint.
Qed.

Lemma phase_b_footprint fuel w :
  quiet dest w (world_of (phase_b fuel src dest w)).
Proof.
  unfold phase_b.
  apply (walk_world (quiet dest w) _ dest); [|done|apply quiet_refl].
  intros top dirs files w1 Htop H1. eapply quiet_trans; [exact H1|].
  unfold prune. apply (bind_world (quiet dest w1)).
  - apply for_each_quiet. intros. by apply prune_file_footprint.
  - intros [] w2 E.
    assert (H2 : quiet dest w1 w2).
    { pose proof (for_each_quiet files (prune_file src dest top) w1) as H.
      rewrite E in H. apply H. intros. by apply prune_file_footprint. }
    eapply quiet_trans; [exact H2|].
    apply for_each_quiet. intros. by apply prune_dir_footprint.
Qed.

(** A pass writes near the destination only.  Its log is [Debug_syncing],
    change events, and [Debug_completed] exactly when it ends normally. *)
Lemma sync_footprint fuel w :
  only_writes (near dest) w (world_of (sync fuel src dest w)) ∧
  ∃ evs, Forall (λ r, is_event r = true) evs ∧
    log (world_of (sync fuel src dest w))
    = log w ++ Debug_syncing :: evs ++
      match sync fuel src dest w with
      | Done _ _ => [Debug_completed]
      | _ => []
      end.
Proof.
  unfold sync, bind, logger.
  set (w0 := World (fs w) (log w ++ [Debug_syncing])).
  pose proof (phase_a_footprint fuel w0) as [Hwa (ea & Hla & Hfa)].
  simpl in Hla. rewrite <- app_assoc in Hla. simpl in Hla.
  destruct (phase_a fuel src dest w0) as [[] wa|e wa|wa]; simpl in *;
    try (split; [done|]; exists ea; by rewrite app_nil_r).
  pose proof (phase_b_footprint fuel wa) as [Hwb (eb & Hlb & Hfb)].
  assert (Hw : only_writes (near dest) w (world_of (phase_b fuel src dest wa)))
    by (by eapply (only_writes_trans _ w0 wa)).
  rewrite Hla in Hlb. rewrite <- app_assoc in Hlb. simpl in Hlb.
  destruct (phase_b fuel src dest wa) as [[] wb|e wb|wb]; simpl in *;
    (split; [done|]); exists (ea ++ eb);
    (split; [by apply Forall_app|]); rewrite Hlb, <- ?app_assoc; simpl;
    by rewrite ?app_nil_r, <- ?app_assoc.
Qed.

End FootprintOfPass.

(** *** The executable checks are sound *)

Lemma forallb_map_to_list (m : gmap (list string) entry)
    (f : list string * entry → bool) k e :
  forallb f (map_to_list m) = true → m !! k = Some e → f (k, e) = true.
Proof.
  intros Hf Hk. rewrite forallb_forall in Hf. apply Hf.
  apply list_elem_of_In. by apply elem_of_map_to_list.
Qed.

Lemma wfb_sound m : wfb m = true → wf m.
Proof.
  unfold wfb. intros [Hroot Hall]%andb_true_iff.
  apply bool_decide_eq_true in Hroot. split; [done|].
  intros p n [e He].
  pose proof (forallb_map_to_list _ _ _ _ Hall He) as H. simpl in H.
  destruct (p ++ [n]) as [|a k] eqn:E; [by destruct p|].
  rewrite <- E, parent_snoc in H. by apply bool_decide_eq_true in H.
Qed.

Lemma fitsb_sound fuel m top : fitsb fuel m top = true → fits fuel m top.
Proof.
  intros Hall x [e He].
  pose proof (forallb_map_to_list _ _ _ _ Hall He) as H. simpl in H.
  rewrite strip_prefix_app in H. by apply bool_decide_eq_true in H.
Qed.

Lemma consistentb_sound m src dest :
  consistentb m src dest = true → consistent m src dest.
Proof.
  intros Hall x e e' He He'.
  pose proof (forallb_map_to_list _ _ _ _ Hall He) as H. simpl in H.
  rewrite strip_prefix_app, He' in H. by apply bool_decide_eq_true in H.
Qed.

Lemma emptyb_sound m top :
  emptyb m top = true → ∀ n, m !! (top ++ [n]) = None.
Proof.
  intros Hall n. destruct (m !! (top ++ [n])) as [e|] eqn:He; [|done].
  pose proof (forallb_map_to_list _ _ _ _ Hall He) as H. simpl in H.
  by rewrite strip_prefix_app in H.
Qed.

(** *** The walk of the source when the destination is inside it *)

Section Nested.

Variables src dest : list string.

Lemma create_update_copies top dirs files w :
  src `prefix_of` top → copies_only src dest (fs w) →
  copies_only src dest
    (fs (world_of (create_update src dest top dirs files w))) ∧
  kinds_kept (fs w) (fs (world_of (create_update src dest top dirs files w))).
Proof.
  intros [q ->] Hinv. unfold create_update.
  set (I := λ w' : world,
         copies_only src dest (fs w') ∧ kinds_kept (fs w) (fs w')).
  assert (H0 : I w) by (split; [done|apply kinds_kept_refl]).
  assert (H1 : I (world_of (for_each dirs (create_dir src dest (src ++ q)) w))).
  { apply for_each_world; [|done]. intros x w1 [Hc Hk].
    destruct (create_dir_copies src dest (src ++ q) x w1 Hc) as [Hc' Hk'].
    split; [done|]. by eapply kinds_kept_trans. }
  apply (bind_world I); [done|]. intros [] w1 E. rewrite E in H1.
  apply for_each_world; [|done]. intros x w2 [Hc Hk].
  destruct (copy_file_copies src dest q x w2 Hc) as [Hc' Hk'].
  split; [done|]. by eapply kinds_kept_trans.
Qed.

Lemma walk_copies fuel top w :
  src `prefix_of` top → copies_only src dest (fs w) →
  copies_only src dest
    (fs (world_of (walk fuel (create_update src dest) top w))) ∧
  kinds_kept (fs w) (fs (world_of (walk fuel (create_update src dest) top w))).
Proof.
  intros Htop Hinv.
  apply (walk_world (λ w' : world,
           copies_only src dest (fs w') ∧ kinds_kept (fs w) (fs w'))
           (create_update src dest) src); [|done|].
  - intros top' dirs files w1 Ht [Hc Hk].
    destruct (create_update_copies top' dirs files w1 Ht Hc) as [Hc' Hk'].
    split; [done|]. by eapply kinds_kept_trans.
  - split; [done|apply kinds_kept_refl].
Qed.

Lemma walks_copies fuel top (l : list string) w :
  src `prefix_of` top → copies_only src dest (fs w) →
  copies_only src dest
    (fs (world_of (for_each l
       (λ d, walk fuel (create_update src dest) (join top [d])) w))) ∧
  kinds_kept (fs w)
    (fs (world_of (for_each l
       (λ d, walk fuel (create_update src dest) (join top [d])) w))).
Proof.
  intros Htop Hinv.
  apply (for_each_world (λ w' : world,
           copies_only src dest (fs w') ∧ kinds_kept (fs w) (fs w'))).
  - intros x w1 [Hc Hk].
    destruct (walk_copies fuel (join top [x]) w1) as [Hc' Hk'];
      [unfold join; by apply prefix_app_r|done|].
    split; [done|]. by eapply kinds_kept_trans.
  - split; [done|apply kinds_kept_refl].
Qed.

End Nested.

Lemma on_chain_next (d q : list string) :
  d ≠ [] → on_chain d q → ∃ a, q ++ [a] `prefix_of` d ++ q.
Proof.
  intros Hd [k E]. destruct k as [|a k].
  - rewrite app_nil_r in E. apply (f_equal length) in E.
    rewrite length_app in E. destruct d; [done|simpl in E; lia].
  - exists a, k. by rewrite E, <- app_assoc.
Qed.

Lemma kinds_kept_dir m m' p :
  kinds_kept m m' → m !! p = Some EDir → m' !! p = Some EDir.
Proof.
  intros Hk Hp. destruct (Hk p _ Hp) as ([|] & Hp' & Hd); done.
Qed.

(** With the destination root at [src ++ d], the walk of the source that
    has reached a path of the chain finds there the directory it has to
    create below the destination, creates it, and later descends into it:
    it ends in no amount of fuel. *)
Lemma nested_walk_never_done src d fuel :
  d ≠ [] →
  ∀ q w w',
    on_chain d q → chain_ready src d (fs w) q →
    copies_only src (src ++ d) (fs w) →
    walk fuel (create_update src (src ++ d)) (src ++ q) w ≠ Done tt w'.
Proof.
  intros Hd. induction fuel as [|n IH]; intros q w w' Hon Hready Hinv;
    rewrite walk_unfold; unfold scandir;
    rewrite (Hready q) by done; [done|].
  destruct (on_chain_next d q Hd Hon) as [a Ha].
  assert (Hdir : a ∈ dirs_of (listdir (fs w) (src ++ q))).
  { apply elem_of_dirs_of. rewrite <- app_assoc. apply Hready; [|done].
    by apply prefix_app_r. }
  apply list_elem_of_split in Hdir as (l1 & l2 & Hsplit).
  unfold bind.
  destruct (create_update src (src ++ d) (src ++ q) _ _ w)
    as [[] w1|e w1|w1] eqn:Ebody; try done.
  destruct (create_update_copies src (src ++ d) (src ++ q)
              (dirs_of (listdir (fs w) (src ++ q)))
              (nondirs_of (listdir (fs w) (src ++ q))) w) as [Hc1 Hk1];
    [by apply prefix_app_r|done|].
  rewrite Ebody in Hc1, Hk1. simpl in Hc1, Hk1.
  assert (Hnew : fs w1 !! ((src ++ d) ++ q ++ [a]) = Some EDir).
  { assert (Hex : is_Some (fs w1 !! ((src ++ d) ++ q ++ [a]))).
    { unfold create_update, bind in Ebody.
      destruct (for_each _ (create_dir _ _ _) w) as [[] wd|e wd|wd] eqn:Ed;
        try done.
      rewrite Hsplit in Ed.
      apply for_each_app_Done in Ed as (wa & wb & _ & Hstep & Hrest).
      apply create_dir_Done in Hstep as [e He].
      assert (Hkb : kinds_kept (fs wb) (fs w1)).
      { eapply kinds_kept_trans.
        - pose proof (for_each_world
            (λ w' : world, kinds_kept (fs wb) (fs w')) l2
            (create_dir src (src ++ d) (src ++ q))) as Hf.
          specialize (Hf (λ x w2 Hk, kinds_kept_trans _ _ _ Hk
            (dirs_added_kept _ _
               (create_dir_dirs_added src (src ++ d) (src ++ q) x w2)))
            wb (kinds_kept_refl _)).
          rewrite Hrest in Hf. exact Hf.
        - pose proof (for_each_world
            (λ w' : world, kinds_kept (fs wd) (fs w'))
            (nondirs_of (listdir (fs w) (src ++ q)))
            (copy_file src (src ++ d) (src ++ q))) as Hf.
          specialize (Hf (λ x w2 Hk, kinds_kept_trans _ _ _ Hk
            (copy_file_kept src (src ++ d) (src ++ q) x w2))
            wd (kinds_kept_refl _)).
          rewrite Ebody in Hf. exact Hf. }
      destruct (Hkb _ _ He) as (e' & He' & _). eauto. }
    destruct Hex as [[t c|] Hex]; [|done]. exfalso.
    destruct (Hc1 (q ++ [a]) t c) as [(t' & c' & Hf)|(q0 & n0 & t' & c' & E & Hf)];
      [by destruct q|done| |].
    - rewrite (kinds_kept_dir _ _ _ Hk1 (Hready (q ++ [a])
                 (prefix_app_r _ _ _ (reflexivity q)) Ha)) in Hf. done.
    - change [n0; n0] with ([n0] ++ [n0]) in E. rewrite app_assoc in E.
      apply app_inj_tail in E as [-> _].
      rewrite (kinds_kept_dir _ _ _ Hk1 (Hready (q0 ++ [n0])
                 (reflexivity _) Hon)) in Hf. done. }
  rewrite Hsplit. intros Hrun.
  apply for_each_app_Done in Hrun as (w2 & w3 & Hl1 & Hwalk & _).
  destruct (walks_copies src (src ++ d) n (src ++ q) l1 w1) as [Hc2 Hk2];
    [by apply prefix_app_r|done|].
  rewrite Hl1 in Hc2, Hk2. simpl in Hc2, Hk2.
  unfold join in Hwalk. rewrite <- app_assoc in Hwalk.
  revert Hwalk. apply IH; [| |done].
  - unfold on_chain. rewrite app_assoc. by apply prefix_app_r.
  - intros q' Hq Hq'. rewrite app_assoc in Hq'.
    apply prefix_snoc_inv in Hq' as [Hq'| ->].
    + apply (kinds_kept_dir _ _ _ Hk2), (kinds_kept_dir _ _ _ Hk1).
      apply Hready; [|done]. etrans; [|exact Hq]. by apply prefix_app_r.
    + apply (kinds_kept_dir _ _ _ Hk2). rewrite <- Hnew.
      f_equal. by rewrite <- !app_assoc.
Qed.
(** ** The claims of the specification *)

Lemma listdir_empty m p : (∀ n, m !! (p ++ [n]) = None) → listdir m p = [].
Proof.
  intros H. apply elem_of_nil_inv. intros [n e] Hin.
  apply elem_of_listdir in Hin. by rewrite H in Hin.
Qed.

Lemma walk_empty_dir fuel body top w :
  fs w !! top = Some EDir → (∀ n, fs w !! (top ++ [n]) = None) →
  (1 ≤ fuel)%nat → body top [] [] w = Done tt w →
  walk fuel body top w = Done tt w.
Proof.
  intros Ht He Hf Hb. destruct fuel as [|n]; [lia|]. simpl.
  unfold scandir. rewrite Ht, listdir_empty by done.
  unfold dirs_of, nondirs_of, bind. simpl. by rewrite Hb.
Qed.

Lemma not_self_below (p y : list string) : y ≠ [] → p ≠ p ++ y.
Proof.
  intros Hy E. apply (f_equal length) in E. rewrite length_app in E.
  destruct y; [done|simpl in E; lia].
Qed.

Lemma empty_below m p y :
  wf m → (∀ n, m !! (p ++ [n]) = None) → y ≠ [] → m !! (p ++ y) = None.
Proof.
  intros Hwf He Hy. destruct y as [|n y]; [done|].
  destruct y as [|n' y]; [apply He|].
  pose proof (wf_below_None m (p ++ [n]) (n' :: y)) as Hb. norm_in Hb.
  apply Hb; [done| |done]. by rewrite He.
Qed.

(** One pass from a source directory into an empty directory that does not
    lie inside it, with fuel above the depth of the source. *)
Lemma mirror_when_fits fuel src dest w :
  wf (fs w) → ¬ inside dest src →
  fs w !! src = Some EDir → fs w !! dest = Some EDir →
  (∀ n, fs w !! (dest ++ [n]) = None) →
  fits fuel (fs w) src →
  ∃ w', sync fuel src dest w = Done tt w' ∧
        ∀ x, fs w' !! (dest ++ x) = fs w !! (src ++ x).
Proof.
  intros Hwf Hin Hs Hd Hempty Hfit.
  assert (Hone : (1 ≤ fuel)%nat).
  { specialize (Hfit []). rewrite app_nil_r, Hs in Hfit.
    assert (length (@nil string) < fuel)%nat by (apply Hfit; eauto).
    simpl in *. lia. }
  destruct (decide (src = dest)) as [->|Hne].
  { exists (World (fs w) ((log w ++ [Debug_syncing]) ++ [Debug_completed])).
    split; [|done]. unfold sync, bind, logger, phase_a, phase_b.
    rewrite walk_empty_dir by done. by rewrite walk_empty_dir. }
  assert (Hdisj : disjoint_roots src dest).
  { split.
    - intros [d ->]. destruct d as [|n d]; [by rewrite app_nil_r in Hne|].
      apply Hin. by exists (n :: d).
    - intros [d ->]. destruct d as [|n d]; [by rewrite app_nil_r in Hne|].
      rewrite empty_below in Hs; done. }
  destruct (sync_ok src dest fuel w)
    as (w' & evsA & evsB & Hrun & _ & Hin' & Hfr & _); [done..| |done|].
  { intros [|n x] e e' He He'.
    - rewrite app_nil_r in *. congruence.
    - rewrite empty_below in He'; done. }
  exists w'. split; [done|]. intros [|n x].
  - rewrite !app_nil_r, Hfr; [congruence|]. intros y. apply not_self_below.
  - rewrite Hin', (empty_below _ dest (n :: x)) by done.
    by destruct (fs w !! (src ++ n :: x)) as [[]|].
Qed.

(** With the destination an empty directory inside the source, the walk of
    the source starts on the chain and the pass never ends normally. *)
Lemma nested_sync_never_done fuel src dest w w' :
  wf (fs w) → inside dest src → fs w !! dest = Some EDir →
  (∀ n, fs w !! (dest ++ [n]) = None) →
  sync fuel src dest w ≠ Done tt w'.
Proof.
  intros Hwf (d & Hd & ->) Hdest Hempty.
  unfold sync, bind, logger, phase_a.
  pose proof (nested_walk_never_done src d fuel Hd []
                (World (fs w) (log w ++ [Debug_syncing]))) as Hnever.
  rewrite app_nil_r in Hnever.
  destruct (walk fuel (create_update src (src ++ d)) src _)
    as [[] wa|e wa|wa] eqn:Ea; try done.
  exfalso. apply (Hnever wa); [| | |done].
  - apply prefix_nil.
  - intros q' _ [k Hk]. rewrite app_nil_r in Hk. simpl.
    destruct k as [|n k].
    + rewrite app_nil_r in Hk. by rewrite <- Hk.
    + apply (wf_ancestor _ _ (n :: k)); [done| |done].
      rewrite <- app_assoc, <- Hk. eauto.
  - intros x t c Hx He. simpl in He. rewrite empty_below in He; done.
Qed.

(** C1 (mirror property).  For every source tree and every empty
    destination directory, a pass that ends normally leaves, at every
    relative path, the same entry below the destination root as below the
    source root: same paths, same kinds, same modification times and bytes.
    Such a pass exists whenever the destination does not lie inside the
    source and the fuel exceeds the depth of the source; with the
    destination inside the source the walk keeps descending into the
    directories it has just created and no pass ends normally. *)
Theorem mirror_property fuel src dest w :
  wf (fs w) →
  fs w !! src = Some EDir → fs w !! dest = Some EDir →
  (∀ n, fs w !! (dest ++ [n]) = None) →
  (∀ w', sync fuel src dest w = Done tt w' →
         ∀ x, fs w' !! (dest ++ x) = fs w !! (src ++ x)) ∧
  (¬ inside dest src → fits fuel (fs w) src →
   ∃ w', sync fuel src dest w = Done tt w') ∧
  (inside dest src → ∀ w', sync fuel src dest w ≠ Done tt w').
Proof.
  intros Hwf Hs Hd Hempty. split_and!.
  - intros w' Hrun.
    assert (Hcase : inside dest src ∨ ¬ inside dest src).
    { destruct (decide (src `prefix_of` dest)) as [[[|n d] ->]|Hn].
      - right. intros (d & Hne & E). rewrite app_nil_r in E.
        by apply not_self_below in E.
      - left. by exists (n :: d).
      - right. intros (d & _ & ->). apply Hn. by apply prefix_app_r. }
    destruct Hcase as [Hin|Hout];
      [by apply nested_sync_never_done in Hrun|].
    apply (sync_fuel_mono _ (deep_enough (fs w))) in Hrun.
    destruct (mirror_when_fits (fuel + deep_enough (fs w)) src dest w)
      as (w'' & Hrun' & Hmirror); [done..| |].
    + eapply fits_mono; [|apply fits_deep_enough]. lia.
    + rewrite Hrun in Hrun'. by injection Hrun' as <-.
  - intros Hout Hfit.
    destruct (mirror_when_fits fuel src dest w) as (w' & Hrun & _);
      [done..|eauto].
  - intros Hin w'. by apply nested_sync_never_done.
Qed.

Lemma missing_below m p x : wf m → m !! p = None → m !! (p ++ x) = None.
Proof.
  intros Hwf Hp. destruct x as [|n x]; [by rewrite app_nil_r|].
  apply wf_below_None; [done| |done]. by rewrite Hp.
Qed.

Lemma outside_frame (dest p : list string) :
  (p = dest ∨ ¬ (dest `prefix_of` p)) → ∀ y, y ≠ [] → p ≠ dest ++ y.
Proof.
  intros [->|Hp] y Hy; [by apply not_self_below|].
  intros ->. apply Hp. by apply prefix_app_r.
Qed.

(** A pass whose source root does not exist. *)
Lemma sync_missing_source fuel src dest w :
  wf (fs w) → fs w !! src = None → (1 ≤ fuel)%nat →
  ∃ w' evs,
    sync fuel src dest w = Done tt w' ∧ wf (fs w') ∧
    (∀ y, y ≠ [] → fs w' !! (dest ++ y) = None) ∧
    (∀ p, (∀ y, y ≠ [] → p ≠ dest ++ y) → fs w' !! p = fs w !! p) ∧
    log w' = log w ++ [Debug_syncing] ++ evs ++ [Debug_completed] ∧
    NoDup evs ∧
    ∀ e, e ∈ evs ↔ ∃ n, e ∈ removed [n] None (fs w !! (dest ++ [n])).
Proof.
  intros Hwf Hs Hone.
  set (w0 := World (fs w) (log w ++ [Debug_syncing])).
  assert (Hsb : ∀ x, fs w0 !! (src ++ x) = None)
    by (intros x; by apply missing_below).
  destruct (phase_b_ok src dest fuel w0)
    as (wb & Hrunb & Hwfb & Hinb & Hfrb & evs & Hlogb & Hndb & Hevb);
    [done| |done| |].
  { intros x [e He]. by rewrite Hsb in He. }
  { intros x [e He]. by rewrite Hsb in He. }
  exists (World (fs wb) (log wb ++ [Debug_completed])), evs.
  split_and!; try done.
  - unfold sync, bind, logger, phase_a. fold w0.
    rewrite walk_not_dir by (simpl; congruence). by rewrite Hrunb.
  - intros y Hy. simpl. rewrite Hinb, Hsb by done.
    rewrite bool_decide_false; [done|]. by intros [??].
  - simpl. rewrite Hlogb. simpl. by rewrite <- !app_assoc.
  - intros e. rewrite Hevb. split.
    + intros (y & n & [->|[? Hy]] & He); [|by rewrite Hsb in Hy].
      exists n. simpl in He. by rewrite Hsb in He.
    + intros (n & He). exists [], n. split; [by left|].
      simpl. by rewrite Hsb.
Qed.

(** C4.  When the source root does not exist, [sync] raises nothing and
    completes: the first walk yields nothing and leaves the world as it is;
    the second loop removes every file and every subdirectory found directly
    in the destination root, logging one record for each, and nothing is
    left below the destination root, while everything outside it is
    untouched. *)
Theorem missing_source_empties_destination fuel src dest w :
  wf (fs w) → fs w !! src = None → (1 ≤ fuel)%nat →
  phase_a fuel src dest w = Done tt w ∧
  ∃ w' evs,
    sync fuel src dest w = Done tt w' ∧
    (∀ y, y ≠ [] → fs w' !! (dest ++ y) = None) ∧
    (∀ p, (p = dest ∨ ¬ (dest `prefix_of` p)) → fs w' !! p = fs w !! p) ∧
    log w' = log w ++ [Debug_syncing] ++ evs ++ [Debug_completed] ∧
    NoDup evs ∧
    ∀ e, e ∈ evs ↔
         (∃ n t c, e = Removed_file [n] ∧
                   fs w !! (dest ++ [n]) = Some (EFile t c)) ∨
         (∃ n, e = Removed_directory [n] ∧
               fs w !! (dest ++ [n]) = Some EDir).
Proof.
  intros Hwf Hs Hone. split.
  { unfold phase_a. apply walk_not_dir. congruence. }
  destruct (sync_missing_source fuel src dest w)
    as (w' & evs & Hrun & _ & Hin & Hfr & Hlog & Hnd & Hev); [done..|].
  exists w', evs. split_and!; try done.
  - intros p Hp. apply Hfr. by apply outside_frame.
  - intros e. rewrite Hev. split.
    + intros (n & He).
      destruct (fs w !! (dest ++ [n])) as [[t c|]|] eqn:E; simpl in He.
      * apply list_elem_of_singleton in He. left. eauto.
      * apply list_elem_of_singleton in He. right. eauto.
      * by apply elem_of_nil in He.
    + intros [(n & t & c & -> & E)|(n & -> & E)]; exists n; rewrite E;
        by apply list_elem_of_singleton.
Qed.

(** A pass whose source root cannot be listed: it does not exist, or it is
    a regular file (outside the destination). *)
Lemma sync_unlistable_source fuel src dest w :
  wf (fs w) → fs w !! src ≠ Some EDir →
  (is_Some (fs w !! src) → ¬ dest `prefix_of` src) → (1 ≤ fuel)%nat →
  ∃ w' evs,
    sync fuel src dest w = Done tt w' ∧ wf (fs w') ∧
    (∀ y, y ≠ [] → fs w' !! (dest ++ y) = None) ∧
    (∀ p, (∀ y, y ≠ [] → p ≠ dest ++ y) → fs w' !! p = fs w !! p) ∧
    log w' = log w ++ [Debug_syncing] ++ evs ++ [Debug_completed] ∧
    ∀ e, e ∈ evs → (∃ x, e = Removed_file x) ∨ (∃ x, e = Removed_directory x).
Proof.
  intros Hwf Hs Hout Hone.
  set (w0 := World (fs w) (log w ++ [Debug_syncing])).
  assert (Hsb : ∀ x, x ≠ [] → fs w !! (src ++ x) = None).
  { intros x Hx. by apply wf_below_None. }
  destruct (phase_b_ok src dest fuel w0)
    as (wb & Hrunb & Hwfb & Hinb & Hfrb & evs & Hlogb & _ & Hevb);
    [done| |done| |].
  { intros [|n x] Hx; [rewrite app_nil_r in *; by apply Hout|]. simpl in Hx.
    rewrite Hsb in Hx by done. by destruct Hx. }
  { intros [|n x] Hx; [simpl; lia|]. simpl in Hx.
    rewrite Hsb in Hx by done. by destruct Hx. }
  exists (World (fs wb) (log wb ++ [Debug_completed])), evs.
  split_and!; try done.
  - unfold sync, bind, logger, phase_a. fold w0.
    rewrite walk_not_dir by done. by rewrite Hrunb.
  - intros y Hy. simpl. rewrite Hinb, Hsb by done.
    rewrite bool_decide_false; [done|]. by intros [??].
  - simpl. rewrite Hlogb. simpl. by rewrite <- !app_assoc.
  - intros e (y & n & _ & He)%Hevb. simpl in He.
    rewrite (Hsb (y ++ [n])) in He by (by destruct y).
    destruct (fs w !! (dest ++ y ++ [n])) as [[]|]; simpl in He;
      [apply list_elem_of_singleton in He; eauto..|].
    by apply elem_of_nil in He.
Qed.

(** C3, as the code has it.  A source root that does not exist or cannot be
    listed (in the model: no entry, or a regular file outside the
    destination) is not an error.  With an interval that [time.sleep]
    accepts, every round of the loop of lines 170-173 runs its pass to the
    normal end and sleeps, and the loop goes on: after any number of rounds
    the program is still running, each pass has logged its completion
    record, nothing was reported, no entry was created or modified, the
    destination was pruned until nothing is left below its root, and
    everything outside the destination is untouched. *)
Theorem missing_source_is_not_an_error
    sleep_max interval passes fuel src dest w :
  0 ≤ interval ≤ sleep_max →
  wf (fs w) → fs w !! src ≠ Some EDir →
  (is_Some (fs w !! src) → ¬ dest `prefix_of` src) → (1 ≤ fuel)%nat →
  ∃ w' new,
    run_loop sleep_max passes fuel src dest interval w = Still_running w' ∧
    log w' = log w ++ new ∧
    count_occ record_eq_dec new Debug_completed = passes ∧
    (∀ x, (Created_directory x ∉ new) ∧ (Created_file x ∉ new) ∧
          (Modified_file x ∉ new)) ∧
    ((1 ≤ passes)%nat → ∀ y, y ≠ [] → fs w' !! (dest ++ y) = None) ∧
    (∀ p, (p = dest ∨ ¬ (dest `prefix_of` p)) → fs w' !! p = fs w !! p).
Proof.
  intros Hok Hwf Hs Hout Hone. revert w Hwf Hs Hout.
  induction passes as [|k IH]; intros w Hwf Hs Hout.
  { exists w, []. rewrite app_nil_r. split_and!; try done; [|lia].
    intros x. split_and!; apply not_elem_of_nil. }
  destruct (sync_unlistable_source fuel src dest w)
    as (w1 & evs & Hrun & Hwf1 & Hin & Hfr & Hlog & Hevs); [done..|].
  assert (Hsame : is_Some (fs w1 !! src) → fs w1 !! src = fs w !! src).
  { intros Hsome. destruct (below_dec dest [] src) as [(y & Hy & E)|Hn].
    - simpl in E. rewrite E, Hin in Hsome by done. by destruct Hsome.
    - by apply Hfr. }
  assert (Hs1 : fs w1 !! src ≠ Some EDir).
  { intros E. apply Hs. rewrite <- Hsame; [done|by rewrite E]. }
  assert (Hout1 : is_Some (fs w1 !! src) → ¬ dest `prefix_of` src).
  { intros Hsome. apply Hout. by rewrite <- Hsame. }
  destruct (IH w1 Hwf1 Hs1 Hout1)
    as (w' & new & Hrun' & Hlog' & Hcnt & Hno & Hin' & Hfr').
  assert (Hc0 : count_occ record_eq_dec evs Debug_completed = 0%nat).
  { apply count_occ_not_In. intros Hi%list_elem_of_In.
    destruct (Hevs _ Hi) as [[??]|[??]]; done. }
  exists w', ([Debug_syncing] ++ evs ++ [Debug_completed] ++ new).
  split_and!.
  - simpl. rewrite Hrun. unfold time_sleep.
    by rewrite bool_decide_true by done.
  - rewrite Hlog', Hlog. by rewrite <- !app_assoc.
  - by rewrite !count_occ_app, Hc0, Hcnt.
  - intros x. destruct (Hno x) as (H1 & H2 & H3).
    rewrite !elem_of_app, !list_elem_of_singleton.
    split_and!; intros [|[Hi|[|]]]; try done;
      destruct (Hevs _ Hi) as [[??]|[??]]; done.
  - intros _ y Hy. destruct k as [|k].
    + simpl in Hrun'. injection Hrun' as <-. by apply Hin.
    + apply Hin'; [lia|done].
  - intros p Hp. rewrite Hfr' by done. apply Hfr. by apply outside_frame.
Qed.


















Lemma elem_of_prefixes p q : q ∈ prefixes p ↔ q `prefix_of` p.
Proof.
  revert q. induction p as [|a p IH]; intros q; simpl.
  - rewrite list_elem_of_singleton. split; [intros ->; done|].
    apply prefix_nil_inv.
  - rewrite elem_of_cons, list_elem_of_fmap. split.
    + intros [->|(q' & -> & Hq')]; [apply prefix_nil|].
      apply prefix_cons. by apply IH.
    + destruct q as [|b q]; [by left|]. intros H. right.
      pose proof (prefix_cons_inv_1 _ _ _ _ H) as ->.
      apply prefix_cons_inv_2 in H. exists q. split; [done|]. by apply IH.
Qed.

Lemma no_file_aboveb_sound m p :
  no_file_aboveb m p = true →
  ∀ q t c, q `prefix_of` p → m !! q ≠ Some (EFile t c).
Proof.
  unfold no_file_aboveb. rewrite forallb_forall. intros H q t c Hq E.
  specialize (H q). rewrite E in H. discriminate H.
  by apply list_elem_of_In, elem_of_prefixes.
Qed.

Lemma missing_prefix_snoc (m : gmap (list string) entry) l x p :
  p ≠ l ++ [x] →
  p `prefix_of` l ++ [x] ∧ m !! p = None ↔ p `prefix_of` l ∧ m !! p = None.
Proof.
  intros Hne. split; intros [Hp E]; (split; [|done]).
  - by apply prefix_snoc_inv in Hp as [|].
  - by apply prefix_app_r.
Qed.

(** [os.makedirs] on a path none of whose ancestors is a regular file:
    every missing ancestor, and the path itself, becomes a directory. *)
Lemma makedirs_rev_ok rname w :
  wf (fs w) →
  (∀ q t c, q `prefix_of` rev rname → fs w !! q ≠ Some (EFile t c)) →
  ∃ w', makedirs_rev rname w = Done tt w' ∧ log w' = log w ∧ wf (fs w') ∧
    ∀ p, fs w' !! p
         = if bool_decide (p `prefix_of` rev rname ∧ fs w !! p = None)
           then Some EDir else fs w !! p.
Proof.
  revert w. induction rname as [|tail rhead IH]; intros w Hwf Hnf.
  { exists w. split_and!; try done. intros p.
    rewrite bool_decide_false; [done|]. intros [Hp%prefix_nil_inv E].
    subst. destruct Hwf as [Hroot _]. congruence. }
  simpl in Hnf |- *.
  set (o := match rhead with
            | [] => Done () w
            | _ :: _ =>
              if bool_decide (is_Some (fs w !! rev rhead)) then Done () w
              else match makedirs_rev rhead w with
                   | Raised (FileExistsError _) w' => Done () w'
                   | o => o
                   end
            end).
  assert (Ho : ∃ w1, o = Done tt w1 ∧ log w1 = log w ∧ wf (fs w1) ∧
            ∀ p, fs w1 !! p
                 = if bool_decide (p `prefix_of` rev rhead ∧ fs w !! p = None)
                   then Some EDir else fs w !! p).
  { assert (Hex : is_Some (fs w !! rev rhead) →
              ∀ p, fs w !! p
                   = if bool_decide (p `prefix_of` rev rhead ∧ fs w !! p = None)
                     then Some EDir else fs w !! p).
    { intros Hs p. rewrite bool_decide_false; [done|].
      intros [[k Hk] E]. rewrite Hk in Hs.
      apply wf_exists_prefix in Hs; [|done]. rewrite E in Hs. by destruct Hs. }
    unfold o. destruct rhead as [|a rh].
    - exists w. split_and!; try done. apply Hex. simpl.
      destruct Hwf as [-> _]. eauto.
    - case_bool_decide as Hs.
      + exists w. split_and!; try done. by apply Hex.
      + destruct (IH w) as (w1 & Hrun & Hlog & Hwf1 & Hfs); [done| |].
        { intros q t c Hq. apply Hnf. by apply prefix_app_r. }
        exists w1. by rewrite Hrun. }
  destruct Ho as (w1 & -> & Hlog1 & Hwf1 & Hfs1).
  set (name := rev rhead ++ [tail]) in *.
  assert (Hname1 : fs w1 !! name = fs w !! name).
  { rewrite Hfs1, bool_decide_false; [done|].
    intros [Hp _]. by apply prefix_snoc_not in Hp. }
  assert (Hhead1 : fs w1 !! rev rhead = Some EDir).
  { rewrite Hfs1. case_bool_decide as Hc; [done|].
    destruct (fs w !! rev rhead) as [[t c|]|] eqn:E; [|done|].
    - destruct (Hnf (rev rhead) t c); [by apply prefix_app_r|done].
    - destruct Hc. done. }
  unfold mkdir. rewrite Hname1.
  destruct (fs w !! name) as [[t c|]|] eqn:En.
  - by destruct (Hnf name t c).
  - rewrite bool_decide_true by congruence.
    exists w1. split_and!; try done. intros p. rewrite Hfs1.
    destruct (decide (p = name)) as [->|Hne].
    { rewrite En. by repeat destruct (bool_decide _). }
    unfold name. by rewrite (bool_decide_ext _ _ (missing_prefix_snoc _ _ _ _ Hne)).
  - unfold name at 1. rewrite parent_snoc, Hhead1.
    eexists. split; [done|]. simpl. split_and!; try done.
    + apply wf_insert; auto.
    + intros p. destruct (decide (p = name)) as [->|Hne].
      * rewrite lookup_insert_eq, bool_decide_true; done.
      * rewrite lookup_insert_ne by done. rewrite Hfs1. unfold name.
        by rewrite (bool_decide_ext _ _ (missing_prefix_snoc _ _ _ _ Hne)).
Qed.

(** C7, as the code has it.  For a subdirectory [d] of the walked source
    directory at [r] (so never the source root itself), with no regular
    file among the ancestors of its destination path: when nothing exists
    at the destination path, that directory and every missing ancestor are
    created and [Created_directory] is logged for the directory; when
    something exists there, nothing is written and nothing is logged. *)
Theorem create_dir_step src dest r d w :
  wf (fs w) →
  (∀ q t c, q `prefix_of` dest ++ r → fs w !! q ≠ Some (EFile t c)) →
  ∃ w', create_dir src dest (src ++ r) d w = Done tt w' ∧
    (∀ p, fs w' !! p
          = if bool_decide (p `prefix_of` dest ++ r ++ [d] ∧ fs w !! p = None)
            then Some EDir else fs w !! p) ∧
    log w' = log w ++
      (if bool_decide (fs w !! (dest ++ r ++ [d]) = None)
       then [Created_directory (r ++ [d])] else []).
Proof.
  intros Hwf Hnf. unfold create_dir.
  replace (join (src ++ r) [d]) with (join src (r ++ [d]))
    by (unfold join; by rewrite app_assoc).
  rewrite !relpath_join. unfold join, bind, path_exists, when. norm.
  destruct (fs w !! (dest ++ r ++ [d])) as [e|] eqn:Ed; simpl.
  - exists w. rewrite app_nil_r. split_and!; try done.
    intros p. rewrite bool_decide_false; [done|].
    intros [[k Hk] E]. rewrite Hk in Ed.
    assert (Hs : is_Some (fs w !! p)).
    { apply (wf_exists_prefix _ _ k); [done|]. by rewrite Ed. }
    rewrite E in Hs. by destruct Hs.
  - destruct (makedirs_rev_ok (rev (dest ++ r ++ [d])) w)
      as (w1 & Hrun & Hlog & _ & Hfs); [done| |].
    { rewrite rev_involutive. rewrite app_assoc.
      intros q t c [Hq| ->]%prefix_snoc_inv.
      - by apply Hnf.
      - rewrite <- app_assoc. congruence. }
    rewrite rev_involutive in Hfs.
    unfold makedirs. rewrite Hrun. unfold logger. simpl.
    eexists. split; [done|]. simpl. by rewrite Hlog.
Qed.

(** C8, for disjoint roots whose entries agree in kind.  The second loop
    starts in the world the first loop ended in; it removes no destination
    entry whose relative path exists in the source; so a source file without
    counterpart is created by the first loop and is still there when the
    pass ends. *)
Theorem create_before_prune fuel src dest w :
  disjoint_roots src dest → wf (fs w) →
  fs w !! src = Some EDir → fs w !! dest = Some EDir →
  consistent (fs w) src dest → fits fuel (fs w) src →
  ∃ wa wb,
    phase_a fuel src dest (World (fs w) (log w ++ [Debug_syncing]))
      = Done tt wa ∧
    phase_b fuel src dest wa = Done tt wb ∧
    sync fuel src dest w
      = Done tt (World (fs wb) (log wb ++ [Debug_completed])) ∧
    (∀ x, is_Some (fs wa !! (src ++ x)) →
          fs wb !! (dest ++ x) = fs wa !! (dest ++ x)) ∧
    (∀ x t c, fs w !! (src ++ x) = Some (EFile t c) →
              fs w !! (dest ++ x) = None →
              fs wa !! (dest ++ x) = Some (EFile t c) ∧
              fs wb !! (dest ++ x) = Some (EFile t c)).
Proof.
  intros Hdisj Hwf Hs Hd Hcons Hfit.
  set (w0 := World (fs w) (log w ++ [Debug_syncing])).
  destruct (phase_a_ok src dest fuel w0)
    as (wa & Hruna & Hwfa & Hina & Hfra & _); [done..|].
  simpl in *.
  pose proof (disjoint_source_same _ _ _ _ Hdisj Hfra) as Hsrca.
  destruct (phase_b_ok src dest fuel wa)
    as (wb & Hrunb & Hwfb & Hinb & Hfrb & _).
  { done. }
  { by apply disjoint_source_outside. }
  { specialize (Hfit []). rewrite app_nil_r, Hs in Hfit.
    assert (length (@nil string) < fuel)%nat by (apply Hfit; eauto).
    simpl in *. lia. }
  { intros x. rewrite Hsrca. apply Hfit. }
  assert (Hkeep : ∀ x, is_Some (fs wa !! (src ++ x)) →
                       fs wb !! (dest ++ x) = fs wa !! (dest ++ x)).
  { intros [|n x] Hx.
    - apply Hfrb. intros y. rewrite app_nil_r. by apply not_self_below.
    - rewrite Hinb by done. by rewrite bool_decide_true. }
  exists wa, wb. split_and!; try done.
  - unfold sync, bind, logger. fold w0. by rewrite Hruna, Hrunb.
  - intros x t c Hx Hdx.
    assert (Hax : fs wa !! (dest ++ x) = Some (EFile t c)).
    { destruct x as [|n x]; [rewrite app_nil_r in *; congruence|].
      by rewrite Hina, Hx, Hdx. }
    split; [done|]. rewrite Hkeep; [done|]. rewrite Hsrca, Hx. eauto.
Qed.

(** C9, as the code has it.  On disjoint roots, let a destination directory
    at [y ++ [n]] have no counterpart of any kind in the source, its parent
    being the destination root or having one.  Then the second loop ends
    normally, nothing is left at or below that path, exactly one
    [Removed_directory] record is logged for it, and no record at all is
    logged for anything below it. *)
Theorem stale_directory_removed_once fuel src dest w y n :
  disjoint_roots src dest → wf (fs w) →
  (1 ≤ fuel)%nat → fits fuel (fs w) src →
  y = [] ∨ is_Some (fs w !! (src ++ y)) →
  fs w !! (dest ++ y ++ [n]) = Some EDir →
  fs w !! (src ++ y ++ [n]) = None →
  ∃ w' evs,
    phase_b fuel src dest w = Done tt w' ∧ log w' = log w ++ evs ∧
    (∀ z, fs w' !! (dest ++ y ++ n :: z) = None) ∧
    count_occ record_eq_dec evs (Removed_directory (y ++ [n])) = 1%nat ∧
    (∀ e z, e ∈ evs → z ≠ [] → record_path e ≠ y ++ n :: z).
Proof.
  intros Hdisj Hwf Hone Hfit Hy Hd Hs.
  destruct (phase_b_ok src dest fuel w)
    as (w' & Hrun & _ & Hin & _ & evs & Hlog & Hnd & Hev);
    [done|by apply disjoint_source_outside|done|done|].
  assert (Hsb : ∀ z, fs w !! (src ++ y ++ n :: z) = None).
  { intros z.
    pose proof (missing_below (fs w) (src ++ y ++ [n]) z Hwf Hs) as Hb.
    by norm_in Hb. }
  exists w', evs. split_and!; try done.
  - intros z. rewrite Hin by (by destruct y). rewrite Hsb.
    rewrite bool_decide_false; [done|]. by intros [??].
  - apply NoDup_ListNoDup in Hnd.
    apply (proj1 (NoDup_count_occ' record_eq_dec evs) Hnd).
    apply list_elem_of_In, Hev.
    exists y, n. split; [done|]. rewrite Hs, Hd. by apply list_elem_of_singleton.
  - intros e z He Hz Hp. apply Hev in He as (y' & n' & Hy' & He).
    apply removed_path in He. rewrite He in Hp.
    destruct z as [|a z _] using rev_ind; [done|].
    replace (y ++ n :: z ++ [a]) with ((y ++ n :: z) ++ [a]) in Hp
      by (by rewrite <- app_assoc).
    apply app_inj_tail in Hp as [-> ->].
    destruct Hy' as [Hy'|Hy']; [by destruct y|].
    rewrite Hsb in Hy'. by destruct Hy'.
Qed.

Lemma disjoint_not_near src dest x :
  disjoint_roots src dest → ¬ near dest (src ++ x).
Proof.
  intros [Hsd Hds] [[z Hz]|Hp].
  - assert (Ha : src `prefix_of` dest ++ z)
      by (etrans; [|exact Hz]; by apply prefix_app_r).
    assert (Hb : dest `prefix_of` dest ++ z) by (by apply prefix_app_r).
    destruct (prefix_weak_total _ _ _ Ha Hb); auto.
  - assert (Ha : src `prefix_of` src ++ x) by (by apply prefix_app_r).
    destruct (prefix_weak_total _ _ _ Ha Hp); auto.
Qed.

(** C10, for disjoint roots.  However a pass ends (normally, with an
    exception, or cut off by the fuel of the model), every path at or below
    the source root holds the same entry as before the pass. *)
Theorem source_untouched fuel src dest w :
  disjoint_roots src dest →
  ∀ x, fs (world_of (sync fuel src dest w)) !! (src ++ x)
       = fs w !! (src ++ x).
Proof.
  intros Hdisj x. destruct (sync_footprint src dest fuel w) as [Hw _].
  destruct (decide (fs (world_of (sync fuel src dest w)) !! (src ++ x)
                    = fs w !! (src ++ x))) as [E|E]; [done|].
  apply Hw in E. by apply disjoint_not_near in E.
Qed.

(** Running the pass again on its own result. *)

Lemma synced_idem s d : synced s (synced s d) = synced s d.
Proof.
  destruct s as [[ts cs|]|], d as [[td cd|]|]; simpl; try done.
  - destruct (bool_decide (td < ts)) eqn:E; simpl; [|by rewrite E].
    rewrite bool_decide_false; [done|lia].
  - rewrite bool_decide_false; [done|lia].
Qed.

Lemma created_synced x s d : created x s (synced s d) = [].
Proof.
  destruct s as [[ts cs|]|], d as [[td cd|]|]; simpl; try done.
  - destruct (bool_decide (td < ts)) eqn:E; simpl; [|by rewrite E].
    rewrite bool_decide_false; [done|lia].
  - rewrite bool_decide_false; [done|lia].
Qed.

Lemma removed_synced x s d : removed x s (synced s d) = [].
Proof.
  destruct s as [[ts cs|]|], d as [[td cd|]|]; simpl; try done;
    by destruct (bool_decide _).
Qed.

Lemma synced_kind s d e e' :
  (∀ e0, d = Some e0 → is_dir e = is_dir e0) →
  s = Some e → synced s d = Some e' → is_dir e = is_dir e'.
Proof.
  intros Hd ->. destruct e as [ts cs|], d as [[td cd|]|]; simpl;
    try destruct (bool_decide _); intros [= <-]; try done; by apply Hd.
Qed.

(** ** Further properties of one pass *)

Section PassMore.

Variables src dest : list string.

(** X1.  One pass over two existing directories with disjoint roots whose
    common entries agree in kind, whatever the destination held before:
    the pass ends normally, and afterwards a relative path is missing below
    the destination when it is missing below the source, a directory when it
    is a directory there, and a regular file when it is one there.  That
    file is the source's (bytes and modification time) when the destination
    had nothing there or a strictly older file; a destination file that is
    as new as the source's or newer is left exactly as it was. *)
Theorem after_one_pass fuel w :
  disjoint_roots src dest → wf (fs w) →
  fs w !! src = Some EDir → fs w !! dest = Some EDir →
  consistent (fs w) src dest → fits fuel (fs w) src →
  ∃ w', sync fuel src dest w = Done tt w' ∧
    ∀ y, y ≠ [] →
      match fs w !! (src ++ y) with
      | None => fs w' !! (dest ++ y) = None
      | Some EDir => fs w' !! (dest ++ y) = Some EDir
      | Some (EFile ts cs) =>
        match fs w !! (dest ++ y) with
        | Some (EFile td cd) =>
          fs w' !! (dest ++ y)
          = Some (if bool_decide (td < ts) then EFile ts cs else EFile td cd)
        | _ => fs w' !! (dest ++ y) = Some (EFile ts cs)
        end
      end.
Proof.
  intros Hdisj Hwf Hs Hd Hcons Hfit.
  destruct (sync_ok src dest fuel w)
    as (w' & evsA & evsB & Hrun & _ & Hin & _); [done..|].
  exists w'. split; [done|]. intros y Hy. rewrite (Hin y Hy).
  specialize (Hcons y).
  destruct (fs w !! (src ++ y)) as [[ts cs|]|],
           (fs w !! (dest ++ y)) as [[td cd|]|]; simpl; try done.
  - by destruct (bool_decide _).
  - by specialize (Hcons _ _ eq_refl eq_refl).
  - by specialize (Hcons _ _ eq_refl eq_refl).
Qed.

(** The first relative path on the way to [y] that the source lacks. *)
Lemma first_missing (m : gmap (list string) entry) y :
  is_Some (m !! src) → m !! (src ++ y) = None →
  ∃ y0 n rest, y = y0 ++ n :: rest ∧
               is_Some (m !! (src ++ y0)) ∧ m !! (src ++ y0 ++ [n]) = None.
Proof.
  intros Hs. induction y as [|n y IH] using rev_ind; intros Hy.
  { rewrite app_nil_r in Hy. rewrite Hy in Hs. by destruct Hs. }
  destruct (m !! (src ++ y)) as [e|] eqn:E.
  - exists y, n, []. split_and!; [done|by rewrite E|done].
  - destruct (IH eq_refl) as (y0 & n0 & rest & -> & H0 & H1).
    exists y0, n0, (rest ++ [n]). split_and!; [|done..].
    by rewrite <- app_assoc.
Qed.

(** X2.  For disjoint roots that are both existing directories and whose
    common entries agree in kind, in a well-formed file system and with a
    walk deep enough for the source tree, the pass completes and its change
    events are a complete and exact account of what it did:
    every path whose entry differs after the pass lies below the
    destination root and has a change event at its relative path or at one
    of its ancestors (a removed directory is reported once, for its root);
    and every change event names a relative path whose destination entry
    did change. *)
Theorem the_log_accounts_for_every_change fuel w :
  disjoint_roots src dest → wf (fs w) →
  fs w !! src = Some EDir → fs w !! dest = Some EDir →
  consistent (fs w) src dest → fits fuel (fs w) src →
  ∃ w' new, sync fuel src dest w = Done tt w' ∧ log w' = log w ++ new ∧
    (∀ p, fs w' !! p ≠ fs w !! p →
       ∃ r y, r ∈ new ∧ is_event r = true ∧ p = dest ++ y ∧
              record_path r `prefix_of` y) ∧
    (∀ r, r ∈ new → is_event r = true →
       fs w' !! (dest ++ record_path r) ≠ fs w !! (dest ++ record_path r)).
Proof.
  intros Hdisj Hwf Hs Hd Hcons Hfit.
  destruct (sync_ok src dest fuel w)
    as (w' & evsA & evsB & Hrun & _ & Hin & Hfr & Hlog & _ & _ & HevA & HevB);
    [done..|].
  exists w', ([Debug_syncing] ++ evsA ++ evsB ++ [Debug_completed]).
  split_and!; [done..| |].
  - intros p Hp.
    destruct (below_dec dest [] p) as [(y & Hy & ->)|Hout];
      [|by rewrite Hfr in Hp].
    simpl in Hp. rewrite (Hin y Hy) in Hp.
    destruct (fs w !! (src ++ y)) as [e|] eqn:Ey.
    + assert (Hc : ∃ r, r ∈ created y (Some e) (fs w !! (dest ++ y)) ∧
                        is_event r = true ∧ record_path r = y).
      { destruct e as [ts cs|], (fs w !! (dest ++ y)) as [[td cd|]|];
          simpl in *; try done.
        - destruct (bool_decide (td < ts)); [|done].
          eexists. split; [by apply list_elem_of_singleton|done].
        - eexists. split; [by apply list_elem_of_singleton|done].
        - eexists. split; [by apply list_elem_of_singleton|done]. }
      destruct Hc as (r & Hr & Hev & Hpath). exists r, y.
      split_and!; [|done|done|by rewrite Hpath].
      rewrite !elem_of_app. right. left. apply HevA. exists y.
      by rewrite Ey.
    + simpl in Hp.
      destruct (first_missing (fs w) y) as (y0 & n & rest & -> & H0 & H1);
        [by rewrite Hs|done|].
      assert (Hx : is_Some (fs w !! (dest ++ y0 ++ [n]))).
      { apply (wf_exists_prefix _ _ rest); [done|].
        rewrite <- !app_assoc. simpl.
        destruct (fs w !! (dest ++ y0 ++ n :: rest)); [eauto|done]. }
      destruct Hx as [e He].
      assert (Hc : ∃ r, r ∈ removed (y0 ++ [n]) None (Some e) ∧
                        is_event r = true ∧ record_path r = y0 ++ [n]).
      { destruct e; eexists; (split; [by apply list_elem_of_singleton|done]). }
      destruct Hc as (r & Hr & Hev & Hpath). exists r, (y0 ++ n :: rest).
      split_and!; [|done|done|].
      * rewrite !elem_of_app. right. right. left. apply HevB.
        exists y0, n. split.
        -- destruct y0; [by left|by right].
        -- by rewrite H1, He.
      * rewrite Hpath. exists rest. by rewrite <- app_assoc.
  - intros r Hr Hev. rewrite !elem_of_app, !list_elem_of_singleton in Hr.
    destruct Hr as [->|[Hr|[Hr| ->]]]; try done.
    + apply HevA in Hr as (y & Hy & Hr).
      destruct (fs w !! (src ++ y)) as [[ts cs|]|] eqn:Ey,
               (fs w !! (dest ++ y)) as [[td cd|]|] eqn:Ed; simpl in Hr;
        try (by apply elem_of_nil in Hr).
      * case_bool_decide as Hlt; [|by apply elem_of_nil in Hr].
        apply list_elem_of_singleton in Hr. subst r. simpl.
        rewrite (Hin y Hy), Ey, Ed. simpl. rewrite bool_decide_true by done.
        intros [= ??]. lia.
      * apply list_elem_of_singleton in Hr. subst r. simpl.
        by rewrite (Hin y Hy), Ey, Ed.
      * apply list_elem_of_singleton in Hr. subst r. simpl.
        by rewrite (Hin y Hy), Ey, Ed.
    + apply HevB in Hr as (y & n & Hy & Hr).
      destruct (fs w !! (dest ++ y ++ [n])) as [e|] eqn:Ed,
               (fs w !! (src ++ y ++ [n])) as [e'|] eqn:Es;
        try destruct e; simpl in Hr; try (by apply elem_of_nil in Hr);
        apply list_elem_of_singleton in Hr; subst r; simpl;
        rewrite Hin by (by destruct y); by rewrite Es, Ed.
Qed.

End PassMore.
(** ** Roots that coincide, or are not directories *)

Lemma for_each_idle {A} (l : list A) (f : A → M unit) w :
  (∀ x, x ∈ l → f x w = Done tt w) → for_each l f w = Done tt w.
Proof.
  induction l as [|x l IH]; intros H; [done|]. simpl. unfold bind.
  rewrite H by (by left). apply IH. intros y Hy. apply H. by right.
Qed.

(** A walk whose body does nothing does nothing. *)
Lemma walk_idle body fuel : ∀ top w,
  (∀ top', top `prefix_of` top' →
     body top' (dirs_of (listdir (fs w) top'))
          (nondirs_of (listdir (fs w) top')) w = Done tt w) →
  fits fuel (fs w) top →
  walk fuel body top w = Done tt w.
Proof.
  induction fuel as [|n IH]; intros top w Hbody Hfit; rewrite walk_unfold;
    unfold scandir; destruct (fs w !! top) as [[]|] eqn:Et; try done.
  - specialize (Hfit []). rewrite app_nil_r, Et in Hfit.
    assert (length (@nil string) < 0)%nat by (apply Hfit; eauto).
    simpl in *. lia.
  - unfold bind. rewrite Hbody by done. apply for_each_idle.
    intros d Hd. apply IH.
    + intros top' Ht. apply Hbody. etrans; [|exact Ht].
      unfold join. by apply prefix_app_r.
    + intros x Hx. unfold join in Hx. rewrite <- app_assoc in Hx.
      apply Hfit in Hx. simpl in Hx. lia.
Qed.

Lemma create_update_self p top w :
  p `prefix_of` top →
  create_update p p top (dirs_of (listdir (fs w) top))
                (nondirs_of (listdir (fs w) top)) w = Done tt w.
Proof.
  intros [r ->]. unfold create_update, bind.
  rewrite for_each_idle.
  - apply for_each_idle. intros f (t & c & Hf)%elem_of_nondirs_of.
    unfold copy_file.
    replace (join (p ++ r) [f]) with (join p (r ++ [f]))
      by (unfold join; by rewrite app_assoc).
    rewrite relpath_join. unfold join, bind, path_exists, getmtime, when.
    rewrite <- app_assoc in Hf. repeat (rewrite Hf; simpl).
    rewrite bool_decide_false; [done|lia].
  - intros d Hd%elem_of_dirs_of. unfold create_dir.
    replace (join (p ++ r) [d]) with (join p (r ++ [d]))
      by (unfold join; by rewrite app_assoc).
    rewrite !relpath_join. unfold join, bind, path_exists, when.
    rewrite <- app_assoc in Hd. by rewrite Hd.
Qed.

Lemma prune_self p top w :
  p `prefix_of` top →
  prune p p top (dirs_of (listdir (fs w) top))
        (nondirs_of (listdir (fs w) top)) w = Done tt w.
Proof.
  intros [r ->]. unfold prune, bind.
  rewrite for_each_idle.
  - apply for_each_idle. intros d Hd%elem_of_dirs_of. unfold prune_dir.
    replace (join (p ++ r) [d]) with (join p (r ++ [d]))
      by (unfold join; by rewrite app_assoc).
    rewrite !relpath_join. unfold join, bind, path_exists, when.
    rewrite <- app_assoc in Hd. by rewrite Hd.
  - intros f (t & c & Hf)%elem_of_nondirs_of. unfold prune_file.
    replace (join (p ++ r) [f]) with (join p (r ++ [f]))
      by (unfold join; by rewrite app_assoc).
    rewrite !relpath_join. unfold join, bind, path_exists, when.
    rewrite <- app_assoc in Hf. by rewrite Hf.
Qed.

(** X3.  Synchronising a path onto itself, whatever lies there (a tree of
    any shape, a regular file, nothing): the pass ends normally, the file
    system is left exactly as it was, and only the two DEBUG records are
    logged.  No entry is copied, so [shutil.copy2] never gets to raise
    [SameFileError]. *)
Theorem sync_onto_itself fuel p w :
  fits fuel (fs w) p →
  sync fuel p p w
  = Done tt (World (fs w) (log w ++ [Debug_syncing; Debug_completed])).
Proof.
  intros Hfit. unfold sync, bind, logger, phase_a, phase_b.
  rewrite walk_idle; [|intros; by apply create_update_self|done].
  rewrite walk_idle; [|intros; by apply prune_self|done].
  simpl. by rewrite <- app_assoc.
Qed.

(** X5.  However a pass ends, and whatever the roots are, what it adds to
    the log is the start record, then change events only, and the
    completion record last exactly when the pass returns normally: a pass
    cut short by an exception leaves the start record without its
    completion record. *)
Theorem completion_record_tells_normal_end fuel src dest w :
  ∃ evs, Forall (λ r, is_event r = true) evs ∧
    log (world_of (sync fuel src dest w))
    = log w ++ Debug_syncing :: evs ++
      match sync fuel src dest w with
      | Done _ _ => [Debug_completed]
      | _ => []
      end.
Proof. apply sync_footprint. Qed.

(** X6.  When the source path is a regular file (outside the destination),
    the walk of the source yields nothing: the pass ends normally, the file
    is not copied, and the second loop removes every entry of the
    destination directory, one record for each entry found directly in its
    root; nothing outside the destination changes. *)
Theorem a_regular_file_as_source fuel src dest w t c :
  wf (fs w) → fs w !! src = Some (EFile t c) →
  ¬ dest `prefix_of` src → (1 ≤ fuel)%nat →
  ∃ w' evs,
    sync fuel src dest w = Done tt w' ∧
    (∀ y, y ≠ [] → fs w' !! (dest ++ y) = None) ∧
    (∀ p, ¬ inside p dest → fs w' !! p = fs w !! p) ∧
    log w' = log w ++ [Debug_syncing] ++ evs ++ [Debug_completed] ∧
    ∀ e, e ∈ evs ↔
         (∃ n t' c', e = Removed_file [n] ∧
                     fs w !! (dest ++ [n]) = Some (EFile t' c')) ∨
         (∃ n, e = Removed_directory [n] ∧
               fs w !! (dest ++ [n]) = Some EDir).
Proof.
  intros Hwf Hs Hout Hone.
  set (w0 := World (fs w) (log w ++ [Debug_syncing])).
  assert (Hsb : ∀ x, x ≠ [] → fs w !! (src ++ x) = None).
  { intros x Hx. apply wf_below_None; [done|congruence|done]. }
  destruct (phase_b_ok src dest fuel w0)
    as (wb & Hrunb & _ & Hinb & Hfrb & evs & Hlogb & _ & Hevb);
    [done| |done| |].
  { intros [|n x] Hx; [by rewrite app_nil_r|]. simpl in Hx.
    rewrite Hsb in Hx by done. by destruct Hx. }
  { intros [|n x] Hx; [simpl; lia|]. simpl in Hx.
    rewrite Hsb in Hx by done. by destruct Hx. }
  exists (World (fs wb) (log wb ++ [Debug_completed])), evs.
  split_and!.
  - unfold sync, bind, logger, phase_a. fold w0.
    rewrite walk_not_dir by (simpl; congruence). by rewrite Hrunb.
  - intros y Hy. simpl. rewrite Hinb, Hsb by done.
    rewrite bool_decide_false; [done|]. by intros [??].
  - intros p Hp. simpl. apply Hfrb. intros y Hy ->. apply Hp. by exists y.
  - simpl. rewrite Hlogb. simpl. by rewrite <- !app_assoc.
  - intros e. rewrite Hevb. simpl. split.
    + intros (y & n & Hy & He).
      assert (y = []) as ->.
      { destruct Hy as [|Hy], y as [|a y]; try done.
        rewrite (Hsb (a :: y)) in Hy by done. by destruct Hy. }
      simpl in He. rewrite (Hsb [n]) in He by done.
      destruct (fs w !! (dest ++ [n])) as [[t' c'|]|] eqn:E; simpl in He.
      * apply list_elem_of_singleton in He. left. eauto.
      * apply list_elem_of_singleton in He. right. eauto.
      * by apply elem_of_nil in He.
    + intros [(n & t' & c' & -> & E)|(n & -> & E)]; exists [], n;
        (split; [by left|]); simpl; rewrite (Hsb [n]) by done; rewrite E;
        by apply list_elem_of_singleton.
Qed.
(** ** What a pass never does outside the destination *)

Lemma kept_outside_refl dest m : kept_outside dest m m.
Proof. intros p _. by left. Qed.

Lemma kept_outside_trans dest m1 m2 m3 :
  kept_outside dest m1 m2 → kept_outside dest m2 m3 →
  kept_outside dest m1 m3.
Proof.
  intros H12 H23 p Hp.
  destruct (H12 p Hp) as [E|(E1 & E2 & Hpre)],
           (H23 p Hp) as [E'|(E1' & E2' & Hpre')].
  - left. congruence.
  - right. split_and!; [congruence|done..].
  - right. split_and!; [done|congruence|done].
  - congruence.
Qed.

(** Writing at or below a path strictly inside the destination. *)
Lemma kept_outside_below (dest q : list string)
    (m m' : gmap (list string) entry) :
  q ≠ [] → (∀ p, m' !! p ≠ m !! p → dest ++ q `prefix_of` p) →
  kept_outside dest m m'.
Proof.
  intros Hq Hw p Hp. left.
  destruct (decide (m' !! p = m !! p)) as [|Hne]; [done|].
  apply Hw in Hne as [k ->]. destruct Hp. exists (q ++ k).
  split; [by destruct q|by rewrite app_assoc].
Qed.

Section Outside.

Variables src dest : list string.

Lemma create_dir_outside root dir w :
  src `prefix_of` root →
  kept_outside dest (fs w) (fs (world_of (create_dir src dest root dir w))).
Proof.
  intros [r ->]. unfold create_dir.
  replace (join (src ++ r) [dir]) with (join src (r ++ [dir]))
    by (unfold join; by rewrite app_assoc).
  rewrite !relpath_join. unfold join, bind, path_exists, when.
  destruct (negb _); simpl; [|apply kept_outside_refl].
  set (dp := dest ++ r ++ [dir]).
  assert (H : kept_outside dest (fs w) (fs (world_of (makedirs dp w)))).
  { intros p Hp.
    destruct (makedirs_rev_dirs_added (rev dp) w p) as [E|[E1 E2]];
      fold (makedirs dp) in *; [by left|].
    right. split_and!; [done..|].
    assert (Hpre : p `prefix_of` dp)
      by (apply (makedirs_writes dp w); congruence).
    destruct (prefix_weak_total p dest dp Hpre) as [|[k ->]];
      [by apply prefix_app_r|done|].
    destruct k as [|a k]; [by rewrite app_nil_r|].
    destruct Hp. by exists (a :: k). }
  by destruct (makedirs dp w) as [[] w1|e w1|w1].
Qed.

Lemma copy_file_outside root file w :
  src `prefix_of` root →
  kept_outside dest (fs w) (fs (world_of (copy_file src dest root file w))).
Proof.
  intros [r ->].
  assert (Hcopy : ∀ rc,
    kept_outside dest (fs w)
      (fs (world_of (match copy2 (src ++ r ++ [file]) (dest ++ r ++ [file]) w
                     with
                     | Done _ w' => logger rc w'
                     | Raised e w' => Raised e w'
                     | Cutoff w' => Cutoff w'
                     end)))).
  { intros rc.
    pose proof (copy2_writes (src ++ r ++ [file]) (dest ++ r ++ [file]) w)
      as Hw.
    apply (kept_outside_below dest (r ++ [file])); [by destruct r|].
    intros p Hp. apply Hw.
    by destruct (copy2 _ _ w) as [[] w1|e w1|w1]. }
  unfold copy_file.
  replace (join (src ++ r) [file]) with (join src (r ++ [file]))
    by (unfold join; by rewrite app_assoc).
  rewrite !relpath_join. unfold join, bind, path_exists, getmtime, when. norm.
  destruct (negb _); simpl; [by apply Hcopy|].
  destruct (fs w !! (src ++ r ++ [file])) as [[t c|]|]; simpl;
    try apply kept_outside_refl;
    destruct (fs w !! (dest ++ r ++ [file])) as [[t' c'|]|]; simpl;
    try apply kept_outside_refl;
    destruct (bool_decide _); simpl; try apply kept_outside_refl;
    by apply Hcopy.
Qed.

Lemma prune_file_outside root file w :
  dest `prefix_of` root →
  kept_outside dest (fs w) (fs (world_of (prune_file src dest root file w))).
Proof.
  intros [r ->]. unfold prune_file, bind, path_exists, when.
  destruct (negb _); simpl; [|apply kept_outside_refl].
  pose proof (remove_writes (join (dest ++ r) [file]) w) as Hw.
  apply (kept_outside_below dest (r ++ [file])); [by destruct r|].
  intros p Hp. rewrite app_assoc. apply Hw.
  by destruct (remove _ w) as [[] w1|e w1|w1].
Qed.

Lemma prune_dir_outside root dir w :
  dest `prefix_of` root →
  kept_outside dest (fs w) (fs (world_of (prune_dir src dest root dir w))).
Proof.
  intros [r ->]. unfold prune_dir, bind, path_exists, when.
  destruct (negb _); simpl; [|apply kept_outside_refl].
  pose proof (rmtree_writes (join (dest ++ r) [dir]) w) as Hw.
  apply (kept_outside_below dest (r ++ [dir])); [by destruct r|].
  intros p Hp. rewrite app_assoc. apply Hw.
  by destruct (rmtree _ w) as [[] w1|e w1|w1].
Qed.

Lemma for_each_outside {A} (l : list A) (body : A → M unit) w :
  (∀ x w1, kept_outside dest (fs w1) (fs (world_of (body x w1)))) →
  kept_outside dest (fs w) (fs (world_of (for_each l body w))).
Proof.
  intros Hb.
  apply (for_each_world (λ w', kept_outside dest (fs w) (fs w')));
    [|apply kept_outside_refl].
  intros x w1 H1. eapply kept_outside_trans; [exact H1|apply Hb].
Qed.

Lemma phase_a_outside fuel w :
  kept_outside dest (fs w) (fs (world_of (phase_a fuel src dest w))).
Proof.
  unfold phase_a.
  apply (walk_world (λ w', kept_outside dest (fs w) (fs w')) _ src);
    [|done|apply kept_outside_refl].
  intros top dirs files w1 Htop H1. eapply kept_outside_trans; [exact H1|].
  unfold create_update.
  apply (bind_world (λ w', kept_outside dest (fs w1) (fs w'))).
  - apply for_each_outside. intros. by apply create_dir_outside.
  - intros [] w2 E.
    assert (H2 : kept_outside dest (fs w1) (fs w2)).
    { pose proof (for_each_outside dirs (create_dir src dest top) w1) as H.
      rewrite E in H. apply H. intros. by apply create_dir_outside. }
    eapply kept_outside_trans; [exact H2|].
    apply for_each_outside. intros. by apply copy_file_outside.
Qed.

Lemma phase_b_outside fuel w :
  kept_outside dest (fs w) (fs (world_of (phase_b fuel src dest w))).
Proof.
  unfold phase_b.
  apply (walk_world (λ w', kept_outside dest (fs w) (fs w')) _ dest);
    [|done|apply kept_outside_refl].
  intros top dirs files w1 Htop H1. eapply kept_outside_trans; [exact H1|].
  unfold prune.
  apply (bind_world (λ w', kept_outside dest (fs w1) (fs w'))).
  - apply for_each_outside. intros. by apply prune_file_outside.
  - intros [] w2 E.
    assert (H2 : kept_outside dest (fs w1) (fs w2)).
    { pose proof (for_each_outside files (prune_file src dest top) w1) as H.
      rewrite E in H. apply H. intros. by apply prune_file_outside. }
    eapply kept_outside_trans; [exact H2|].
    apply for_each_outside. intros. by apply prune_dir_outside.
Qed.

Lemma sync_outside fuel w :
  kept_outside dest (fs w) (fs (world_of (sync fuel src dest w))).
Proof.
  unfold sync, bind, logger.
  set (w0 := World (fs w) (log w ++ [Debug_syncing])).
  pose proof (phase_a_outside fuel w0) as Ha.
  destruct (phase_a fuel src dest w0) as [[] wa|e wa|wa]; simpl in *;
    try done.
  pose proof (phase_b_outside fuel wa) as Hb.
  assert (H : kept_outside dest (fs w)
                (fs (world_of (phase_b fuel src dest wa))))
    by (by eapply kept_outside_trans).
  by destruct (phase_b fuel src dest wa) as [[] wb|e wb|wb].
Qed.

(** X4.  Whatever the two roots are (nested and equal roots included) and
    however the pass ends (normally, with an exception, or cut off), a path
    that is not strictly inside the destination root keeps the entry it
    had; the one exception is a missing ancestor of the destination root
    (or the missing root itself), which [os.makedirs] may create as a
    directory.  So outside the destination tree no file or directory is
    ever removed, overwritten or replaced. *)
Theorem outside_the_destination_nothing_is_lost fuel w p :
  ¬ inside p dest →
  fs (world_of (sync fuel src dest w)) !! p = fs w !! p ∨
  (fs w !! p = None ∧
   fs (world_of (sync fuel src dest w)) !! p = Some EDir ∧
   p `prefix_of` dest).
Proof. apply sync_outside. Qed.

End Outside.
(** ** What each loop never does *)

Lemma only_removes_refl m : only_removes m m.
Proof. intros p. by left. Qed.

Lemma only_removes_trans m1 m2 m3 :
  only_removes m1 m2 → only_removes m2 m3 → only_removes m1 m3.
Proof.
  intros H12 H23 p. destruct (H23 p) as [E|E]; [|by right].
  rewrite E. apply H12.
Qed.

Lemma remove_only_removes p w :
  only_removes (fs w) (fs (world_of (remove p w))).
Proof.
  unfold remove. destruct (fs w !! p) as [[t c|]|] eqn:E;
    try apply only_removes_refl.
  simpl. intros q. destruct (decide (p = q)) as [<-|Hne].
  - right. apply lookup_delete_eq.
  - left. by apply lookup_delete_ne.
Qed.

Lemma rmtree_only_removes p w :
  only_removes (fs w) (fs (world_of (rmtree p w))).
Proof.
  unfold rmtree. destruct (fs w !! p) as [[t c|]|] eqn:E;
    try apply only_removes_refl.
  destruct p as [|a p]; [apply only_removes_refl|].
  simpl. intros q. rewrite lookup_rmtree. case_decide; auto.
Qed.

Section Kinds.

Variables src dest : list string.

Lemma prune_file_only_removes root file w :
  only_removes (fs w) (fs (world_of (prune_file src dest root file w))).
Proof.
  unfold prune_file, bind, path_exists, when.
  destruct (negb _); simpl; [|apply only_removes_refl].
  pose proof (remove_only_removes (join root [file]) w) as H.
  by destruct (remove _ w) as [[] w1|e w1|w1].
Qed.

Lemma prune_dir_only_removes root dir w :
  only_removes (fs w) (fs (world_of (prune_dir src dest root dir w))).
Proof.
  unfold prune_dir, bind, path_exists, when.
  destruct (negb _); simpl; [|apply only_removes_refl].
  pose proof (rmtree_only_removes (join root [dir]) w) as H.
  by destruct (rmtree _ w) as [[] w1|e w1|w1].
Qed.

Lemma for_each_only_removes {A} (l : list A) (body : A → M unit) w :
  (∀ x w1, only_removes (fs w1) (fs (world_of (body x w1)))) →
  only_removes (fs w) (fs (world_of (for_each l body w))).
Proof.
  intros Hb.
  apply (for_each_world (λ w', only_removes (fs w) (fs w')));
    [|apply only_removes_refl].
  intros x w1 H1. eapply only_removes_trans; [exact H1|apply Hb].
Qed.

Lemma phase_b_only_removes fuel w :
  only_removes (fs w) (fs (world_of (phase_b fuel src dest w))).
Proof.
  unfold phase_b.
  apply (walk_world (λ w', only_removes (fs w) (fs w')) _ dest);
    [|done|apply only_removes_refl].
  intros top dirs files w1 _ H1. eapply only_removes_trans; [exact H1|].
  unfold prune.
  apply (bind_world (λ w', only_removes (fs w1) (fs w'))).
  - apply for_each_only_removes. intros. apply prune_file_only_removes.
  - intros [] w2 E.
    assert (H2 : only_removes (fs w1) (fs w2)).
    { pose proof (for_each_only_removes files (prune_file src dest top) w1)
        as H.
      rewrite E in H. apply H. intros. apply prune_file_only_removes. }
    eapply only_removes_trans; [exact H2|].
    apply for_each_only_removes. intros. apply prune_dir_only_removes.
Qed.

Lemma for_each_kept {A} (l : list A) (body : A → M unit) w :
  (∀ x w1, kinds_kept (fs w1) (fs (world_of (body x w1)))) →
  kinds_kept (fs w) (fs (world_of (for_each l body w))).
Proof.
  intros Hb.
  apply (for_each_world (λ w', kinds_kept (fs w) (fs w')));
    [|apply kinds_kept_refl].
  intros x w1 H1. eapply kinds_kept_trans; [exact H1|apply Hb].
Qed.

Lemma phase_a_kept fuel w :
  kinds_kept (fs w) (fs (world_of (phase_a fuel src dest w))).
Proof.
  unfold phase_a.
  apply (walk_world (λ w', kinds_kept (fs w) (fs w')) _ src);
    [|done|apply kinds_kept_refl].
  intros top dirs files w1 _ H1. eapply kinds_kept_trans; [exact H1|].
  unfold create_update.
  apply (bind_world (λ w', kinds_kept (fs w1) (fs w'))).
  - apply for_each_kept. intros.
    apply dirs_added_kept, create_dir_dirs_added.
  - intros [] w2 E.
    assert (H2 : kinds_kept (fs w1) (fs w2)).
    { pose proof (for_each_kept dirs (create_dir src dest top) w1) as H.
      rewrite E in H. apply H. intros.
      apply dirs_added_kept, create_dir_dirs_added. }
    eapply kinds_kept_trans; [exact H2|].
    apply for_each_kept. intros. apply copy_file_kept.
Qed.

(** X19.  The two loops keep to their jobs, whatever the roots are and
    however they end.  The first loop never removes an entry and never
    changes the kind of one: what was a file is still a file, what was a
    directory still a directory.  The second loop never creates or changes
    an entry: every path holds afterwards what it held before, or nothing.
    So across a whole pass no regular file is ever replaced by a directory
    and no directory by a regular file. *)
Theorem each_loop_keeps_to_its_job fuel w :
  (∀ p e, fs w !! p = Some e →
     ∃ e', fs (world_of (phase_a fuel src dest w)) !! p = Some e' ∧
           is_dir e' = is_dir e) ∧
  (∀ p, fs (world_of (phase_b fuel src dest w)) !! p = fs w !! p ∨
        fs (world_of (phase_b fuel src dest w)) !! p = None) ∧
  (∀ p e e', fs w !! p = Some e →
     fs (world_of (sync fuel src dest w)) !! p = Some e' →
     is_dir e' = is_dir e).
Proof.
  split_and!.
  - apply phase_a_kept.
  - apply phase_b_only_removes.
  - intros p e e' He. unfold sync, bind, logger.
    set (w0 := World (fs w) (log w ++ [Debug_syncing])).
    pose proof (phase_a_kept fuel w0 p e He) as (e1 & H1 & Hk).
    destruct (phase_a fuel src dest w0) as [[] wa|ex wa|wa]; simpl in *;
      try (intros; congruence).
    pose proof (phase_b_only_removes fuel wa p) as Hb.
    destruct (phase_b fuel src dest wa) as [[] wb|ex wb|wb]; simpl in *;
      intros He'; destruct Hb as [Hb|Hb]; congruence.
Qed.

End Kinds.
(** ** A destination root that is not a directory *)

(** What stops the walk down to a path none of whose directories is a
    regular file can only be a missing directory. *)
Lemma obstacle_no_file (m : gmap (list string) entry) rest :
  ∀ above,
    (∀ k t c, k `prefix_of` rest → k ≠ rest →
              m !! (above ++ k) ≠ Some (EFile t c)) →
    obstacle m above rest = None ∨
    obstacle m above rest = Some FileNotFoundError.
Proof.
  induction rest as [|n rest IH]; intros above H; simpl; [by left|].
  destruct (m !! above) as [[t c|]|] eqn:E.
  - destruct (H [] t c); [apply prefix_nil|done|by rewrite app_nil_r].
  - apply IH. intros k t c Hk Hne. rewrite <- app_assoc.
    apply (H (n :: k)); [by apply prefix_cons|congruence].
  - by right.
Qed.

Lemma open_error_no_file (m : gmap (list string) entry) p :
  (∀ q t c, q `prefix_of` p → q ≠ p → m !! q ≠ Some (EFile t c)) →
  open_error m p = FileNotFoundError p.
Proof.
  intros H. unfold open_error.
  by destruct (obstacle_no_file m p [] H) as [-> | ->].
Qed.

(** A regular file on the way, with directories down to it, is what stops
    the walk. *)
Lemma obstacle_file (m : gmap (list string) entry) k1 :
  ∀ above k2 t c,
    k2 ≠ [] → m !! (above ++ k1) = Some (EFile t c) →
    (∀ k, k `prefix_of` k1 → k ≠ k1 → m !! (above ++ k) = Some EDir) →
    obstacle m above (k1 ++ k2) = Some NotADirectoryError.
Proof.
  induction k1 as [|a k1 IH]; intros above k2 t c Hk2 Hf Hd.
  - destruct k2 as [|n k2]; [done|]. simpl. rewrite app_nil_r in Hf.
    by rewrite Hf.
  - simpl. rewrite <- (app_nil_r above) at 1.
    rewrite (Hd []); [|apply prefix_nil|done].
    apply (IH (above ++ [a]) k2 t c); [done|by rewrite <- app_assoc|].
    intros k Hk Hne. rewrite <- app_assoc.
    apply (Hd (a :: k)); [by apply prefix_cons|congruence].
Qed.

Lemma open_error_file m (q k : list string) t c :
  wf m → k ≠ [] → m !! q = Some (EFile t c) →
  open_error m (q ++ k) = NotADirectoryError (q ++ k).
Proof.
  intros Hwf Hk Hq. unfold open_error.
  rewrite (obstacle_file m q [] k t c); [done|done|done|].
  intros k' [z ->] Hne. simpl. apply (wf_ancestor m k' z); [done| |].
  - rewrite Hq. eauto.
  - intros ->. by rewrite app_nil_r in Hne.
Qed.

Lemma makedirs_under_file dest n w t c :
  wf (fs w) → fs w !! dest = Some (EFile t c) →
  makedirs (dest ++ [n]) w = Raised (NotADirectoryError (dest ++ [n])) w.
Proof.
  intros Hwf Hd.
  assert (Hn : fs w !! (dest ++ [n]) = None)
    by (apply wf_below_None; [done|congruence|done]).
  unfold makedirs. rewrite rev_unit. simpl. rewrite rev_involutive.
  destruct (rev dest) as [|a rd] eqn:Erev.
  - apply (f_equal length) in Erev. rewrite length_rev in Erev.
    destruct dest; [|done]. destruct Hwf as [Hroot _]. congruence.
  - rewrite bool_decide_true by (rewrite Hd; eauto).
    unfold mkdir. rewrite Hn, parent_snoc, Hd.
    rewrite bool_decide_false; [done|congruence].
Qed.

(** The first loop, when the body raises for whatever entry of the source
    root comes first. *)
Lemma phase_a_first_raises fuel src dest w (e : string → exn) :
  fs w !! src = Some EDir → (1 ≤ fuel)%nat →
  (∀ d, fs w !! (src ++ [d]) = Some EDir →
        create_dir src dest src d w = Raised (e d) w) →
  (∀ f t c, fs w !! (src ++ [f]) = Some (EFile t c) →
            (∀ d, fs w !! (src ++ [d]) ≠ Some EDir) →
            copy_file src dest src f w = Raised (e f) w) →
  (∃ n, is_Some (fs w !! (src ++ [n]))) →
  ∃ n, is_Some (fs w !! (src ++ [n])) ∧
       phase_a fuel src dest w = Raised (e n) w.
Proof.
  intros Hs Hone Hdir Hfile [n [en Hn]].
  destruct fuel as [|k]; [lia|].
  unfold phase_a. rewrite walk_unfold. unfold scandir. rewrite Hs.
  unfold bind, create_update, bind.
  destruct (dirs_of (listdir (fs w) src)) as [|d ds] eqn:Ed.
  - assert (Hnodir : ∀ d, fs w !! (src ++ [d]) ≠ Some EDir).
    { intros d Hd%elem_of_dirs_of. rewrite Ed in Hd.
      by apply elem_of_nil in Hd. }
    simpl. destruct (nondirs_of (listdir (fs w) src)) as [|f fl] eqn:Ef.
    + destruct en as [t c|]; [|by destruct (Hnodir n)].
      assert (Hin : n ∈ nondirs_of (listdir (fs w) src))
        by (apply elem_of_nondirs_of; eauto).
      rewrite Ef in Hin. by apply elem_of_nil in Hin.
    + assert (Hin : f ∈ nondirs_of (listdir (fs w) src))
        by (rewrite Ef; by left).
      apply elem_of_nondirs_of in Hin as (t & c & Hf).
      exists f. split; [by rewrite Hf|].
      simpl. unfold bind. by rewrite (Hfile f t c Hf Hnodir).
  - assert (Hin : d ∈ dirs_of (listdir (fs w) src)) by (rewrite Ed; by left).
    apply elem_of_dirs_of in Hin.
    exists d. split; [by rewrite Hin|].
    simpl. unfold bind. by rewrite (Hdir d Hin).
Qed.

Lemma sync_empty_source fuel src dest w :
  fs w !! src = Some EDir → fs w !! dest ≠ Some EDir → (1 ≤ fuel)%nat →
  (∀ n, fs w !! (src ++ [n]) = None) →
  sync fuel src dest w
  = Done tt (World (fs w) (log w ++ [Debug_syncing; Debug_completed])).
Proof.
  intros Hs Hd Hone Hempty. unfold sync, bind, logger, phase_a, phase_b.
  rewrite walk_empty_dir by done. rewrite walk_not_dir by done.
  simpl. by rewrite <- app_assoc.
Qed.

(** X7.  When the destination path is a regular file and the source is a
    directory: with an empty source the pass ends normally and changes
    nothing; otherwise it raises [NotADirectoryError] at the first entry of
    the source root it handles, before anything is written and before any
    change event is logged.  The file at the destination path is never
    replaced by a directory. *)
Theorem a_regular_file_as_destination fuel src dest w t c :
  wf (fs w) → fs w !! src = Some EDir →
  fs w !! dest = Some (EFile t c) → (1 ≤ fuel)%nat →
  ((∀ n, fs w !! (src ++ [n]) = None) →
   sync fuel src dest w
   = Done tt (World (fs w) (log w ++ [Debug_syncing; Debug_completed]))) ∧
  ((∃ n, is_Some (fs w !! (src ++ [n]))) →
   ∃ n, is_Some (fs w !! (src ++ [n])) ∧
        sync fuel src dest w
        = Raised (NotADirectoryError (dest ++ [n]))
                 (World (fs w) (log w ++ [Debug_syncing]))).
Proof.
  intros Hwf Hs Hd Hone. split.
  { intros Hempty. apply sync_empty_source; [done|congruence|done..]. }
  intros Hsome.
  set (w0 := World (fs w) (log w ++ [Debug_syncing])).
  assert (Hbelow : ∀ n, fs w !! (dest ++ [n]) = None).
  { intros n. apply wf_below_None; [done|congruence|done]. }
  destruct (phase_a_first_raises fuel src dest w0
              (λ n, NotADirectoryError (dest ++ [n])))
    as (n & Hn & Hrun); [done|done| | |done|].
  - intros d Hdir. unfold create_dir. rewrite relpath_join.
    unfold join, bind, path_exists, when. simpl. rewrite Hbelow. simpl.
    by rewrite (makedirs_under_file dest d w0 t c).
  - intros f tf cf Hf _. simpl in Hf. unfold copy_file.
    rewrite relpath_join.
    unfold join, bind, path_exists. simpl. rewrite Hbelow. simpl.
    unfold copy2. simpl. rewrite Hbelow.
    rewrite (bool_decide_false (None = Some EDir)) by done.
    rewrite bool_decide_false.
    2:{ intros [E _]. apply app_inj_tail in E as [-> _]. congruence. }
    by rewrite Hf, Hbelow, parent_snoc, Hd.
  - exists n. split; [done|]. unfold sync, bind, logger. fold w0.
    by rewrite Hrun.
Qed.

(** X8.  When the destination root does not exist and the source root holds
    no subdirectory: with an empty source the pass ends normally and changes
    nothing (the destination is still missing); otherwise the first file of
    the source root makes [shutil.copy2] raise for its destination path,
    before anything is written and before any change event is logged:
    [FileNotFoundError] when no regular file lies above the missing
    destination root, [NotADirectoryError] when one does.  [sync] itself
    never creates the destination root. *)
Theorem a_missing_destination_and_only_files fuel src dest w :
  wf (fs w) → fs w !! src = Some EDir → fs w !! dest = None →
  (∀ n, fs w !! (src ++ [n]) ≠ Some EDir) → (1 ≤ fuel)%nat →
  ((∀ n, fs w !! (src ++ [n]) = None) →
   sync fuel src dest w
   = Done tt (World (fs w) (log w ++ [Debug_syncing; Debug_completed]))) ∧
  ((∃ n, is_Some (fs w !! (src ++ [n]))) →
   ∃ n t c, fs w !! (src ++ [n]) = Some (EFile t c) ∧
     ((∀ q t' c', q `prefix_of` dest → fs w !! q ≠ Some (EFile t' c')) →
      sync fuel src dest w
      = Raised (FileNotFoundError (dest ++ [n]))
               (World (fs w) (log w ++ [Debug_syncing]))) ∧
     ((∃ q t' c', q `prefix_of` dest ∧ fs w !! q = Some (EFile t' c')) →
      sync fuel src dest w
      = Raised (NotADirectoryError (dest ++ [n]))
               (World (fs w) (log w ++ [Debug_syncing])))).
Proof.
  intros Hwf Hs Hd Hnodir Hone.
  assert (Hbelow : ∀ n, fs w !! (dest ++ [n]) = None)
    by (intros n; by apply missing_below).
  split.
  { intros Hempty. apply sync_empty_source; [done|congruence|done..]. }
  intros Hsome.
  set (w0 := World (fs w) (log w ++ [Debug_syncing])).
  destruct (phase_a_first_raises fuel src dest w0
              (λ n, open_error (fs w) (dest ++ [n])))
    as (n & Hn & Hrun); [done|done| | |done|].
  - intros d Hdir. by destruct (Hnodir d).
  - intros f tf cf Hf _. simpl in Hf. unfold copy_file.
    rewrite relpath_join.
    unfold join, bind, path_exists. simpl. rewrite Hbelow. simpl.
    unfold copy2. simpl. rewrite Hbelow.
    rewrite (bool_decide_false (None = Some EDir)) by done.
    rewrite bool_decide_false.
    2:{ intros [E _]. apply app_inj_tail in E as [-> _]. congruence. }
    by rewrite Hf, Hbelow, parent_snoc, Hd.
  - simpl in Hn. destruct Hn as [[tn cn|] Hn]; [|by destruct (Hnodir n)].
    assert (Hsync : sync fuel src dest w
                    = Raised (open_error (fs w) (dest ++ [n])) w0).
    { unfold sync, bind, logger. fold w0. by rewrite Hrun. }
    exists n, tn, cn. split_and!; [done| |].
    + intros Hnf. rewrite Hsync, open_error_no_file; [done|].
      intros q t' c' [Hq| ->]%prefix_snoc_inv Hne; [by apply Hnf|done].
    + intros (q & t' & c' & [z ->] & Hq). rewrite Hsync.
      rewrite <- app_assoc.
      rewrite (open_error_file (fs w) q (z ++ [n]) t' c'); [done|done| |done].
      by destruct z.
Qed.

(** X10.  A regular file of the source whose destination path holds a
    directory (disjoint roots).  The test of line 127 finds the path
    existing, so line 131 compares the file's modification time with the
    directory's.  When the file is not strictly newer, the step does
    nothing.  When it is, [shutil.copy2] targets the path of the same name
    inside that directory, one level too deep: if a directory stands there
    it raises [IsADirectoryError] and nothing is written or logged;
    otherwise the file is copied there and the step logs [Modified file]
    for the relative path of the file.  The directory at the destination
    path is never replaced by the file. *)
Theorem a_file_meets_a_directory src dest r f ts cs w :
  disjoint_roots src dest →
  fs w !! (src ++ r ++ [f]) = Some (EFile ts cs) →
  fs w !! (dest ++ r ++ [f]) = Some EDir →
  copy_file src dest (src ++ r) f w
  = if bool_decide (dir_mtime (dest ++ r ++ [f]) < ts)
    then if bool_decide (fs w !! (dest ++ r ++ [f; f]) = Some EDir)
         then Raised (IsADirectoryError (dest ++ r ++ [f; f])) w
         else Done tt (World (<[dest ++ r ++ [f; f] := EFile ts cs]> (fs w))
                             (log w ++ [Modified_file (r ++ [f])]))
    else Done tt w.
Proof.
  intros Hdisj Hs Hd. unfold copy_file.
  replace (join (src ++ r) [f]) with (join src (r ++ [f]))
    by (unfold join; by rewrite app_assoc).
  rewrite !relpath_join. unfold join, bind, path_exists, getmtime, when. norm.
  repeat (rewrite ?Hs, ?Hd; simpl).
  destruct (bool_decide (dir_mtime (dest ++ r ++ [f]) < ts)); [|done].
  unfold copy2. rewrite Hd.
  rewrite (bool_decide_true (Some EDir = Some EDir)) by done.
  rewrite (app_assoc src r [f]), basename_snoc. unfold join. norm.
  rewrite bool_decide_false by (intros [E _]; by apply disjoint_roots_neq in E).
  rewrite Hs.
  destruct (fs w !! (dest ++ r ++ [f; f])) as [[t' c'|]|] eqn:E.
  - by rewrite bool_decide_false.
  - by rewrite bool_decide_true.
  - rewrite bool_decide_false by done.
    replace (dest ++ r ++ [f; f]) with ((dest ++ r ++ [f]) ++ [f])
      by (by rewrite <- !app_assoc).
    by rewrite parent_snoc, Hd.
Qed.
(** ** A destination root that does not exist yet *)

Section MissingDestination.

Variables src dest : list string.
Hypothesis Hdisj : disjoint_roots src dest.

(** The body of the first walk at the source directory [r], for any lists
    of subdirectories and of files of that directory. *)
Lemma create_update_lists r ds fl w :
  wf (fs w) → fs w !! (dest ++ r) = Some EDir →
  (∀ n e e', fs w !! (src ++ r ++ [n]) = Some e →
             fs w !! (dest ++ r ++ [n]) = Some e' → is_dir e = is_dir e') →
  NoDup ds → NoDup fl →
  (∀ n, n ∈ ds → fs w !! (src ++ r ++ [n]) = Some EDir) →
  (∀ n, n ∈ fl → ∃ t c, fs w !! (src ++ r ++ [n]) = Some (EFile t c)) →
  ∃ w', create_update src dest (src ++ r) ds fl w = Done tt w' ∧
    wf (fs w') ∧
    (∀ n, n ∈ ds ∨ n ∈ fl →
       fs w' !! (dest ++ r ++ [n])
       = merged (fs w !! (src ++ r ++ [n])) (fs w !! (dest ++ r ++ [n]))) ∧
    (∀ p, (∀ n, n ∈ ds ∨ n ∈ fl → p ≠ dest ++ r ++ [n]) →
          fs w' !! p = fs w !! p) ∧
    log w' = log w ++
      (ds ≫= λ n, created (r ++ [n]) (fs w !! (src ++ r ++ [n]))
                          (fs w !! (dest ++ r ++ [n]))) ++
      (fl ≫= λ n, created (r ++ [n]) (fs w !! (src ++ r ++ [n]))
                          (fs w !! (dest ++ r ++ [n]))).
Proof.
  intros Hwf Hd Hcons Hnds Hnfl Hds Hfl. unfold create_update.
  destruct (for_each_children src dest Hdisj r
              (create_dir src dest (src ++ r)) w ds)
    with (w := w) as (w1 & Hrun1 & Hwf1 & Hin1 & Hout1 & Hlog1);
    [ | done | done | done | by auto | ].
  { intros n w' Hn Hwf' Hr' Hsn Hdn. apply Hds in Hn.
    destruct (create_dir_ok src dest r n w') as (w'' & Hrun & Hfs & Hlog).
    - by rewrite Hsn.
    - done.
    - intros t c E. rewrite Hdn in E. by specialize (Hcons n _ _ Hn E).
    - exists w'', EDir. rewrite Hsn, Hdn in Hlog. split_and!; auto.
      rewrite Hn. destruct (fs w !! (dest ++ r ++ [n])) as [[t c|]|] eqn:E;
        simpl; auto. by specialize (Hcons n _ _ Hn E). }
  destruct (for_each_children src dest Hdisj r
              (copy_file src dest (src ++ r)) w fl)
    with (w := w1) as (w2 & Hrun2 & Hwf2 & Hin2 & Hout2 & Hlog2);
    [ | done | done | | | ].
  { intros n w' Hn Hwf' Hr' Hsn Hdn. apply Hfl in Hn as (t & c & Hn).
    assert (Hnd : fs w !! (dest ++ r ++ [n]) ≠ Some EDir).
    { intros E. by specialize (Hcons n _ _ Hn E). }
    assert (Hm : ∃ e, merged (fs w !! (src ++ r ++ [n]))
                             (fs w !! (dest ++ r ++ [n])) = Some e).
    { rewrite Hn. destruct (fs w !! (dest ++ r ++ [n])) as [[t' c'|]|];
        simpl; try destruct (bool_decide _); eauto. }
    destruct Hm as [e Hm].
    destruct (copy_file_ok src dest Hdisj r n t c w' e)
      as (w'' & Hrun & Hfs & Hlog).
    - by rewrite Hsn.
    - done.
    - by rewrite Hdn.
    - by rewrite Hsn, Hdn.
    - exists w'', e. rewrite Hsn, Hdn in Hlog. auto. }
  { rewrite Hout1; [done|]. intros n _ E.
    rewrite <- (app_nil_r (dest ++ r)), <- app_assoc in E.
    by apply app_inv_head, app_inv_head in E. }
  { intros n Hn. apply Hfl in Hn as (t & c & Hn).
    rewrite !Hout1; auto using disjoint_roots_neq.
    intros n' Hn' E. apply app_inv_head, app_inv_head in E.
    injection E as ->. apply Hds in Hn'. congruence. }
  exists w2. rewrite (bind_Done _ _ _ _ _ Hrun1). split_and!; auto.
  - intros n [Hn|Hn].
    + rewrite Hout2, Hin1; [done|done|].
      intros n' Hn' E. apply app_inv_head, app_inv_head in E.
      injection E as ->. apply Hds in Hn. apply Hfl in Hn' as (?&?&?).
      congruence.
    + by apply Hin2.
  - intros p Hp. rewrite Hout2, Hout1; auto.
  - by rewrite Hlog2, Hlog1, <- app_assoc.
Qed.

(** The first subdirectory handled in the source root, when the
    destination root is missing: [os.makedirs] creates the destination
    root, and the missing directories above it, on the way. *)
Lemma first_directory_makes_the_root d1 w :
  wf (fs w) → fs w !! dest = None →
  (∀ q t c, q `prefix_of` dest → fs w !! q ≠ Some (EFile t c)) →
  ∃ w1, create_dir src dest src d1 w = Done tt w1 ∧ wf (fs w1) ∧
    (∀ p, fs w1 !! p
          = if bool_decide (p `prefix_of` dest ++ [d1] ∧ fs w !! p = None)
            then Some EDir else fs w !! p) ∧
    log w1 = log w ++ [Created_directory [d1]].
Proof.
  intros Hwf Hd Hnf.
  assert (Hn : fs w !! (dest ++ [d1]) = None) by (by apply missing_below).
  unfold create_dir. rewrite !relpath_join.
  unfold join, bind, path_exists, when. rewrite Hn. simpl.
  destruct (makedirs_rev_ok (rev (dest ++ [d1])) w)
    as (w1 & Hrun & Hlog & Hwf1 & Hfs); [done| |].
  { rewrite rev_involutive. intros q t c [Hq| ->]%prefix_snoc_inv.
    - by apply Hnf.
    - congruence. }
  rewrite rev_involutive in Hfs.
  unfold makedirs. rewrite Hrun. unfold logger. simpl.
  eexists. split; [done|]. simpl. split_and!; [done..|by rewrite Hlog].
Qed.

(** The body of the first walk in the source root, destination root
    missing, at least one subdirectory in the source root. *)
Lemma root_body_missing_destination d1 ds' fl w :
  wf (fs w) → fs w !! dest = None →
  (∀ q t c, q `prefix_of` dest → fs w !! q ≠ Some (EFile t c)) →
  NoDup (d1 :: ds') → NoDup fl →
  (∀ n, n ∈ d1 :: ds' ↔ fs w !! (src ++ [n]) = Some EDir) →
  (∀ n, n ∈ fl ↔ ∃ t c, fs w !! (src ++ [n]) = Some (EFile t c)) →
  ∃ w2, create_update src dest src (d1 :: ds') fl w = Done tt w2 ∧
    wf (fs w2) ∧
    (∀ q, q `prefix_of` dest → fs w2 !! q = Some EDir) ∧
    (∀ n, fs w2 !! (dest ++ [n]) = fs w !! (src ++ [n])) ∧
    (∀ n y, y ≠ [] → fs w2 !! (dest ++ n :: y) = None) ∧
    (∀ x, fs w2 !! (src ++ x) = fs w !! (src ++ x)) ∧
    ∃ evs, log w2 = log w ++ evs ∧
      ∀ e, e ∈ evs ↔ ∃ n, e ∈ created [n] (fs w !! (src ++ [n])) None.
Proof.
  intros Hwf Hd Hnf Hnds Hnfl Hds Hfl.
  destruct (first_directory_makes_the_root d1 w)
    as (w1 & Hrun1 & Hwf1 & Hfs1 & Hlog1); [done..|].
  assert (Fsrc : ∀ x, fs w1 !! (src ++ x) = fs w !! (src ++ x)).
  { intros x. rewrite Hfs1, bool_decide_false; [done|].
    intros [[Hp|E]%prefix_snoc_inv _].
    - destruct Hdisj as [H _]. apply H. etrans; [|exact Hp].
      by apply prefix_app_r.
    - by apply disjoint_roots_neq in E. }
  assert (Fanc : ∀ q, q `prefix_of` dest → fs w1 !! q = Some EDir).
  { intros q Hq. rewrite Hfs1. case_bool_decide as Hc; [done|].
    destruct (fs w !! q) as [[t c|]|] eqn:E;
      [by destruct (Hnf q t c)|done|].
    destruct Hc. split; [by apply prefix_app_r|done]. }
  assert (Fd1 : fs w1 !! (dest ++ [d1]) = Some EDir).
  { rewrite Hfs1, bool_decide_true; [done|].
    split; [done|by apply missing_below]. }
  assert (Fbelow : ∀ y, y ≠ [] → y ≠ [d1] → fs w1 !! (dest ++ y) = None).
  { intros y Hy1 Hy2. rewrite Hfs1, bool_decide_false;
      [by apply missing_below|].
    intros [[k Hk] _]. rewrite <- app_assoc in Hk.
    apply app_inv_head in Hk.
    destruct y as [|a [|b y]]; [done| |done]. by injection Hk as <-. }
  assert (Hnoop : create_dir src dest src d1 w1 = Done tt w1).
  { unfold create_dir. rewrite !relpath_join.
    unfold join, bind, path_exists, when. by rewrite Fd1. }
  assert (Heq : create_update src dest src (d1 :: ds') fl w
                = create_update src dest src (d1 :: ds') fl w1).
  { unfold create_update. simpl. unfold bind. by rewrite Hrun1, Hnoop. }
  assert (Hcons1 : ∀ n e e', fs w1 !! (src ++ [n]) = Some e →
            fs w1 !! (dest ++ [n]) = Some e' → is_dir e = is_dir e').
  { intros n e e' He He'.
    destruct (decide (n = d1)) as [->|Hne];
      [|rewrite Fbelow in He' by congruence; done].
    rewrite Fd1 in He'. rewrite Fsrc in He.
    rewrite (proj1 (Hds d1)) in He by (by left). congruence. }
  assert (Hds1 : ∀ n, n ∈ d1 :: ds' → fs w1 !! (src ++ [n]) = Some EDir).
  { intros n Hn. rewrite Fsrc. by apply Hds. }
  assert (Hfl1 : ∀ n, n ∈ fl →
            ∃ t c, fs w1 !! (src ++ [n]) = Some (EFile t c)).
  { intros n Hn. rewrite Fsrc. by apply Hfl. }
  pose proof (create_update_lists [] (d1 :: ds') fl w1) as Hbody.
  rewrite !app_nil_r in Hbody. cbn [app] in Hbody.
  destruct (Hbody Hwf1 (Fanc dest (reflexivity dest)) Hcons1 Hnds Hnfl
              Hds1 Hfl1) as (w2 & Hrun2 & Hwf2 & Hin2 & Hout2 & Hlog2).
  clear Hbody.
  assert (Hd1s : fs w !! (src ++ [d1]) = Some EDir) by (apply Hds; by left).
  assert (Hkind : ∀ n, (n ∈ d1 :: ds' ∨ n ∈ fl) ↔
                       is_Some (fs w !! (src ++ [n]))).
  { intros n. rewrite Hds, Hfl. split.
    - intros [->|(t & c & ->)]; eauto.
    - intros [[t c|] ->]; eauto. }
  exists w2. rewrite Heq. split_and!; [done|done| | | | |].
  - intros q Hq. rewrite Hout2; [by apply Fanc|].
    intros n _ ->. apply prefix_snoc_not in Hq. done.
  - intros n. destruct (decide (is_Some (fs w !! (src ++ [n])))) as [Hs|Hs].
    + rewrite Hin2 by (by apply Hkind). rewrite Fsrc.
      destruct (decide (n = d1)) as [->|Hne].
      * by rewrite Fd1, Hd1s.
      * rewrite Fbelow by congruence.
        by destruct (fs w !! (src ++ [n])) as [[]|].
    + rewrite Hout2.
      * assert (n ≠ d1) by (intros ->; apply Hs; by rewrite Hd1s).
        rewrite Fbelow by congruence.
        destruct (fs w !! (src ++ [n])); [destruct Hs; eauto|done].
      * intros n' Hn' E. apply app_inv_head in E. injection E as ->.
        by apply Hs, Hkind.
  - intros n y Hy. rewrite Hout2; [apply Fbelow; [done|by intros [= _ ->]]|].
    intros n' _ E. apply app_inv_head in E. injection E as _ ->. done.
  - intros x. rewrite Hout2; [by apply Fsrc|].
    intros n _. by apply disjoint_roots_neq.
  - eexists. split; [rewrite Hlog2, Hlog1, <- app_assoc; reflexivity|].
    intros e. rewrite !elem_of_app, list_elem_of_singleton,
      !list_elem_of_bind. split.
    + intros [->|[(n & He & Hn)|(n & He & Hn)]].
      * exists d1. rewrite Hd1s. by apply list_elem_of_singleton.
      * exists n. rewrite Fsrc in He.
        destruct (decide (n = d1)) as [->|Hne].
        -- rewrite Fd1, Hd1s in He. by apply elem_of_nil in He.
        -- by rewrite Fbelow in He by congruence.
      * exists n. rewrite Fsrc in He.
        assert (n ≠ d1).
        { intros ->. apply Hfl in Hn as (t & c & Hn). congruence. }
        by rewrite Fbelow in He by congruence.
    + intros (n & He).
      destruct (decide (n = d1)) as [->|Hne].
      * left. rewrite Hd1s in He. by apply list_elem_of_singleton in He.
      * right.
        assert (Hs : is_Some (fs w !! (src ++ [n]))).
        { destruct (fs w !! (src ++ [n])); [eauto|].
          by apply elem_of_nil in He. }
        apply Hkind in Hs as [Hs|Hs]; [left|right]; exists n;
          (split; [|done]); rewrite Fsrc, Fbelow by congruence; done.
Qed.

Lemma removed_same x s : removed x s s = [].
Proof. by destruct s as [[]|]. Qed.

Lemma created_nothing_there e y s :
  e ∈ created y s None ↔
  (e = Created_directory y ∧ s = Some EDir) ∨
  (∃ t c, e = Created_file y ∧ s = Some (EFile t c)).
Proof.
  destruct s as [[t c|]|]; simpl;
    rewrite ?list_elem_of_singleton, ?elem_of_nil; split;
    try (intros ->; eauto); try (by intros [[??]|(?&?&?&?)]); try done.
Qed.

(** X9.  When the destination root does not exist (disjoint roots, no
    regular file above it) and the source root holds at least one
    subdirectory, a pass ends normally and the destination becomes a mirror
    of the source: [os.makedirs], called for the first subdirectory, makes
    the destination root and every missing directory above it on the way.
    The log holds one record for every entry of the source and none for
    the destination root itself. *)
Theorem a_missing_destination_is_made_on_the_way fuel w :
  wf (fs w) → fs w !! src = Some EDir → fs w !! dest = None →
  (∀ q t c, q `prefix_of` dest → fs w !! q ≠ Some (EFile t c)) →
  (∃ d, fs w !! (src ++ [d]) = Some EDir) →
  fits fuel (fs w) src →
  ∃ w' evs, sync fuel src dest w = Done tt w' ∧
    (∀ x, fs w' !! (dest ++ x) = fs w !! (src ++ x)) ∧
    (∀ q, q `prefix_of` dest → fs w' !! q = Some EDir) ∧
    log w' = log w ++ [Debug_syncing] ++ evs ++ [Debug_completed] ∧
    ∀ e, e ∈ evs ↔
      (∃ y, y ≠ [] ∧ e = Created_directory y ∧
            fs w !! (src ++ y) = Some EDir) ∨
      (∃ y t c, e = Created_file y ∧
                fs w !! (src ++ y) = Some (EFile t c)).
Proof.
  intros Hwf Hs Hd Hnf [d0 Hd0] Hfit.
  destruct fuel as [|k].
  { specialize (Hfit []). rewrite app_nil_r, Hs in Hfit.
    assert (length (@nil string) < 0)%nat by (apply Hfit; eauto).
    simpl in *. lia. }
  set (w0 := World (fs w) (log w ++ [Debug_syncing])).
  pose proof (NoDup_dirs_of (fs w) src) as Hnds.
  pose proof (NoDup_nondirs_of (fs w) src) as Hnfl.
  pose proof (λ n, elem_of_dirs_of (fs w) src n) as Hds.
  pose proof (λ n, elem_of_nondirs_of (fs w) src n) as Hfl.
  destruct (dirs_of (listdir (fs w) src)) as [|d1 ds'] eqn:Eds.
  { apply Hds in Hd0. by apply elem_of_nil in Hd0. }
  set (fl := nondirs_of (listdir (fs w) src)) in *.
  destruct (root_body_missing_destination d1 ds' fl w0)
    as (w2 & Hrun2 & Hwf2 & Hanc2 & Hone2 & Hdeep2 & Hsrc2 & evs2 & Hlog2
        & Hev2); [done..|].
  simpl in Hone2, Hsrc2, Hlog2, Hev2.
  pose proof (for_each_subdirs src dest Hdisj k [] (d1 :: ds')
                (walk_create_update src dest Hdisj k) Hnds w2 Hwf2) as Hrec.
  rewrite !app_nil_r in Hrec. cbn [app] in Hrec.
  destruct Hrec
    as (w3 & Hrun3 & Hwf3 & Hin3 & Hout3 & evs3 & Hlog3 & _ & Hev3).
  { intros d Hdin. apply Hds in Hdin. split_and!.
    - by rewrite Hsrc2.
    - by rewrite Hone2.
    - intros [|n y] e e'.
      + rewrite Hsrc2, Hone2, Hdin. by intros [= <-] [= <-].
      + by rewrite Hdeep2.
    - intros y Hy. rewrite Hsrc2 in Hy. apply (Hfit (d :: y)) in Hy.
      simpl in Hy. lia. }
  assert (Hsrc3 : ∀ x, fs w3 !! (src ++ x) = fs w !! (src ++ x)).
  { intros x. rewrite Hout3; [apply Hsrc2|].
    intros d y _ _. by apply disjoint_roots_neq. }
  assert (Hmir3 : ∀ y, y ≠ [] → fs w3 !! (dest ++ y) = fs w !! (src ++ y)).
  { intros [|n [|n' y]] Hy; [done| |].
    - rewrite Hout3; [apply Hone2|].
      intros d y _ Hy' E. apply app_inv_head in E. injection E as _ <-.
      done.
    - destruct (decide (n ∈ d1 :: ds')) as [Hn|Hn].
      + rewrite Hin3, Hsrc2, Hdeep2 by done.
        by destruct (fs w !! (src ++ n :: n' :: y)) as [[]|].
      + rewrite Hout3, Hdeep2; [|done|].
        * symmetry.
          pose proof (wf_below_None (fs w) (src ++ [n]) (n' :: y)) as Hb.
          rewrite <- app_assoc in Hb. apply Hb; [done| |done].
          intros E. by apply Hn, Hds.
        * intros d y' Hd' _ E. apply app_inv_head in E.
          injection E as -> _. done. }
  assert (Hdest3 : ∀ q, q `prefix_of` dest → fs w3 !! q = Some EDir).
  { intros q Hq. rewrite Hout3; [by apply Hanc2|].
    intros d y _ _ ->. apply (prefix_snoc_not dest d).
    etrans; [|exact Hq]. exists y. by rewrite <- app_assoc. }
  destruct (phase_b_ok src dest (S k) w3)
    as (wb & Hrunb & _ & Hinb & Hfrb & evsB & Hlogb & _ & Hevb).
  { done. }
  { by apply disjoint_source_outside. }
  { lia. }
  { intros x. rewrite Hsrc3. apply Hfit. }
  assert (HB : evsB = []).
  { apply elem_of_nil_inv. intros e (y & n & _ & He)%Hevb.
    rewrite Hsrc3, Hmir3, removed_same in He by (by destruct y).
    by apply elem_of_nil in He. }
  exists (World (fs wb) (log wb ++ [Debug_completed])), (evs2 ++ evs3).
  split_and!.
  - unfold sync, bind, logger, phase_a. fold w0.
    rewrite walk_unfold. unfold scandir. simpl. rewrite Hs.
    unfold bind. rewrite Eds. fold fl. rewrite Hrun2.
    unfold join in Hrun3 |- *. rewrite Hrun3. by rewrite Hrunb.
  - intros [|n x]; simpl.
    + rewrite !app_nil_r, Hfrb by (intros y; apply not_self_below).
      rewrite Hs. by apply Hdest3.
    + rewrite Hinb, Hsrc3, Hmir3 by done.
      by destruct (fs w !! (src ++ n :: x)).
  - intros q Hq. simpl. rewrite Hfrb; [by apply Hdest3|].
    intros y Hy ->. destruct Hq as [k' Hk']. rewrite <- app_assoc in Hk'.
    apply (f_equal length) in Hk'. rewrite !length_app in Hk'.
    destruct y; [done|simpl in Hk'; lia].
  - simpl. rewrite Hlogb, HB, Hlog3, Hlog2. by rewrite <- !app_assoc.
  - intros e. rewrite elem_of_app, Hev2, Hev3. split.
    + intros [(n & He)|(d & y & Hdin & Hy & He)].
      * apply created_nothing_there in He as [[-> E]|(t & c & -> & E)].
        -- left. by exists [n].
        -- right. by exists [n], t, c.
      * rewrite Hsrc2, Hdeep2 in He by done.
        apply created_nothing_there in He as [[-> E]|(t & c & -> & E)].
        -- left. by exists (d :: y).
        -- right. by exists (d :: y), t, c.
    + assert (Hgo : ∀ y, y ≠ [] →
                e ∈ created y (fs w !! (src ++ y)) None →
                (∃ n, e ∈ created [n] (fs w !! (src ++ [n])) None) ∨
                (∃ d y', d ∈ d1 :: ds' ∧ y' ≠ [] ∧
                   e ∈ created (d :: y') (fs w2 !! (src ++ d :: y'))
                                 (fs w2 !! (dest ++ d :: y')))).
      { intros [|n [|n' y]] Hy He; [done|left; by exists n|].
        right. exists n, (n' :: y). rewrite Hsrc2, Hdeep2 by done.
        split_and!; [|done|done].
        apply Hds. apply (wf_ancestor _ _ (n' :: y)); [done| |done].
        rewrite <- app_assoc. simpl.
        destruct (fs w !! (src ++ n :: n' :: y)); [eauto|].
        by apply elem_of_nil in He. }
      intros [(y & Hy & -> & E)|(y & t & c & -> & E)]; apply (Hgo y).
      * done.
      * apply created_nothing_there. by left.
      * intros ->. rewrite app_nil_r in E. congruence.
      * apply created_nothing_there. right. eauto.
Qed.

End MissingDestination.
(** ** The scheduler loop *)

Section Loop.

Variables src dest : list string.

(** A pass over a settled destination changes nothing and logs no event. *)
Lemma settled_pass fuel m :
  disjoint_roots src dest → wf m →
  m !! src = Some EDir → m !! dest = Some EDir →
  consistent m src dest → fits fuel m src → settled src dest m →
  ∀ l, sync fuel src dest (World m l)
       = Done tt (World m (l ++ [Debug_syncing; Debug_completed])).
Proof.
  intros Hdisj Hwf Hs Hd Hcons Hfit Hset l.
  destruct (sync_ok src dest fuel (World m l))
    as (w' & evsA & evsB & Hrun & _ & Hin & Hfr & Hlog & _ & _ & HevA & HevB);
    [done..|].
  simpl in *.
  assert (HA : evsA = []).
  { apply elem_of_nil_inv. intros e (y & Hy & He)%HevA.
    rewrite (Hset y Hy), created_synced in He. by apply elem_of_nil in He. }
  assert (HB : evsB = []).
  { apply elem_of_nil_inv. intros e (y & n & Hy & He)%HevB.
    rewrite (Hset (y ++ [n])), removed_synced in He by (by destruct y).
    by apply elem_of_nil in He. }
  rewrite Hrun. f_equal. destruct w' as [m' l']. simpl in *. f_equal.
  - apply map_eq. intros p.
    destruct (below_dec dest [] p) as [(y & Hy & ->)|Hn].
    + simpl. rewrite Hin by done. symmetry. by apply Hset.
    + by apply Hfr.
  - by rewrite Hlog, HA, HB.
Qed.

(** A pass leaves a settled destination behind, in a file system that still
    satisfies what the pass asked for. *)
Lemma pass_settles fuel w :
  disjoint_roots src dest → wf (fs w) →
  fs w !! src = Some EDir → fs w !! dest = Some EDir →
  consistent (fs w) src dest → fits fuel (fs w) src →
  ∃ w1, sync fuel src dest w = Done tt w1 ∧ wf (fs w1) ∧
    fs w1 !! src = Some EDir ∧ fs w1 !! dest = Some EDir ∧
    consistent (fs w1) src dest ∧ fits fuel (fs w1) src ∧
    settled src dest (fs w1).
Proof.
  intros Hdisj Hwf Hs Hd Hcons Hfit.
  destruct (sync_ok src dest fuel w)
    as (w1 & evsA & evsB & Hrun & Hwf1 & Hin1 & Hfr1 & _); [done..|].
  pose proof (disjoint_source_same src dest _ _ Hdisj Hfr1) as Hsrc1.
  exists w1. split_and!; [done..| | | | |].
  - specialize (Hsrc1 []). rewrite !app_nil_r in Hsrc1. congruence.
  - rewrite Hfr1; [done|]. intros y. apply not_self_below.
  - intros [|n x] e e' He He'.
    + rewrite !app_nil_r in *.
      specialize (Hsrc1 []). rewrite !app_nil_r in Hsrc1.
      rewrite Hfr1 in He' by (intros y; apply not_self_below). congruence.
    + rewrite Hsrc1 in He. rewrite Hin1 in He' by done.
      eapply synced_kind; [|exact He|exact He'].
      intros e0 E0. by apply (Hcons (n :: x)).
  - intros x. rewrite Hsrc1. apply Hfit.
  - intros y Hy. rewrite Hsrc1, Hin1 by done. symmetry. apply synced_idem.
Qed.

Lemma main_loop_settled fuel m :
  disjoint_roots src dest → wf m →
  m !! src = Some EDir → m !! dest = Some EDir →
  consistent m src dest → fits fuel m src → settled src dest m →
  ∀ k l, main_loop k fuel src dest (World m l)
         = Done tt (World m
             (l ++ concat (replicate k [Debug_syncing; Debug_completed]))).
Proof.
  intros Hdisj Hwf Hs Hd Hcons Hfit Hset.
  induction k as [|k IH]; intros l; simpl.
  - by rewrite app_nil_r.
  - unfold bind. rewrite settled_pass by done. rewrite IH.
    by rewrite <- app_assoc.
Qed.

(** With an interval that [time.sleep] accepts, the loop with its sleep is
    the plain repetition of passes. *)
Lemma run_loop_main_loop sleep_max interval fuel :
  0 ≤ interval ≤ sleep_max →
  ∀ passes w,
    run_loop sleep_max passes fuel src dest interval w
    = match main_loop passes fuel src dest w with
      | Done _ w' => Still_running w'
      | Raised e w' => Halted (Sync_raised e) w'
      | Cutoff w' => Fuel_out w'
      end.
Proof.
  intros Hok. induction passes as [|k IH]; intros w; simpl; [done|].
  unfold bind, time_sleep. rewrite bool_decide_true by done.
  destruct (sync fuel src dest w) as [[] w1|e w1|w1]; [apply IH|done..].
Qed.

(** X11.  The loop settles after its first pass (disjoint roots, existing
    directories, kinds agreeing, an interval [time.sleep] accepts): every
    later round ends normally, leaves the file system exactly as the first
    pass left it, and logs its two DEBUG records and no change event, for
    as long as nothing else touches the two trees. *)
Theorem the_loop_settles_after_one_pass sleep_max interval passes fuel w :
  0 ≤ interval ≤ sleep_max →
  disjoint_roots src dest → wf (fs w) →
  fs w !! src = Some EDir → fs w !! dest = Some EDir →
  consistent (fs w) src dest → fits fuel (fs w) src →
  ∃ w1, sync fuel src dest w = Done tt w1 ∧
    run_loop sleep_max (S passes) fuel src dest interval w
    = Still_running
        (World (fs w1)
           (log w1 ++
            concat (replicate passes [Debug_syncing; Debug_completed]))).
Proof.
  intros Hok Hdisj Hwf Hs Hd Hcons Hfit.
  destruct (pass_settles fuel w)
    as (w1 & Hrun & Hwf1 & Hs1 & Hd1 & Hcons1 & Hfit1 & Hset1); [done..|].
  exists w1. split; [done|].
  rewrite run_loop_main_loop by done. simpl. unfold bind. rewrite Hrun.
  rewrite <- (world_eta w1) at 1.
  by rewrite (main_loop_settled fuel (fs w1)).
Qed.


End Loop.
(** ** What reaches the handlers *)

Lemma handle_setup path dbg r :
  handle (setup_logger path dbg) r
  = if dbg || is_event r
    then (λ h, (h, r)) <$> handlers (setup_logger path dbg)
    else [].
Proof. unfold handle, level_of. by destruct dbg, (is_event r). Qed.

Lemma written_by_app lg h l1 l2 :
  written_by lg h (l1 ++ l2) = written_by lg h l1 ++ written_by lg h l2.
Proof.
  unfold written_by. by rewrite bind_app, filter_app, fmap_app.
Qed.

(** Each of the three handlers writes every record the root logger lets
    through, once. *)
Lemma written_by_setup path dbg h l :
  h ∈ handlers (setup_logger path dbg) →
  written_by (setup_logger path dbg) h l
  = base.filter (λ r, dbg || is_event r = true) l.
Proof.
  intros Hh. induction l as [|r l IH]; [done|].
  change (r :: l) with ([r] ++ l). rewrite written_by_app, IH.
  rewrite filter_app. f_equal.
  unfold written_by. simpl. rewrite app_nil_r, handle_setup.
  rewrite filter_cons, filter_nil.
  destruct (dbg || is_event r) eqn:E.
  - rewrite decide_True by done.
    simpl in Hh. rewrite !elem_of_cons, elem_of_nil in Hh.
    destruct Hh as [->|[->|[->|[]]]]; simpl;
      repeat (rewrite filter_cons; simpl);
      repeat (case_decide; simplify_eq/=); done.
  - by rewrite decide_False by done.
Qed.

Lemma filter_events_only dbg (evs : list record) :
  Forall (λ r, is_event r = true) evs →
  base.filter (λ r, dbg || is_event r = true) evs = evs.
Proof.
  induction 1 as [|r evs Hr _ IH]; [done|].
  rewrite filter_cons, decide_True by (rewrite Hr; by destruct dbg).
  by rewrite IH.
Qed.

(** X18.  The logger of [setup_logger] and the records of a pass.  Whatever
    the roots are and however the pass ends, each of the three handlers
    (the one [logging.basicConfig] puts on the log file, the second one on
    the same file, the one on standard error) writes exactly the change
    events of the pass, in order, when debug logging is off, and every
    record of the pass when it is on.  So a change event is always written
    three times, twice of them into the log file (once with time and
    level, once as the bare message), and without -d a pass that changes
    nothing writes nothing at all. *)
Theorem what_the_handlers_write path dbg h fuel src dest w :
  h ∈ handlers (setup_logger path dbg) →
  ∃ evs, Forall (λ r, is_event r = true) evs ∧
    let new := Debug_syncing :: evs ++
                 match sync fuel src dest w with
                 | Done _ _ => [Debug_completed]
                 | _ => []
                 end in
    log (world_of (sync fuel src dest w)) = log w ++ new ∧
    written_by (setup_logger path dbg) h new = if dbg then new else evs.
Proof.
  intros Hh. destruct (sync_footprint src dest fuel w) as [_ (evs & Hev & Hlog)].
  exists evs. split; [done|]. split; [done|].
  rewrite written_by_setup by done.
  change (Debug_syncing :: ?l) with ([Debug_syncing] ++ l).
  rewrite !filter_app, (filter_events_only dbg evs Hev).
  destruct dbg, (sync fuel src dest w) as [[] w1|e w1|w1];
    repeat (rewrite filter_cons; simpl); rewrite ?filter_nil; simpl;
    by rewrite ?app_nil_r.
Qed.
End Sync.

(** C2, for disjoint roots whose entries agree in kind.  After a pass, a
    second pass (whatever order its listings come in) ends normally, leaves
    the file system exactly as the first pass left it, and logs its two
    DEBUG records and no change event. *)
Theorem second_pass_is_silent order1 mtime1 order2 mtime2 fuel src dest w :
  (∀ p l, order1 p l ≡ₚ l) → (∀ p l, order2 p l ≡ₚ l) →
  disjoint_roots src dest → wf (fs w) →
  fs w !! src = Some EDir → fs w !! dest = Some EDir →
  consistent (fs w) src dest → fits fuel (fs w) src →
  ∃ w1 w2,
    sync order1 mtime1 fuel src dest w = Done tt w1 ∧
    sync order2 mtime2 fuel src dest w1 = Done tt w2 ∧
    fs w2 = fs w1 ∧
    log w2 = log w1 ++ [Debug_syncing; Debug_completed].
Proof.
  intros Hp1 Hp2 Hdisj Hwf Hs Hd Hcons Hfit.
  destruct (sync_ok order1 mtime1 Hp1 src dest fuel w)
    as (w1 & evsA & evsB & Hrun1 & Hwf1 & Hin1 & Hfr1 & _); [done..|].
  pose proof (disjoint_source_same src dest _ _ Hdisj Hfr1) as Hsrc1.
  assert (Hd1 : fs w1 !! dest = fs w !! dest).
  { apply Hfr1. intros y. apply not_self_below. }
  destruct (sync_ok order2 mtime2 Hp2 src dest fuel w1)
    as (w2 & evsA2 & evsB2 & Hrun2 & _ & Hin2 & Hfr2 & Hlog2 & _ & _
        & HevA & HevB).
  { done. } { done. }
  { specialize (Hsrc1 []). rewrite !app_nil_r in Hsrc1. congruence. }
  { congruence. }
  { intros [|n x] e e' He He'.
    - rewrite !app_nil_r in *.
      specialize (Hsrc1 []). rewrite !app_nil_r in Hsrc1. congruence.
    - rewrite Hsrc1 in He. rewrite Hin1 in He' by done.
      eapply synced_kind; [|exact He|exact He'].
      intros e0 E0. by apply (Hcons (n :: x)). }
  { intros x. rewrite Hsrc1. apply Hfit. }
  assert (HA : evsA2 = []).
  { apply elem_of_nil_inv. intros e (y & Hy & He)%HevA.
    rewrite Hsrc1, Hin1, created_synced in He by done.
    by apply elem_of_nil in He. }
  assert (HB : evsB2 = []).
  { apply elem_of_nil_inv. intros e (y & n & Hy & He)%HevB.
    rewrite Hsrc1, Hin1, removed_synced in He by (by destruct y).
    by apply elem_of_nil in He. }
  exists w1, w2. split_and!; try done.
  - apply map_eq. intros p.
    destruct (below_dec dest [] p) as [(y & Hy & ->)|Hn].
    + simpl. rewrite Hin2, Hsrc1, Hin1 by done. apply synced_idem.
    + by apply Hfr2.
  - by rewrite Hlog2, HA, HB.
Qed.

(** ** The theorems at work on the example file systems *)

Lemma readdir_id_perm p l : readdir_id p l ≡ₚ l.
Proof. reflexivity. Qed.

Lemma s_d_disjoint : disjoint_roots ["s"] ["d"].
Proof. split; intros [k E]; discriminate E. Qed.

(** C1 on the scenario of the specification. *)
Lemma mirror_property_witness :
  ∃ w', sync readdir_id epoch 4 ["s"] ["d"] w_scenario = Done tt w' ∧
        ∀ x, fs w' !! (["d"] ++ x) = fs w_scenario !! (["s"] ++ x).
Proof.
  destruct (mirror_property readdir_id epoch readdir_id_perm
              4 ["s"] ["d"] w_scenario) as (Hmirror & Hruns & _).
  - apply wfb_sound. vm_compute. reflexivity.
  - vm_compute. reflexivity.
  - vm_compute. reflexivity.
  - apply emptyb_sound. vm_compute. reflexivity.
  - destruct Hruns as [w' Hrun].
    + intros (d & _ & E). discriminate E.
    + apply fitsb_sound. vm_compute. reflexivity.
    + exists w'. split; [exact Hrun|]. apply Hmirror, Hrun.
Defined.

(** C2 on a destination that was partly out of date. *)
Lemma second_pass_is_silent_witness :
  ∃ w1 w2,
    sync readdir_id epoch 4 ["s"] ["d"] w_stale = Done tt w1 ∧
    sync readdir_id epoch 4 ["s"] ["d"] w1 = Done tt w2 ∧
    fs w2 = fs w1 ∧
    log w2 = log w1 ++ [Debug_syncing; Debug_completed].
Proof.
  apply second_pass_is_silent.
  - apply readdir_id_perm.
  - apply readdir_id_perm.
  - apply s_d_disjoint.
  - apply wfb_sound. vm_compute. reflexivity.
  - vm_compute. reflexivity.
  - vm_compute. reflexivity.
  - apply consistentb_sound. vm_compute. reflexivity.
  - apply fitsb_sound. vm_compute. reflexivity.
Defined.

(** C2 fails when the source root lies inside the destination root: the
    first pass completes, and the second one removes what the first one
    copied. *)
Lemma second_pass_after_nested_roots :
  ∃ w1 w2,
    sync readdir_id epoch 4 ["d"; "s"] ["d"] w_nested = Done tt w1 ∧
    sync readdir_id epoch 4 ["d"; "s"] ["d"] w1 = Done tt w2 ∧
    fs w1 !! ["d"; "x"] = Some (EFile 1 "x") ∧
    fs w2 !! ["d"; "x"] = None ∧
    log w2 = log w1 ++ [Debug_syncing; Removed_file ["x"];
                        Removed_directory ["t"]; Debug_completed].
Proof.
  eexists _, _. split_and!; [vm_compute; reflexivity..].
Qed.

(** C3 fails: with no source root the pass completes and prunes. *)
Lemma missing_source_prunes :
  ∃ w', fs w_nosrc !! ["s"] = None ∧
        sync readdir_id epoch 4 ["s"] ["d"] w_nosrc = Done tt w' ∧
        fs w_nosrc !! ["d"; "x"] = Some (EFile 1 "x") ∧
        fs w' !! ["d"; "x"] = None ∧
        log w' = [Debug_syncing; Removed_file ["x"];
                  Removed_directory ["sub"]; Debug_completed].
Proof.
  eexists. split_and!; [vm_compute; reflexivity..].
Qed.

(** C3 as amended, on three rounds of the loop with an interval of five
    seconds: once with no source root, once with a regular file as source
    root. *)
Lemma missing_source_is_not_an_error_witness :
  (∃ w' new,
    run_loop readdir_id epoch 3600 3 4 ["s"] ["d"] 5 w_nosrc
    = Still_running w' ∧
    log w' = log w_nosrc ++ new ∧
    count_occ record_eq_dec new Debug_completed = 3%nat ∧
    (∀ x, (Created_directory x ∉ new) ∧ (Created_file x ∉ new) ∧
          (Modified_file x ∉ new)) ∧
    ((1 ≤ 3)%nat → ∀ y, y ≠ [] → fs w' !! (["d"] ++ y) = None) ∧
    (∀ p, (p = ["d"] ∨ ¬ (["d"] `prefix_of` p)) →
          fs w' !! p = fs w_nosrc !! p)) ∧
  (∃ w' new,
    run_loop readdir_id epoch 3600 3 4 ["s"] ["d"] 5 w_srcfile
    = Still_running w' ∧
    log w' = log w_srcfile ++ new ∧
    count_occ record_eq_dec new Debug_completed = 3%nat ∧
    (∀ x, (Created_directory x ∉ new) ∧ (Created_file x ∉ new) ∧
          (Modified_file x ∉ new)) ∧
    ((1 ≤ 3)%nat → ∀ y, y ≠ [] → fs w' !! (["d"] ++ y) = None) ∧
    (∀ p, (p = ["d"] ∨ ¬ (["d"] `prefix_of` p)) →
          fs w' !! p = fs w_srcfile !! p)).
Proof.
  split.
  - apply missing_source_is_not_an_error.
    + apply readdir_id_perm.
    + lia.
    + apply wfb_sound. vm_compute. reflexivity.
    + vm_compute. discriminate.
    + intros _. apply s_d_disjoint.
    + lia.
  - apply missing_source_is_not_an_error.
    + apply readdir_id_perm.
    + lia.
    + apply wfb_sound. vm_compute. reflexivity.
    + vm_compute. discriminate.
    + intros _. apply s_d_disjoint.
    + lia.
Defined.

(** C4 on the same world. *)
Lemma missing_source_empties_destination_witness :
  phase_a readdir_id epoch 4 ["s"] ["d"] w_nosrc = Done tt w_nosrc ∧
  ∃ w' evs,
    sync readdir_id epoch 4 ["s"] ["d"] w_nosrc = Done tt w' ∧
    (∀ y, y ≠ [] → fs w' !! (["d"] ++ y) = None) ∧
    (∀ p, (p = ["d"] ∨ ¬ (["d"] `prefix_of` p)) →
          fs w' !! p = fs w_nosrc !! p) ∧
    log w' = log w_nosrc ++ [Debug_syncing] ++ evs ++ [Debug_completed] ∧
    NoDup evs ∧
    ∀ e, e ∈ evs ↔
         (∃ n t c, e = Removed_file [n] ∧
                   fs w_nosrc !! (["d"] ++ [n]) = Some (EFile t c)) ∨
         (∃ n, e = Removed_directory [n] ∧
               fs w_nosrc !! (["d"] ++ [n]) = Some EDir).
Proof.
  apply missing_source_empties_destination.
  - apply readdir_id_perm.
  - apply wfb_sound. vm_compute. reflexivity.
  - vm_compute. reflexivity.
  - lia.
Defined.




(** C7 fails for the root: an empty source and no destination root. *)
Lemma destination_root_not_created :
  ∃ w', fs w_noroot !! ["s"] = Some EDir ∧ fs w_noroot !! ["d"] = None ∧
        sync readdir_id epoch 4 ["s"] ["d"] w_noroot = Done tt w' ∧
        fs w' !! ["d"] = None ∧
        log w' = [Debug_syncing; Debug_completed].
Proof.
  eexists. split_and!; [vm_compute; reflexivity..].
Qed.

(** C7 as amended: [m/d/sub] is created together with [m] and [m/d]. *)
Lemma create_dir_step_witness :
  ∃ w', create_dir ["s"] ["m"; "d"] (["s"] ++ []) "sub" w_deep = Done tt w' ∧
    (∀ p, fs w' !! p
          = if bool_decide (p `prefix_of` ["m"; "d"] ++ [] ++ ["sub"] ∧
                            fs w_deep !! p = None)
            then Some EDir else fs w_deep !! p) ∧
    log w' = log w_deep ++
      (if bool_decide (fs w_deep !! (["m"; "d"] ++ [] ++ ["sub"]) = None)
       then [Created_directory ([] ++ ["sub"])] else []).
Proof.
  apply create_dir_step.
  - apply wfb_sound. vm_compute. reflexivity.
  - apply no_file_aboveb_sound. vm_compute. reflexivity.
Defined.

(** C8 fails when the source root lies inside the destination root: [t/y] is
    created by the first loop, has its source counterpart when the second
    loop starts, and is gone when the pass ends. *)
Lemma created_then_pruned_on_nested_roots :
  ∃ wa w',
    phase_a readdir_id epoch 4 ["d"; "s"] ["d"]
      (World (fs w_nested) (log w_nested ++ [Debug_syncing])) = Done tt wa ∧
    fs w_nested !! ["d"; "t"; "y"] = None ∧
    fs wa !! ["d"; "t"; "y"] = Some (EFile 1 "y") ∧
    fs wa !! ["d"; "s"; "t"; "y"] = Some (EFile 1 "y") ∧
    sync readdir_id epoch 4 ["d"; "s"] ["d"] w_nested = Done tt w' ∧
    fs w' !! ["d"; "t"; "y"] = None.
Proof.
  eexists _, _. split_and!; [vm_compute; reflexivity..].
Qed.

(** C8 as amended, on a destination that was partly out of date. *)
Lemma create_before_prune_witness :
  ∃ wa wb,
    phase_a readdir_id epoch 4 ["s"] ["d"]
      (World (fs w_stale) (log w_stale ++ [Debug_syncing])) = Done tt wa ∧
    phase_b readdir_id 4 ["s"] ["d"] wa = Done tt wb ∧
    sync readdir_id epoch 4 ["s"] ["d"] w_stale
      = Done tt (World (fs wb) (log wb ++ [Debug_completed])) ∧
    (∀ x, is_Some (fs wa !! (["s"] ++ x)) →
          fs wb !! (["d"] ++ x) = fs wa !! (["d"] ++ x)) ∧
    (∀ x t c, fs w_stale !! (["s"] ++ x) = Some (EFile t c) →
              fs w_stale !! (["d"] ++ x) = None →
              fs wa !! (["d"] ++ x) = Some (EFile t c) ∧
              fs wb !! (["d"] ++ x) = Some (EFile t c)).
Proof.
  apply create_before_prune.
  - apply readdir_id_perm.
  - apply s_d_disjoint.
  - apply wfb_sound. vm_compute. reflexivity.
  - vm_compute. reflexivity.
  - vm_compute. reflexivity.
  - apply consistentb_sound. vm_compute. reflexivity.
  - apply fitsb_sound. vm_compute. reflexivity.
Defined.

(** C9 fails when the counterpart is a regular file: [d/x] has no directory
    counterpart, and stays. *)
Lemma directory_with_file_counterpart_stays :
  ∃ w', fs w_kind !! ["s"; "x"] = Some (EFile 0 "x") ∧
        fs w_kind !! ["d"; "x"] = Some EDir ∧
        phase_b readdir_id 4 ["s"] ["d"] w_kind = Done tt w' ∧
        fs w' !! ["d"; "x"] = Some EDir ∧
        log w' = [Removed_file ["x"; "y"]].
Proof.
  eexists. split_and!; [vm_compute; reflexivity..].
Qed.

(** C9 as amended: [d/gone] and what it holds. *)
Lemma stale_directory_removed_once_witness :
  ∃ w' evs,
    phase_b readdir_id 4 ["s"] ["d"] w_stale = Done tt w' ∧
    log w' = log w_stale ++ evs ∧
    (∀ z, fs w' !! (["d"] ++ [] ++ "gone" :: z) = None) ∧
    count_occ record_eq_dec evs (Removed_directory ([] ++ ["gone"])) = 1%nat ∧
    (∀ e z, e ∈ evs → z ≠ [] → record_path e ≠ [] ++ "gone" :: z).
Proof.
  apply stale_directory_removed_once.
  - apply readdir_id_perm.
  - apply s_d_disjoint.
  - apply wfb_sound. vm_compute. reflexivity.
  - lia.
  - apply fitsb_sound. vm_compute. reflexivity.
  - by left.
  - vm_compute. reflexivity.
  - vm_compute. reflexivity.
Defined.

(** C10 fails when the source root lies inside the destination root: the
    pass removes the source. *)
Lemma nested_source_is_removed :
  ∃ w', sync readdir_id epoch 4 ["d"; "s"] ["d"] w_nested = Done tt w' ∧
        fs w_nested !! ["d"; "s"; "x"] = Some (EFile 1 "x") ∧
        fs w' !! ["d"; "s"; "x"] = None ∧
        fs w' !! ["d"; "s"] = None.
Proof.
  eexists. split_and!; [vm_compute; reflexivity..].
Qed.

(** C10 as amended. *)
Lemma source_untouched_witness :
  fs (world_of (sync readdir_id epoch 4 ["s"] ["d"] w_stale))
    !! (["s"] ++ ["keep.txt"])
  = fs w_stale !! (["s"] ++ ["keep.txt"]).
Proof.
  apply (source_untouched readdir_id epoch 4 ["s"] ["d"] w_stale).
  apply s_d_disjoint.
Defined.

(** X20.  The order in which the platform lists directories decides the
    order of the log lines and nothing else: two passes from the same file
    system, under any two listing orders, both end normally, leave the very
    same file system, and log the same records up to their order (disjoint
    roots, existing directories, kinds agreeing). *)
Theorem the_listing_order_only_orders_the_log
    order1 mtime1 order2 mtime2 fuel src dest w :
  (∀ p l, order1 p l ≡ₚ l) → (∀ p l, order2 p l ≡ₚ l) →
  disjoint_roots src dest → wf (fs w) →
  fs w !! src = Some EDir → fs w !! dest = Some EDir →
  consistent (fs w) src dest → fits fuel (fs w) src →
  ∃ w1 w2,
    sync order1 mtime1 fuel src dest w = Done tt w1 ∧
    sync order2 mtime2 fuel src dest w = Done tt w2 ∧
    fs w1 = fs w2 ∧ log w1 ≡ₚ log w2.
Proof.
  intros Hp1 Hp2 Hdisj Hwf Hs Hd Hcons Hfit.
  destruct (sync_ok order1 mtime1 Hp1 src dest fuel w)
    as (w1 & a1 & b1 & Hrun1 & _ & Hin1 & Hfr1 & Hlog1 & Hna1 & Hnb1
        & Ha1 & Hb1); [done..|].
  destruct (sync_ok order2 mtime2 Hp2 src dest fuel w)
    as (w2 & a2 & b2 & Hrun2 & _ & Hin2 & Hfr2 & Hlog2 & Hna2 & Hnb2
        & Ha2 & Hb2); [done..|].
  exists w1, w2. split_and!; [done..| |].
  - apply map_eq. intros p.
    destruct (below_dec dest [] p) as [(y & Hy & ->)|Hn].
    + simpl. by rewrite Hin1, Hin2.
    + by rewrite Hfr1, Hfr2.
  - rewrite Hlog1, Hlog2.
    assert (Ea : a1 ≡ₚ a2).
    { apply NoDup_Permutation; [done..|]. intros e. by rewrite Ha1, Ha2. }
    assert (Eb : b1 ≡ₚ b2).
    { apply NoDup_Permutation; [done..|]. intros e. by rewrite Hb1, Hb2. }
    by rewrite Ea, Eb.
Qed.

(** ** The command line *)

Section CommandLineFacts.

Variable py_int : string → option Z.
Variable getcwd : string.
Variable path_join : string → string → string.

(** Induction on the arguments two at a time, the way the loop of lines
    50-79 consumes them. *)
Lemma options_ind (P : list string → Prop) :
  P [] → (∀ a, P [a]) →
  (∀ a v rest, P rest → P (v :: rest) → P (a :: v :: rest)) →
  ∀ l, P l.
Proof.
  intros H0 H1 H2 l.
  assert (H : P l ∧ ∀ a, P (a :: l)); [|by destruct H].
  induction l as [|v l [IH1 IH2]]; [by split|].
  split; [apply IH2|]. intros a. apply H2; [done|apply IH2].
Qed.

(** One round of the loop. *)
Lemma parse_options_cons a rest s :
  parse_options py_int (a :: rest) s
  = if decide (a = "-i") then
      match rest with
      | v :: rest' =>
        match py_int v with
        | Some n =>
          parse_options py_int rest'
            (Settings (source_path s) (destination_path s) n
                      (log_file_path s) (debug s))
        | None =>
          Sys_exit ["Error: Value for -i argument must be a number"] 1
        end
      | [] => Sys_exit ["Error: Missing value for -i argument"] 1
      end
    else if decide (a = "-l") then
      match rest with
      | v :: rest' =>
        parse_options py_int rest'
          (Settings (source_path s) (destination_path s) (sync_interval s)
                    v (debug s))
      | [] => Sys_exit ["Error: Missing value for -l argument"] 1
      end
    else if decide (a = "-d") then
      parse_options py_int rest
        (Settings (source_path s) (destination_path s) (sync_interval s)
                  (log_file_path s) true)
    else Sys_exit ["Error: Unknown argument " +:+ a] 1.
Proof. by destruct rest. Qed.

(** The four ways the head argument can go. *)
Ltac head_cases a :=
  rewrite parse_options_cons;
  destruct (decide (a = "-i")) as [->|?];
    [|destruct (decide (a = "-l")) as [->|?];
      [|destruct (decide (a = "-d")) as [->|?]]];
  cbv beta iota.

Lemma parse_options_well_formed opts :
  ∀ s s', parse_options py_int opts s = Parsed s' → well_formed py_int opts.
Proof.
  induction opts as [|a|a v rest IHrest IHv] using options_ind;
    intros s s'.
  - intros _. constructor.
  - head_cases a; try done. intros _. by repeat constructor.
  - head_cases a; try done.
    + destruct (py_int v) as [n|] eqn:Ev; [|done].
      intros Hp. apply wf_interval; [by rewrite Ev|by eapply IHrest].
    + intros Hp. apply wf_log_file. by eapply IHrest.
    + intros Hp. apply wf_debug. by eapply IHv.
Qed.

Lemma well_formed_parses opts :
  well_formed py_int opts → ∀ s, ∃ s', parse_options py_int opts s = Parsed s'.
Proof.
  induction 1 as [|v rest [n Hn] _ IH|v rest _ IH|rest _ IH]; intros s.
  - by exists s.
  - rewrite parse_options_cons. simpl. rewrite Hn. apply IH.
  - rewrite parse_options_cons. simpl. apply IH.
  - rewrite parse_options_cons. simpl. apply IH.
Qed.

Lemma parse_options_paths opts :
  ∀ s s', parse_options py_int opts s = Parsed s' →
          source_path s' = source_path s ∧
          destination_path s' = destination_path s.
Proof.
  induction opts as [|a|a v rest IHrest IHv] using options_ind;
    intros s s'.
  - by intros [= <-].
  - head_cases a; try done. by intros [= <-].
  - head_cases a; try done.
    + destruct (py_int v) as [n|]; [|done]. intros Hp. by apply IHrest in Hp.
    + intros Hp. by apply IHrest in Hp.
    + intros Hp. by apply IHv in Hp.
Qed.

(** Options that were read without complaint are behind: what follows is
    read from the values they left. *)
Lemma parse_options_app opts more :
  ∀ s s', parse_options py_int opts s = Parsed s' →
          parse_options py_int (opts ++ more) s = parse_options py_int more s'.
Proof.
  induction opts as [|a|a v rest IHrest IHv] using options_ind;
    intros s s'.
  - simpl. by intros [= <-].
  - change ([a] ++ more) with (a :: more).
    rewrite (parse_options_cons a more). head_cases a; try done.
    by intros [= <-].
  - change ((a :: v :: rest) ++ more) with (a :: v :: (rest ++ more)).
    rewrite (parse_options_cons a (v :: rest ++ more)).
    head_cases a; try done.
    + destruct (py_int v) as [n|]; [|done]. apply IHrest.
    + apply IHrest.
    + intros Hp. by apply IHv in Hp.
Qed.

Lemma parse_options_defaults opts :
  ∀ s s', parse_options py_int opts s = Parsed s' →
    ("-i" ∉ opts → sync_interval s' = sync_interval s) ∧
    ("-l" ∉ opts → log_file_path s' = log_file_path s) ∧
    ("-d" ∉ opts → debug s' = debug s).
Proof.
  induction opts as [|a|a v rest IHrest IHv] using options_ind;
    intros s s'.
  - by intros [= <-].
  - head_cases a; try done. intros [= <-]. simpl.
    split_and!; try done. intros Hn. destruct Hn. by left.
  - head_cases a; try done.
    + destruct (py_int v) as [n|]; [|done]. intros Hp.
      apply IHrest in Hp as (Hi & Hl & Hd). simpl in *.
      split_and!; intros Hn.
      * destruct Hn. by left.
      * apply Hl. intros Hin. apply Hn. by do 2 right.
      * apply Hd. intros Hin. apply Hn. by do 2 right.
    + intros Hp. apply IHrest in Hp as (Hi & Hl & Hd). simpl in *.
      split_and!; intros Hn.
      * apply Hi. intros Hin. apply Hn. by do 2 right.
      * destruct Hn. by left.
      * apply Hd. intros Hin. apply Hn. by do 2 right.
    + intros Hp. apply IHv in Hp as (Hi & Hl & Hd). simpl in *.
      split_and!; intros Hn.
      * apply Hi. intros Hin. apply Hn. by right.
      * apply Hl. intros Hin. apply Hn. by right.
      * destruct Hn. by left.
Qed.

Lemma parse_options_exit opts :
  ∀ s printed status,
    parse_options py_int opts s = Sys_exit printed status →
    status = 1 ∧ ∃ msg, printed = ["Error: " +:+ msg].
Proof.
  induction opts as [|a|a v rest IHrest IHv] using options_ind;
    intros s printed status.
  - done.
  - head_cases a; try done; intros [= <- <-];
      (split; [done|]); eexists; reflexivity.
  - head_cases a.
    + destruct (py_int v) as [n|]; [apply IHrest|].
      intros [= <- <-]. split; [done|]. eexists. reflexivity.
    + apply IHrest.
    + apply IHv.
    + intros [= <- <-]. split; [done|]. eexists. reflexivity.
Qed.

(** X13.  [parse_args] returns normally exactly when the command line has
    the script name, two further arguments, and then options of the three
    accepted shapes: -i followed by a string [int] can read, -l followed by
    any string, or -d.  The two paths are then returned as they were typed:
    neither is checked in any way (they may be equal, empty, or look like
    an option). *)
Theorem parse_args_succeeds_iff argv :
  ((∃ s, parse_args py_int getcwd path_join argv = Parsed s) ↔
   (∃ prog source destination opts,
      argv = prog :: source :: destination :: opts ∧
      well_formed py_int opts)) ∧
  (∀ s, parse_args py_int getcwd path_join argv = Parsed s →
        ∃ prog opts,
          argv = prog :: source_path s :: destination_path s :: opts).
Proof.
  split; [split|].
  - intros [s Hs]. destruct argv as [|prog [|source [|destination opts]]];
      try done.
    exists prog, source, destination, opts. split; [done|].
    by apply parse_options_well_formed in Hs.
  - intros (prog & source & destination & opts & -> & Hwf).
    by apply well_formed_parses.
  - intros s Hs. destruct argv as [|prog [|source [|destination opts]]];
      try done.
    apply parse_options_paths in Hs as [-> ->]. by exists prog, opts.
Qed.

(** X14.  Options are read strictly from left to right and each one simply
    overwrites the value set before it: when a command line is accepted,
    the same command line with more arguments after it is parsed by reading
    those arguments from the values the accepted part produced.  So the
    last -i and the last -l are the ones that count, and a repeated -d
    changes nothing. *)
Theorem options_are_read_left_to_right prog source destination opts more s :
  parse_args py_int getcwd path_join (prog :: source :: destination :: opts)
    = Parsed s →
  parse_args py_int getcwd path_join
    (prog :: source :: destination :: opts ++ more)
  = parse_options py_int more s.
Proof. simpl. apply parse_options_app. Qed.

(** X15.  The first argument that does not fit ends the parse, whatever
    comes after it, with one line and exit status 1: an argument in option
    position that is none of -i, -l, -d is reported by name; -i or -l as
    the last argument is reported as missing its value; a value of -i that
    [int] cannot read is reported as not a number. *)
Theorem the_first_bad_option_ends_the_parse
    prog source destination good rest s :
  parse_args py_int getcwd path_join (prog :: source :: destination :: good)
    = Parsed s →
  (∀ bad, bad ≠ "-i" → bad ≠ "-l" → bad ≠ "-d" →
     parse_args py_int getcwd path_join
       (prog :: source :: destination :: good ++ bad :: rest)
     = Sys_exit ["Error: Unknown argument " +:+ bad] 1) ∧
  parse_args py_int getcwd path_join
    (prog :: source :: destination :: good ++ ["-i"])
  = Sys_exit ["Error: Missing value for -i argument"] 1 ∧
  parse_args py_int getcwd path_join
    (prog :: source :: destination :: good ++ ["-l"])
  = Sys_exit ["Error: Missing value for -l argument"] 1 ∧
  (∀ v, py_int v = None →
     parse_args py_int getcwd path_join
       (prog :: source :: destination :: good ++ "-i" :: v :: rest)
     = Sys_exit ["Error: Value for -i argument must be a number"] 1).
Proof.
  simpl. intros Hgood. split_and!.
  - intros bad H1 H2 H3. rewrite (parse_options_app _ _ _ _ Hgood).
    rewrite parse_options_cons. by repeat case_decide.
  - by rewrite (parse_options_app _ _ _ _ Hgood).
  - by rewrite (parse_options_app _ _ _ _ Hgood).
  - intros v Hv. rewrite (parse_options_app _ _ _ _ Hgood).
    rewrite parse_options_cons. simpl. by rewrite Hv.
Qed.

(** X16.  An option that does not occur anywhere on an accepted command
    line keeps its default: the interval is 10 without -i, the log file is
    sync_log.log joined onto the current directory without -l, and debug
    logging is off without -d. *)
Theorem an_absent_option_keeps_its_default
    prog source destination opts s :
  parse_args py_int getcwd path_join (prog :: source :: destination :: opts)
    = Parsed s →
  ("-i" ∉ opts → sync_interval s = 10) ∧
  ("-l" ∉ opts → log_file_path s = path_join getcwd "sync_log.log") ∧
  ("-d" ∉ opts → debug s = false).
Proof. simpl. intros H. by apply parse_options_defaults in H. Qed.

(** X17.  [parse_args] never leaves the program silently or with another
    status than 1: with fewer than two arguments after the script name it
    prints the eleven usage lines; in every other case where it exits it
    prints exactly one line, which starts with Error. *)
Theorem parse_args_exits_with_status_1 argv printed status :
  parse_args py_int getcwd path_join argv = Sys_exit printed status →
  status = 1 ∧
  (((length argv < 3)%nat ∧ printed = usage) ∨
   ((3 ≤ length argv)%nat ∧ ∃ msg, printed = ["Error: " +:+ msg])).
Proof.
  destruct argv as [|prog [|source [|destination opts]]]; simpl;
    try (intros [= <- <-]; split; [done|]; left; split; [lia|done]).
  intros H. apply parse_options_exit in H as [-> Hmsg].
  split; [done|]. right. split; [lia|done].
Qed.

End CommandLineFacts.

(** ** The further properties at work on the examples *)

(** X1 on the destination that was partly out of date: the older
    [keep.txt] is overwritten, [sub/f] is created, [gone] is removed. *)
Lemma after_one_pass_witness :
  ∃ w', sync readdir_id epoch 4 ["s"] ["d"] w_stale = Done tt w' ∧
    fs w' !! (["d"] ++ ["keep.txt"]) = Some (EFile 5 "new") ∧
    fs w' !! (["d"] ++ ["sub"; "f"]) = Some (EFile 2 "f") ∧
    fs w' !! (["d"] ++ ["gone"]) = None.
Proof.
  destruct (after_one_pass readdir_id epoch readdir_id_perm
              ["s"] ["d"] 4 w_stale) as (w' & Hrun & H).
  - apply s_d_disjoint.
  - apply wfb_sound. vm_compute. reflexivity.
  - vm_compute. reflexivity.
  - vm_compute. reflexivity.
  - apply consistentb_sound. vm_compute. reflexivity.
  - apply fitsb_sound. vm_compute. reflexivity.
  - exists w'. split_and!.
    + exact Hrun.
    + exact (H ["keep.txt"] ltac:(discriminate)).
    + exact (H ["sub"; "f"] ltac:(discriminate)).
    + exact (H ["gone"] ltac:(discriminate)).
Defined.

(** X2 on the same example. *)
Lemma the_log_accounts_for_every_change_witness :
  ∃ w' new,
    sync readdir_id epoch 4 ["s"] ["d"] w_stale = Done tt w' ∧
    log w' = log w_stale ++ new ∧
    (∀ p, fs w' !! p ≠ fs w_stale !! p →
       ∃ r y, r ∈ new ∧ is_event r = true ∧ p = ["d"] ++ y ∧
              record_path r `prefix_of` y) ∧
    (∀ r, r ∈ new → is_event r = true →
       fs w' !! (["d"] ++ record_path r)
       ≠ fs w_stale !! (["d"] ++ record_path r)).
Proof.
  apply (the_log_accounts_for_every_change readdir_id epoch readdir_id_perm).
  - apply s_d_disjoint.
  - apply wfb_sound. vm_compute. reflexivity.
  - vm_compute. reflexivity.
  - vm_compute. reflexivity.
  - apply consistentb_sound. vm_compute. reflexivity.
  - apply fitsb_sound. vm_compute. reflexivity.
Defined.

(** X3: the source of the scenario onto itself. *)
Lemma sync_onto_itself_witness :
  sync readdir_id epoch 4 ["s"] ["s"] w_scenario
  = Done tt (World (fs w_scenario)
               (log w_scenario ++ [Debug_syncing; Debug_completed])).
Proof.
  apply (sync_onto_itself readdir_id epoch readdir_id_perm).
  apply fitsb_sound. vm_compute. reflexivity.
Defined.

(** X4: a file of the source lies outside the destination. *)
Lemma outside_the_destination_nothing_is_lost_witness :
  fs (world_of (sync readdir_id epoch 4 ["s"] ["d"] w_stale))
    !! ["s"; "keep.txt"]
  = fs w_stale !! ["s"; "keep.txt"] ∨
  (fs w_stale !! ["s"; "keep.txt"] = None ∧
   fs (world_of (sync readdir_id epoch 4 ["s"] ["d"] w_stale))
     !! ["s"; "keep.txt"] = Some EDir ∧
   ["s"; "keep.txt"] `prefix_of` ["d"]).
Proof.
  apply outside_the_destination_nothing_is_lost.
  intros (d & _ & E). discriminate E.
Defined.

(** X6: the regular file [s] as source empties [d]. *)
Lemma a_regular_file_as_source_witness :
  ∃ w' evs,
    sync readdir_id epoch 4 ["s"] ["d"] w_srcfile = Done tt w' ∧
    (∀ y, y ≠ [] → fs w' !! (["d"] ++ y) = None) ∧
    (∀ p, ¬ inside p ["d"] → fs w' !! p = fs w_srcfile !! p) ∧
    log w' = log w_srcfile ++ [Debug_syncing] ++ evs ++ [Debug_completed] ∧
    ∀ e, e ∈ evs ↔
         (∃ n t' c', e = Removed_file [n] ∧
                     fs w_srcfile !! (["d"] ++ [n]) = Some (EFile t' c')) ∨
         (∃ n, e = Removed_directory [n] ∧
               fs w_srcfile !! (["d"] ++ [n]) = Some EDir).
Proof.
  apply (a_regular_file_as_source readdir_id epoch readdir_id_perm
           4 ["s"] ["d"] w_srcfile 1 "x").
  - apply wfb_sound. vm_compute. reflexivity.
  - vm_compute. reflexivity.
  - intros [k E]. discriminate E.
  - lia.
Defined.

(** X7: the regular file [d] as destination. *)
Lemma a_regular_file_as_destination_witness :
  ∃ n, is_Some (fs w_destfile !! (["s"] ++ [n])) ∧
       sync readdir_id epoch 4 ["s"] ["d"] w_destfile
       = Raised (NotADirectoryError (["d"] ++ [n]))
                (World (fs w_destfile) (log w_destfile ++ [Debug_syncing])).
Proof.
  destruct (a_regular_file_as_destination readdir_id epoch readdir_id_perm
              4 ["s"] ["d"] w_destfile 0 "f") as [_ H].
  - apply wfb_sound. vm_compute. reflexivity.
  - vm_compute. reflexivity.
  - vm_compute. reflexivity.
  - lia.
  - apply H. exists "a". vm_compute. eauto.
Defined.

(** X8: one file in the source and no destination root; in the second
    world the missing destination root lies below a regular file. *)
Lemma a_missing_destination_and_only_files_witness :
  (∃ n t c, fs w_flat !! (["s"] ++ [n]) = Some (EFile t c) ∧
     sync readdir_id epoch 4 ["s"] ["d"] w_flat
     = Raised (FileNotFoundError (["d"] ++ [n]))
              (World (fs w_flat) (log w_flat ++ [Debug_syncing]))) ∧
  (∃ n t c, fs w_under_file !! (["s"] ++ [n]) = Some (EFile t c) ∧
     sync readdir_id epoch 4 ["s"] ["f"; "d"] w_under_file
     = Raised (NotADirectoryError (["f"; "d"] ++ [n]))
              (World (fs w_under_file)
                     (log w_under_file ++ [Debug_syncing]))).
Proof.
  split.
  - destruct (a_missing_destination_and_only_files readdir_id epoch
                readdir_id_perm 4 ["s"] ["d"] w_flat) as [_ H].
    + apply wfb_sound. vm_compute. reflexivity.
    + vm_compute. reflexivity.
    + vm_compute. reflexivity.
    + intros n E. apply (elem_of_dirs_of readdir_id readdir_id_perm) in E.
      vm_compute in E. by apply elem_of_nil in E.
    + lia.
    + destruct H as (n & t & c & Hn & Hmissing & _).
      * exists "f". vm_compute. eauto.
      * exists n, t, c. split; [exact Hn|]. apply Hmissing.
        apply no_file_aboveb_sound. vm_compute. reflexivity.
  - destruct (a_missing_destination_and_only_files readdir_id epoch
                readdir_id_perm 4 ["s"] ["f"; "d"] w_under_file) as [_ H].
    + apply wfb_sound. vm_compute. reflexivity.
    + vm_compute. reflexivity.
    + vm_compute. reflexivity.
    + intros n E. apply (elem_of_dirs_of readdir_id readdir_id_perm) in E.
      vm_compute in E. by apply elem_of_nil in E.
    + lia.
    + destruct H as (n & t & c & Hn & _ & Hfile).
      * exists "a". vm_compute. eauto.
      * exists n, t, c. split; [exact Hn|]. apply Hfile.
        exists ["f"], 0, "f". split; [by exists ["d"]|].
        vm_compute. reflexivity.
Defined.

(** X9: [m/d] is missing, and so is [m]; the source has the subdirectory
    [sub]. *)
Lemma a_missing_destination_is_made_on_the_way_witness :
  ∃ w' evs, sync readdir_id epoch 4 ["s"] ["m"; "d"] w_deep = Done tt w' ∧
    (∀ x, fs w' !! (["m"; "d"] ++ x) = fs w_deep !! (["s"] ++ x)) ∧
    (∀ q, q `prefix_of` ["m"; "d"] → fs w' !! q = Some EDir) ∧
    log w' = log w_deep ++ [Debug_syncing] ++ evs ++ [Debug_completed] ∧
    ∀ e, e ∈ evs ↔
      (∃ y, y ≠ [] ∧ e = Created_directory y ∧
            fs w_deep !! (["s"] ++ y) = Some EDir) ∨
      (∃ y t c, e = Created_file y ∧
                fs w_deep !! (["s"] ++ y) = Some (EFile t c)).
Proof.
  apply (a_missing_destination_is_made_on_the_way readdir_id epoch
           readdir_id_perm).
  - split; intros [k E]; discriminate E.
  - apply wfb_sound. vm_compute. reflexivity.
  - vm_compute. reflexivity.
  - vm_compute. reflexivity.
  - apply no_file_aboveb_sound. vm_compute. reflexivity.
  - exists "sub". vm_compute. reflexivity.
  - apply fitsb_sound. vm_compute. reflexivity.
Defined.

(** X10: the file [s/x] is newer than the directory [d/x] and lands at
    [d/x/x]. *)
Lemma a_file_meets_a_directory_witness :
  copy_file long_ago ["s"] ["d"] (["s"] ++ []) "x" w_kind
  = if bool_decide (long_ago (["d"] ++ [] ++ ["x"]) < 0)
    then if bool_decide (fs w_kind !! (["d"] ++ [] ++ ["x"; "x"]) = Some EDir)
         then Raised (IsADirectoryError (["d"] ++ [] ++ ["x"; "x"])) w_kind
         else Done tt (World (<[["d"] ++ [] ++ ["x"; "x"] := EFile 0 "x"]>
                                (fs w_kind))
                             (log w_kind ++ [Modified_file ([] ++ ["x"])]))
    else Done tt w_kind.
Proof.
  apply (a_file_meets_a_directory long_ago ["s"] ["d"] [] "x" 0 "x" w_kind).
  - apply s_d_disjoint.
  - vm_compute. reflexivity.
  - vm_compute. reflexivity.
Defined.

(** X11: three rounds of the loop on the destination that was partly out
    of date. *)
Lemma the_loop_settles_after_one_pass_witness :
  ∃ w1, sync readdir_id epoch 4 ["s"] ["d"] w_stale = Done tt w1 ∧
    run_loop readdir_id epoch 100 3 4 ["s"] ["d"] 10 w_stale
    = Still_running
        (World (fs w1)
           (log w1 ++ concat (replicate 2 [Debug_syncing; Debug_completed]))).
Proof.
  apply (the_loop_settles_after_one_pass readdir_id epoch readdir_id_perm).
  - lia.
  - apply s_d_disjoint.
  - apply wfb_sound. vm_compute. reflexivity.
  - vm_compute. reflexivity.
  - vm_compute. reflexivity.
  - apply consistentb_sound. vm_compute. reflexivity.
  - apply fitsb_sound. vm_compute. reflexivity.
Defined.

(** X14: a second -i after an accepted command line. *)
Lemma options_are_read_left_to_right_witness :
  parse_args decimal "home" slash_join (argv_full ++ ["-i"; "5"])
  = Parsed (Settings "s" "d" 5 "my.log" true).
Proof.
  etrans.
  - apply (options_are_read_left_to_right decimal "home" slash_join
             "sync.py" "s" "d" ["-i"; "30"; "-l"; "my.log"; "-d"]
             ["-i"; "5"] (Settings "s" "d" 30 "my.log" true)).
    vm_compute. reflexivity.
  - vm_compute. reflexivity.
Defined.

(** X15: after the accepted option -d. *)
Lemma the_first_bad_option_ends_the_parse_witness :
  parse_args decimal "home" slash_join
    ("sync.py" :: "s" :: "d" :: ["-d"] ++ "--fast" :: ["-i"; "5"])
  = Sys_exit ["Error: Unknown argument " +:+ "--fast"] 1.
Proof.
  destruct (the_first_bad_option_ends_the_parse decimal "home" slash_join
              "sync.py" "s" "d" ["-d"] ["-i"; "5"]
              (Settings "s" "d" 10 (slash_join "home" "sync_log.log") true))
    as [H _].
  - vm_compute. reflexivity.
  - apply H; discriminate.
Defined.

(** X16: the two paths alone. *)
Lemma an_absent_option_keeps_its_default_witness :
  ∃ s, parse_args decimal "home" slash_join argv_plain = Parsed s ∧
       sync_interval s = 10 ∧
       log_file_path s = slash_join "home" "sync_log.log" ∧
       debug s = false.
Proof.
  exists (Settings "s" "d" 10 (slash_join "home" "sync_log.log") false).
  destruct (an_absent_option_keeps_its_default decimal "home" slash_join
              "sync.py" "s" "d" []
              (Settings "s" "d" 10 (slash_join "home" "sync_log.log") false))
    as (Hi & Hl & Hd).
  - vm_compute. reflexivity.
  - split_and!.
    + vm_compute. reflexivity.
    + apply Hi, not_elem_of_nil.
    + apply Hl, not_elem_of_nil.
    + apply Hd, not_elem_of_nil.
Defined.

(** X17: a value of -i that is not a number. *)
Lemma parse_args_exits_with_status_1_witness :
  ∃ printed status,
    parse_args decimal "home" slash_join
      ["sync.py"; "s"; "d"; "-i"; "soon"] = Sys_exit printed status ∧
    status = 1 ∧
    (((length ["sync.py"; "s"; "d"; "-i"; "soon"] < 3)%nat ∧
      printed = usage) ∨
     ((3 ≤ length ["sync.py"; "s"; "d"; "-i"; "soon"])%nat ∧
      ∃ msg, printed = ["Error: " +:+ msg])).
Proof.
  exists ["Error: Value for -i argument must be a number"], 1.
  split; [vm_compute; reflexivity|].
  apply (parse_args_exits_with_status_1 decimal "home" slash_join
           ["sync.py"; "s"; "d"; "-i"; "soon"]).
  vm_compute. reflexivity.
Defined.

(** X18: the handler on standard error, debug logging off. *)
Lemma what_the_handlers_write_witness :
  ∃ evs, Forall (λ r, is_event r = true) evs ∧
    let new := Debug_syncing :: evs ++
                 match sync readdir_id epoch 4 ["s"] ["d"] w_stale with
                 | Done _ _ => [Debug_completed]
                 | _ => []
                 end in
    log (world_of (sync readdir_id epoch 4 ["s"] ["d"] w_stale))
    = log w_stale ++ new ∧
    written_by (setup_logger "sync_log.log" false)
               (Handler Stderr Message_only) new
    = evs.
Proof.
  apply (what_the_handlers_write readdir_id epoch "sync_log.log" false
           (Handler Stderr Message_only)).
  do 2 right. left.
Defined.

Lemma readdir_rev_perm p l : readdir_rev p l ≡ₚ l.
Proof. unfold readdir_rev. symmetry. apply Permutation_rev. Qed.

(** X20: the destination that was partly out of date, listed forwards and
    backwards. *)
Lemma the_listing_order_only_orders_the_log_witness :
  ∃ w1 w2,
    sync readdir_id epoch 4 ["s"] ["d"] w_stale = Done tt w1 ∧
    sync readdir_rev long_ago 4 ["s"] ["d"] w_stale = Done tt w2 ∧
    fs w1 = fs w2 ∧ log w1 ≡ₚ log w2.
Proof.
  apply the_listing_order_only_orders_the_log.
  - apply readdir_id_perm.
  - apply readdir_rev_perm.
  - apply s_d_disjoint.
  - apply wfb_sound. vm_compute. reflexivity.
  - vm_compute. reflexivity.
  - vm_compute. reflexivity.
  - apply consistentb_sound. vm_compute. reflexivity.
  - apply fitsb_sound. vm_compute. reflexivity.
Defined.
